(** * FractalNet: drop-path masks, joins and the column schedule

    A shallow embedding of [fractal.py] (classes [FractalBlock] and
    [FractalNet]).

    Conventions of the embedding.
    - A tensor of shape [[B, C, H, W]] is a list of [B] samples, each
      sample being the flattened list of its [C*H*W] scalars.  Tensor
      scalars are exact rationals ([Qc]): the rounding of tensor
      arithmetic is idealised.  Where a float decides a discrete outcome
      (the number of global samples, the check of the keep probability)
      it is rounded as binary64 does ([round_b64]); where non-finite
      values and division by zero matter ([join_fl]) scalars are
      floats with their infinities and nan ([Float]).
    - numpy's process-wide random source is an explicit stream of raw
      words, threaded through every call that draws from it.
    - Python exceptions are the [Raise] outcome of the computation monad.
    - A ghost trace records which collaborators are invoked, so that
      statements about "what is called, and with what" can be written. *)

From Stdlib Require Import QArith Qcanon Qround.
From stdpp Require Import base tactics option list numbers.

Local Open Scope nat_scope.

(** ** Tensors *)

Abbreviation Sample := (list Qc).
Abbreviation Tensor := (list (list Qc)).

(** The shape of a tensor, as far as [torch.stack] compares it: the
    batch size together with the size of every sample. *)
Definition shape (t : Tensor) : list nat := length <$> t.

(** Elementwise operations on same-shaped operands. *)
Definition vadd (u v : Sample) : Sample := zip_with Qcplus u v.
Definition tadd (s t : Tensor) : Tensor := zip_with vadd s t.
Definition vscale (a : Qc) (v : Sample) : Sample := Qcmult a <$> v.
Definition vdiv (v : Sample) (a : Qc) : Sample := (λ x, x / a)%Qc <$> v.

(** ** Python floats

    A finite float is the rational it denotes.  The result of an
    operation is the binary64 value nearest to the exact result, ties
    going to the even significand; [None] stands for an infinite result. *)

(** [floor(log2 q)] for a positive [q]. *)
Definition Qlog2 (q : Q) : Z :=
  let n := Qnum q in
  let d := Z.pos (Qden q) in
  let k := (Z.log2 n - Z.log2 d)%Z in
  if (if (0 <=? k)%Z then (2 ^ k * d <=? n)%Z else (d <=? n * 2 ^ (- k))%Z)
  then k else (k - 1)%Z.

(** The nearest integer, ties to even. *)
Definition round_half_even (q : Q) : Z :=
  let f := Qfloor q in
  match (q - inject_Z f ?= 1 # 2)%Q with
  | Lt => f
  | Gt => (f + 1)%Z
  | Eq => if Z.even f then f else (f + 1)%Z
  end.

(** The exponent of the smallest subnormal, and the first power of two
    that is too large. *)
Definition b64_emin : Z := (-1074)%Z.
Definition b64_huge : Z := (2 ^ 1024)%Z.

(** Rounding of a non-negative rational: the significand has 53 bits,
    fewer below the normal range. *)
Definition round_b64_abs (a : Q) : option Q :=
  if (Qnum a =? 0)%Z then Some 0%Q
  else
    let e := Z.max (Qlog2 a - 52) b64_emin in
    let r :=
      if (e <=? 0)%Z then
        let P := (2 ^ (- e))%Z in
        Qmake (round_half_even (a * inject_Z P)) (Z.to_pos P)
      else
        let P := (2 ^ e)%Z in
        inject_Z (round_half_even (a / inject_Z P) * P) in
    if Qle_bool (inject_Z b64_huge) r then None else Some r.

Definition round_b64 (q : Q) : option Q :=
  if Qle_bool 0 q then round_b64_abs q else Qopp <$> round_b64_abs (- q).

(** ** The world: random source and ghost trace *)

Inductive exn :=
  | ValueError | IndexError | TypeError | RuntimeError | ZeroDivisionError
  | OverflowError.

Inductive Event :=
  | EvDoubler                       (* a block applied its doubler *)
  | EvLeaf (c i : nat)              (* columns[c][i] was applied *)
  | EvSample (g : list Z)           (* FractalNet.forward sampled global_cols *)
  | EvBlock (g : list Z).           (* FractalNet.forward called a block with g *)

Record World := mkWorld {
  rng : nat → N;                    (* raw words not yet consumed *)
  trace : list Event                (* events so far, oldest first *)
}.

Inductive Result (A : Type) :=
  | Ok (a : A) (w : World)
  | Raise (e : exn).
Arguments Ok {A} a w.
Arguments Raise {A} e.

Definition M (A : Type) : Type := World → Result A.

Definition returned {A} (r : Result A) : option A :=
  match r with Ok a _ => Some a | Raise _ => None end.

#[global] Instance M_ret : MRet M := λ A a w, Ok a w.
#[global] Instance M_bind : MBind M := λ A B f m w,
  match m w with
  | Ok a w' => f a w'
  | Raise e => Raise e
  end.

Definition raise {A} (e : exn) : M A := λ _, Raise e.
Definition log (ev : Event) : M unit :=
  λ w, Ok () (mkWorld (rng w) (trace w ++ [ev])).

(** [l[i]] for a Python list or numpy vector and an index [i >= 0]. *)
Definition getitem {A} (l : list A) (i : nat) : M A :=
  match l !! i with Some x => mret x | None => raise IndexError end.

(** Left-to-right loop carrying a state. *)
Fixpoint foldlM {A S} (body : S → A → M S) (s : S) (l : list A) : M S :=
  match l with
  | [] => mret s
  | x :: l => s' ← body s x; foldlM body s' l
  end.

(** *** numpy.random *)

(** [k] raw words are taken from the front of the stream. *)
Definition draw (k : nat) : M (list N) :=
  λ w, Ok (rng w <$> seq 0 k) (mkWorld (λ j, rng w (k + j)) (trace w)).

(** A raw word read as a uniform number of [[0, 1)] with 53 bits. *)
Definition uniform (u : N) : Q := (Z.of_N (u mod 2 ^ 53) # 2 ^ 53)%Q.

(** One Bernoulli trial with success probability [q]. *)
Definition bernoulli (q : Q) (u : N) : Qc :=
  if Qlt_le_dec (uniform u) q then 1%Qc else 0%Qc.

(** Cut a list into consecutive rows of [len] entries. *)
Fixpoint rows_of {A} (n len : nat) (l : list A) : list (list A) :=
  match n with
  | 0 => []
  | S n => take len l :: rows_of n len (drop len l)
  end.

(** [np.random.binomial(1, q, [n, m]).astype(np.float32)];
    [m] is a Python int and may be negative. *)
Definition random_binomial1 (q : Q) (n : nat) (m : Z) : M (list (list Qc)) :=
  if negb (Qle_bool 0 q && Qle_bool q 1) then raise ValueError
  else if (m <? 0)%Z then raise ValueError
  else
    us ← draw (n * Z.to_nat m);
    mret (rows_of n (Z.to_nat m) (bernoulli q <$> us)).

(** [np.random.randint(low, high, size=[k])]; the bounds are checked
    whatever the size is. *)
Definition random_randint (low high : Z) (k : Z) : M (list Z) :=
  if (high <=? low)%Z then raise ValueError
  else if (k <? 0)%Z then raise ValueError
  else
    us ← draw (Z.to_nat k);
    mret ((λ u, low + Z.of_N u `mod` (high - low))%Z <$> us).

(** ** ConvBlock: the leaf transform

    The torch layers inside a [ConvBlock] (padding, convolution, dropout,
    batch normalisation, ReLU) are external; the block is represented by
    its configuration and by the function its [forward] computes. *)

(** The two padding styles a [ConvBlock] accepts; any other string makes
    its constructor raise [ValueError]. *)
Inductive PadType := zero | reflect.

Record ConvBlock := mkConvBlock {
  cb_C_in : nat;
  cb_C_out : nat;
  cb_kernel_size : nat;
  cb_padding : nat;
  cb_dropout : option Q;
  cb_pad_type : PadType;
  cb_forward : Tensor → Tensor
}.

(** [ConvBlock.__init__]; [f] is the function the new block computes. *)
Definition ConvBlock_init (C_in C_out kernel_size padding : nat)
    (dropout : option Q) (pad_type : PadType) (f : Tensor → Tensor) : ConvBlock :=
  let dropout :=
    match dropout with
    | Some p => if Qlt_le_dec 0 p then Some p else None
    | None => None
    end in
  mkConvBlock C_in C_out kernel_size padding dropout pad_type f.

(** ** FractalBlock *)

Record FractalBlock := mkFractalBlock {
  n_columns : nat;
  columns : list (list (option ConvBlock));
  max_depth : nat;
  p_local_drop : Q;
  doubler : option ConvBlock;
  count : list nat;
  training : bool
}.

(** [model.eval()] / [model.train()] on a block. *)
Definition set_training (mode : bool) (self : FractalBlock) : FractalBlock :=
  mkFractalBlock (n_columns self) (columns self) (max_depth self)
    (p_local_drop self) (doubler self) (count self) mode.

(** Loops of [__init__] run in the option monad: [None] is an exception. *)
Fixpoint foldlO {A S} (body : S → A → option S) (s : S) (l : list A) : option S :=
  match l with
  | [] => Some s
  | x :: l => s' ← body s x; foldlO body s' l
  end.

Section FractalBlock_init.
(** The arguments of [__init__]: [n_cols] is [n_columns], [p_drop] is
    [p_local_drop]. *)
Context (n_cols C_in C_out : nat) (p_drop : Q) (p_dropout : option Q)
        (pad_type : PadType) (doubling : bool).
(** The functions computed by the freshly created leaves: [theta c i]
    for the module of column [c] at depth [i], [theta_d] for the doubler. *)
Context (theta : nat → nat → Tensor → Tensor) (theta_d : Tensor → Tensor).

(** Body of [for i in range(self.max_depth)], for column [c]. *)
Definition init_cell (c dist : nat)
    (st : list (option ConvBlock) * list nat) (i : nat)
    : option (list (option ConvBlock) * list nat) :=
  let '(col, cnt) := st in
  if dist =? 0 then None                         (* ZeroDivisionError *)
  else if (i + 1) `mod` dist =? 0 then
    let first_block := i + 1 =? dist in
    let cur_C_in := if first_block && negb doubling then C_in else C_out in
    let module :=
      ConvBlock_init cur_C_in C_out 3 1 p_dropout pad_type (theta c i) in
    _ ← cnt !! i;                                (* IndexError otherwise *)
    Some (col ++ [Some module], alter S i cnt)
  else Some (col ++ [None], cnt).

(** Body of [for col in self.columns], [c] being the position of [col]. *)
Definition init_column (depth : nat)
    (st : list (list (option ConvBlock)) * list nat * nat) (c : nat)
    : option (list (list (option ConvBlock)) * list nat * nat) :=
  let '(cols, cnt, dist) := st in
  '(col, cnt') ← foldlO (init_cell c dist) ([], cnt) (seq 0 depth);
  Some (cols ++ [col], cnt', dist / 2).

Definition FractalBlock_init : option FractalBlock :=
  if n_cols =? 0 then None      (* 2 ** -1 is a float: np.zeros raises *)
  else
    let depth := 2 ^ (n_cols - 1) in
    let dbl :=
      if doubling then Some (ConvBlock_init C_in C_out 1 0 None zero theta_d)
      else None in
    '(cols, cnt, _) ←
      foldlO (init_column depth) ([], replicate depth 0, depth) (seq 0 n_cols);
    Some (mkFractalBlock n_cols cols depth p_drop dbl cnt true).

(** Closed form of the entry that [init_cell] appends for depth [i]. *)
Definition new_cell (c dist i : nat) : option ConvBlock :=
  if (i + 1) `mod` dist =? 0 then
    Some (ConvBlock_init
            (if (i + 1 =? dist) && negb doubling then C_in else C_out)
            C_out 3 1 p_dropout pad_type (theta c i))
  else None.
End FractalBlock_init.

(** *** drop_mask *)

(** [np.where(p(v))[0]]: the positions whose entry satisfies [p]. *)
Definition np_where {A} (p : A → bool) (v : list A) : list nat :=
  omap (λ '(k, x), if p x then Some k else None) (zip (seq 0 (length v)) v).

Definition np_zeros (n m : nat) : list (list Qc) := replicate n (replicate m 0%Qc).

(** [a[r, k] = v] for one index pair.  A negative row index counts from
    the end; an index outside the array raises. *)
Definition setitem2 (a : list (list Qc)) (r : Z) (k : nat) (v : Qc)
    : M (list (list Qc)) :=
  let n := Z.of_nat (length a) in
  if ((r <? - n) || (n <=? r))%Z then raise IndexError
  else
    let r' := Z.to_nat (if (r <? 0)%Z then r + n else r)%Z in
    row ← getitem a r';
    if bool_decide (k < length row) then mret (<[r' := <[k := v]> row]> a)
    else raise IndexError.

(** [a[rs, ks] = v] for index vectors paired pointwise. *)
Definition setitems2 (a : list (list Qc)) (rs : list Z) (ks : list nat) (v : Qc)
    : M (list (list Qc)) :=
  foldlM (λ a '(r, k), setitem2 a r k v) a (zip rs ks).

(** [a.sum(axis=0)] of an array with [m] columns. *)
Definition sum_axis0 (m : nat) (a : list (list Qc)) : list Qc :=
  foldl vadd (replicate m 0%Qc) a.

Definition drop_mask (self : FractalBlock) (B : nat) (global_cols : list Z)
    (n_cols : nat) : M (list (list Qc)) :=
  (* global drop mask *)
  let GB := length global_cols in
  let gdrop_cols :=
    (λ g, g - (Z.of_nat (n_columns self) - Z.of_nat n_cols))%Z <$> global_cols in
  let gdrop_indices := np_where (λ g, 0 <=? g)%Z gdrop_cols in
  let gdrop_mask := np_zeros n_cols GB in
  rows ← mapM (getitem gdrop_cols) gdrop_indices;
  gdrop_mask ← setitems2 gdrop_mask rows gdrop_indices 1%Qc;
  (* local drop mask *)
  let LB := (Z.of_nat B - Z.of_nat GB)%Z in
  ldrop_mask ←
    match round_b64 (1 - p_local_drop self) with     (* 1.-self.p_local_drop *)
    | Some keep => random_binomial1 keep n_cols LB
    | None => raise ValueError                       (* an infinite p *)
    end;
  let alive_count := sum_axis0 (Z.to_nat LB) ldrop_mask in
  (* resurrect all-dead case *)
  let dead_indices := np_where (λ a, bool_decide (a = 0%Qc)) alive_count in
  rows ← random_randint 0 (Z.of_nat n_cols) (Z.of_nat (length dead_indices));
  ldrop_mask ← setitems2 ldrop_mask rows dead_indices 1%Qc;
  mret (zip_with app gdrop_mask ldrop_mask).

(** *** join *)

(** [torch.stack(outs)]: the result keeps the list structure; an empty
    list or tensors of different shapes raise. *)
Definition torch_stack (outs : list Tensor) : M (list Tensor) :=
  match outs with
  | [] => raise RuntimeError
  | t :: ts =>
      if forallb (λ t', bool_decide (shape t' = shape t)) ts then mret outs
      else raise RuntimeError
  end.

(** [out.sum(dim=0)] of a stacked tensor. *)
Definition sum_dim0 (out : list Tensor) : Tensor :=
  match out with
  | [] => []
  | t :: ts => foldl tadd t ts
  end.

(** [masks.sum(dim=0)] of a mask [[n_cols, B]]. *)
Definition mask_sum_dim0 (masks : list (list Qc)) : list Qc :=
  match masks with
  | [] => []
  | r :: rs => foldl vadd r rs
  end.

(** [out * masks], the mask [[n_cols, B, 1, 1, 1]] broadcast over each sample. *)
Definition mul_masks (out : list Tensor) (masks : list (list Qc)) : list Tensor :=
  zip_with (zip_with (λ s a, (λ x, x * a)%Qc <$> s)) out masks.

(** [n_alive[n_alive == 0.] = 1.] *)
Definition clamp_dead (n_alive : list Qc) : list Qc :=
  (λ a, if bool_decide (a = 0%Qc) then 1%Qc else a) <$> n_alive.

Definition Qc_of_nat (n : nat) : Qc := Qc_of_Z (Z.of_nat n).

Definition join (self : FractalBlock) (outs : list Tensor) (global_cols : list Z)
    : M Tensor :=
  let n_cols := length outs in
  out ← torch_stack outs;
  if training self then
    o0 ← getitem outs 0;
    masks ← drop_mask self (length o0) global_cols n_cols;
    let n_alive := mask_sum_dim0 masks in
    let masked_out := mul_masks out masks in
    let n_alive := clamp_dead n_alive in
    mret (zip_with vdiv (sum_dim0 masked_out) n_alive)
  else
    mret ((λ s, vdiv s (Qc_of_nat n_cols)) <$> sum_dim0 out).

(** *** join on floats

    [join] once more, on scalars that keep what exact rationals cannot
    show: the infinities and nan of floats, and division by zero.  On
    finite values the two agree ([join_fl_finite]); finite arithmetic is
    exact here too.  The mask and the alive counts are finite by
    construction ([drop_mask] returns them) and stay rationals. *)
Inductive Float := Fin (q : Qc) | PInf | NInf | NaN.

Abbreviation FTensor := (list (list Float)).

(** A tensor of finite values, as a tensor of floats. *)
Definition embed (t : Tensor) : FTensor := fmap (M := list) Fin <$> t.

(** [x * a] for a mask weight [a]: an infinity or nan times zero is nan. *)
Definition fmul (x : Float) (a : Qc) : Float :=
  match x with
  | Fin q => Fin (q * a)
  | PInf =>
      if bool_decide (a = 0%Qc) then NaN
      else if bool_decide (0 < a)%Qc then PInf else NInf
  | NInf =>
      if bool_decide (a = 0%Qc) then NaN
      else if bool_decide (0 < a)%Qc then NInf else PInf
  | NaN => NaN
  end.

Definition fadd (x y : Float) : Float :=
  match x, y with
  | Fin p, Fin q => Fin (p + q)
  | NaN, _ | _, NaN => NaN
  | PInf, NInf | NInf, PInf => NaN
  | PInf, _ | _, PInf => PInf
  | NInf, _ | _, NInf => NInf
  end.

(** [x / a] for an alive count [a]: zero by zero is nan, anything else
    by zero is infinite. *)
Definition fdiv (x : Float) (a : Qc) : Float :=
  match x with
  | Fin q =>
      if bool_decide (a = 0%Qc) then
        if bool_decide (q = 0%Qc) then NaN
        else if bool_decide (0 < q)%Qc then PInf else NInf
      else Fin (q / a)
  | PInf => if bool_decide (a < 0)%Qc then NInf else PInf
  | NInf => if bool_decide (a < 0)%Qc then PInf else NInf
  | NaN => NaN
  end.

Definition fshape (t : FTensor) : list nat := length <$> t.

Definition torch_stack_fl (outs : list FTensor) : M (list FTensor) :=
  match outs with
  | [] => raise RuntimeError
  | t :: ts =>
      if forallb (λ t', bool_decide (fshape t' = fshape t)) ts then mret outs
      else raise RuntimeError
  end.

Definition fsum_dim0 (out : list FTensor) : FTensor :=
  match out with
  | [] => []
  | t :: ts => foldl (zip_with (zip_with fadd)) t ts
  end.

Definition fmul_masks (out : list FTensor) (masks : list (list Qc))
    : list FTensor :=
  zip_with (zip_with (λ s a, (λ x, fmul x a) <$> s)) out masks.

Definition fvdiv (v : list Float) (a : Qc) : list Float :=
  (λ x, fdiv x a) <$> v.

Definition join_fl (self : FractalBlock) (outs : list FTensor)
    (global_cols : list Z) : M FTensor :=
  let n_cols := length outs in
  out ← torch_stack_fl outs;
  if training self then
    o0 ← getitem outs 0;
    masks ← drop_mask self (length o0) global_cols n_cols;
    let n_alive := mask_sum_dim0 masks in
    let masked_out := fmul_masks out masks in
    let n_alive := clamp_dead n_alive in
    mret (zip_with fvdiv (fsum_dim0 masked_out) n_alive)
  else
    mret ((λ s, fvdiv s (Qc_of_nat n_cols)) <$> fsum_dim0 out).

(** *** forward *)

(** [cur_module(cur_in)]; an absent cell is [None], which is not callable. *)
Definition call_module (c i : nat) (cur_module : option ConvBlock)
    (cur_in : Tensor) : M Tensor :=
  match cur_module with
  | None => raise TypeError
  | Some cb => _ ← log (EvLeaf c i); mret (cb_forward cb cur_in)
  end.

(** First column of the range evaluated at depth [i].  The entries of
    [count] never exceed [n_columns] in a constructed block
    ([count_in_range]), so the subtraction is the one of Python. *)
Definition start_col (self : FractalBlock) (deepest : bool) (i : nat) : M nat :=
  cnt ← getitem (count self) i;
  let st := n_columns self - cnt in
  mret (if deepest then n_columns self - 1 else st).

(** Body of [for i in range(self.max_depth)]. *)
Definition forward_depth (self : FractalBlock) (global_cols : list Z)
    (deepest : bool) (outs : list Tensor) (i : nat) : M (list Tensor) :=
  st ← start_col self deepest i;
  cur_outs ←
    mapM (λ c,
            cur_in ← getitem outs c;
            col ← getitem (columns self) c;
            cur_module ← getitem col i;
            call_module c i cur_module cur_in)
         (seq st (n_columns self - st));
  joined ← join self cur_outs global_cols;
  mret (foldl (λ outs c, <[c := joined]> outs) outs
              (seq st (n_columns self - st))).

Definition forward (self : FractalBlock) (x : Tensor) (global_cols : list Z)
    (deepest : bool) : M Tensor :=
  out ← match doubler self with
        | Some d => _ ← log EvDoubler; mret (cb_forward d x)
        | None => mret x
        end;
  let outs := replicate (n_columns self) out in
  outs ← foldlM (forward_depth self global_cols deepest) outs
                (seq 0 (max_depth self));
  getitem outs 0.

(** ** FractalNet *)

(** A stage of the network: a fractal block, or an external layer
    (pooling, flatten, the final projection). *)
Inductive Layer :=
  | LBlock (fb : FractalBlock)
  | LOther (f : Tensor → Tensor).

(** The fields [forward] reads; [layers] is the list that [__init__]
    assembles (a block and a pooling layer per channel entry, then the
    classifier head), [gdrop_ratio] the value of the float. *)
Record FractalNet := mkFractalNet {
  consist_gdrop : bool;
  gdrop_ratio : Q;
  net_n_columns : nat;
  layers : list Layer
}.

(** [int(q)]: truncation towards zero. *)
Definition int_of_Q (q : Q) : Z := (Qnum q ÷ Z.pos (Qden q))%Z.

(** [GB = int(x.size(0) * self.gdrop_ratio)]: the batch size is
    converted to a float, the product is a float product, and [int] of
    an infinite float raises. *)
Definition global_batch (self : FractalNet) (x : Tensor) : M Z :=
  match
    B ← round_b64 (inject_Z (Z.of_nat (length x)));
    round_b64 (B * gdrop_ratio self)
  with
  | Some prod => mret (int_of_Q prod)
  | None => raise OverflowError
  end.

(** Body of [for layer in self.layers]; the state is [(out, global_cols)]. *)
Definition net_layer (self : FractalNet) (GB : Z) (deepest : bool)
    (st : Tensor * option (list Z)) (layer : Layer)
    : M (Tensor * option (list Z)) :=
  let '(out, global_cols) := st in
  match layer with
  | LBlock fb =>
      let sample :=
        g ← random_randint 0 (Z.of_nat (net_n_columns self)) GB;
        _ ← log (EvSample g); mret g in
      g ← match global_cols with
          | Some g => if negb (consist_gdrop self) then sample else mret g
          | None => sample
          end;
      _ ← log (EvBlock g);
      out ← forward fb out g deepest;
      mret (out, Some g)
  | LOther f => mret (f out, global_cols)
  end.

Definition net_forward (self : FractalNet) (x : Tensor) (deepest : bool)
    : M Tensor :=
  GB ← global_batch self x;
  '(out, _) ← foldlM (net_layer self GB deepest) (x, None) (layers self);
  mret out.

(** Whether some block of the network is in training mode; [false] after
    [model.eval()]. *)
Definition net_training (self : FractalNet) : bool :=
  existsb (λ l, match l with LBlock fb => training fb | LOther _ => false end)
          (layers self).

(** *** __init__

    The layers of the network by kind.  Pooling, convolution, flatten
    and linear layers are torch's: only their configuration is kept.
    The weights, and so the [init] scheme that fills them, are
    represented by the functions [theta] and [theta_d] that the leaves
    compute. *)
Inductive LayerKind :=
  | KBlock (fb : FractalBlock)
  | KMaxPool2d (kernel_size : nat)
  | KAdaptiveAvgPool2d (output_size : nat)
  | KConv2d (C_in C_out kernel_size padding : nat)
  | KFlatten
  | KLinear (in_features : Z) (out_features : nat).

(** What [__init__] raises: one of its two [assert]s fails, the
    constructor of a block raises, or [channels[-1]] is taken of an
    empty list (an [IndexError]). *)
Inductive init_exn := AssertionError | BlockError | LastChannelError.

(** The layer list, and the two numbers [__init__] prints. *)
Record NetInit := mkNetInit {
  ni_layers : list LayerKind;
  ni_size : Z;
  ni_total_layers : nat
}.

(** A loop whose body may raise. *)
Fixpoint foldlE {E A S} (body : S → A → E + S) (s : S) (l : list A) : E + S :=
  match l with
  | [] => inr s
  | x :: l =>
      match body s x with
      | inl e => inl e
      | inr s' => foldlE body s' l
      end
  end.

Section FractalNet_init.
(** [data_shape] is [(C_in, H, W, n_classes)]; [n_cols] is [n_columns],
    [p_drop] is [p_local_drop], [ratio] is [gdrop_ratio] and [consist]
    is [consist_gdrop]. *)
Context (C_in : nat) (H W : Z) (n_classes : nat).
Context (n_cols : nat) (channels : list nat) (p_drop : Q)
        (dropout_probs : list (option Q)) (ratio : Q) (gap : Z)
        (pad_type : PadType) (doubling consist : bool).
(** The functions computed by the leaves and the doubler of block [b]. *)
Context (theta : nat → nat → nat → Tensor → Tensor)
        (theta_d : nat → Tensor → Tensor).

(** Body of [for b, (C, p_dropout) in enumerate(zip(...))]; the state is
    [(layers, C_out, size, total_layers)]. *)
Definition init_stage (st : list LayerKind * nat * Z * nat)
    (it : nat * (nat * option Q))
    : init_exn + (list LayerKind * nat * Z * nat) :=
  let '(layers, C_out, size, total_layers) := st in
  let '(b, (C, p_dropout)) := it in
  let cur_C_in := C_out in
  let C_out := C in
  match FractalBlock_init n_cols cur_C_in C_out p_drop p_dropout pad_type
                          doubling (theta b) (theta_d b) with
  | None => inl BlockError
  | Some fb =>
      let layers := layers ++ [KBlock fb] in
      let layers :=
        if (gap =? 0)%Z || (Z.of_nat b <? Z.of_nat (length channels) - 1)%Z
        then layers ++ [KMaxPool2d 2]
        else if (gap =? 1)%Z then layers ++ [KAdaptiveAvgPool2d 1]
        else layers in
      inr (layers, C_out, (size / 2)%Z, total_layers + max_depth fb)
  end.

Definition FractalNet_init : init_exn + NetInit :=
  if negb (length channels =? length dropout_probs) then inl AssertionError
  else if negb (H =? W)%Z then inl AssertionError
  else
    let zs := zip channels dropout_probs in
    match foldlE init_stage ([], C_in, H, 0) (zip (seq 0 (length zs)) zs) with
    | inl e => inl e
    | inr (layers, _, size, total_layers) =>
        match channels !! (length channels - 1) with
        | None => inl LastChannelError
        | Some C_last =>
            let layers :=
              if (gap =? 2)%Z then
                layers ++ [KConv2d C_last 10 1 0; KAdaptiveAvgPool2d 1; KFlatten]
              else
                layers ++ [KFlatten;
                           KLinear (Z.of_nat C_last * size * size) n_classes] in
            inr (mkNetInit layers size total_layers)
        end
    end.

(** The object [forward] works on, [ext] giving the function of each
    torch layer. *)
Definition net_of (ext : LayerKind → Tensor → Tensor) (ni : NetInit)
    : FractalNet :=
  mkFractalNet consist ratio n_cols
    ((λ k, match k with KBlock fb => LBlock fb | _ => LOther (ext k) end)
       <$> ni_layers ni).

(** The pooling layer that follows block [b], if any. *)
Definition pool_after (b : nat) : list LayerKind :=
  if (gap =? 0)%Z || (Z.of_nat b <? Z.of_nat (length channels) - 1)%Z
  then [KMaxPool2d 2]
  else if (gap =? 1)%Z then [KAdaptiveAvgPool2d 1]
  else [].

(** The classifier head. *)
Definition head (C_last : nat) (size : Z) : list LayerKind :=
  if (gap =? 2)%Z then [KConv2d C_last 10 1 0; KAdaptiveAvgPool2d 1; KFlatten]
  else [KFlatten; KLinear (Z.of_nat C_last * size * size) n_classes].

(** The layers the loop appends from stage [b] on, [C_prev] being the
    channel count that enters the stage. *)
Fixpoint stages_from (b C_prev : nat) (zs : list (nat * option Q))
    : list LayerKind :=
  match zs with
  | [] => []
  | (C, p) :: zs =>
      match FractalBlock_init n_cols C_prev C p_drop p pad_type doubling
                              (theta b) (theta_d b) with
      | Some fb => KBlock fb :: pool_after b
      | None => []
      end ++ stages_from (S b) C zs
  end.
End FractalNet_init.

(** The blocks among a list of layers, in order. *)
Definition blocks_of (ls : list LayerKind) : list FractalBlock :=
  omap (λ l, match l with KBlock fb => Some fb | _ => None end) ls.

(** ** Reading the trace *)

(** [m] only adds events satisfying [Q] to the trace. *)
Definition emits {A} (Q : Event → Prop) (m : M A) : Prop :=
  ∀ w a w', m w = Ok a w' → ∃ evs, trace w' = trace w ++ evs ∧ Forall Q evs.

(** Events logged inside a block, as opposed to those of the network. *)
Definition is_net_event (ev : Event) : bool :=
  match ev with
  | EvSample _ | EvBlock _ => true
  | EvDoubler | EvLeaf _ _ => false
  end.

Definition net_events (evs : list Event) : list Event :=
  filter (λ ev, is_net_event ev) evs.

Definition inner_event (ev : Event) : Prop := is_net_event ev = false.

Definition is_block (l : Layer) : bool :=
  match l with LBlock _ => true | LOther _ => false end.

Definition n_blocks (ls : list Layer) : nat := length (filter (λ l, is_block l) ls).

(** The leaf calls of depth level [i], in the order of the loop over the
    evaluated columns. *)
Definition depth_leaves (self : FractalBlock) (deepest : bool) (i : nat)
    : list Event :=
  match count self !! i with
  | Some cnt =>
      let st := if deepest then n_columns self - 1 else n_columns self - cnt in
      (λ c, EvLeaf c i) <$> seq st (n_columns self - st)
  | None => []
  end.

(** The events of one pass through a block. *)
Definition pass_events (self : FractalBlock) (deepest : bool) : list Event :=
  match doubler self with Some _ => [EvDoubler] | None => [] end
  ++ (seq 0 (max_depth self) ≫= depth_leaves self deepest).

(** ** The sampling policy, as the specification words it

    The three definitions below follow the wording of the specification
    (they are not taken from the code) and are compared with
    [net_forward]. *)





(** What a stage does to the running output when a block hands back
    the tensor that entered its depth level 0: a block applies at most
    its doubler, any other layer is applied as usual. *)
Definition entry_stage (t : Tensor) (l : Layer) : Tensor :=
  match l with
  | LBlock fb =>
      match doubler fb with Some d => cb_forward d t | None => t end
  | LOther f => f t
  end.

(** A vector of [GB] global choices, each a column index of a block
    with [n] columns. *)
Definition valid_choice (n : nat) (GB : Z) (g : list Z) : Prop :=
  Z.of_nat (length g) = GB ∧ Forall (λ c, 0 ≤ c < Z.of_nat n)%Z g.

(** ** Comparing two runs *)

(** Two outcomes agree up to [R]: both return, with values related by
    [R], or both raise the same exception.  The worlds are not compared. *)
Definition res_rel {A} (R : A → A → Prop) (r1 r2 : Result A) : Prop :=
  match r1, r2 with
  | Ok a _, Ok b _ => R a b
  | Raise e1, Raise e2 => e1 = e2
  | _, _ => False
  end.

(** [m1] and [m2] agree up to [R] whatever worlds they start from. *)
Definition sim {A} (R : A → A → Prop) (m1 m2 : M A) : Prop :=
  ∀ w1 w2, res_rel R (m1 w1) (m2 w2).

(** The loop state of [FractalNet.forward] in two runs: the same running
    output, and global choices that are both unset or both set. *)
Definition same_out (s1 s2 : Tensor * option (list Z)) : Prop :=
  s1.1 = s2.1 ∧ (s1.2 = None ↔ s2.2 = None).

(** ** Small concrete objects used in examples *)

(** A leaf adding [1] to every scalar. *)
Definition add_one (t : Tensor) : Tensor := fmap (M := list) (λ x, x + 1)%Qc <$> t.

(** A random source whose [k]-th raw word is [k]. *)
Definition w0 : World := mkWorld N.of_nat [].

Definition block_of (n : nat) (doubling : bool) : option FractalBlock :=
  FractalBlock_init n 1 1 (1 # 2) None zero doubling (λ _ _, add_one) add_one.

(** The two-column block [block_of 2 false], written out, in a given mode. *)
Definition leaf1 : ConvBlock := mkConvBlock 1 1 3 1 None zero add_one.

Definition block2 (mode : bool) : FractalBlock :=
  mkFractalBlock 2 [[None; Some leaf1]; [Some leaf1; Some leaf1]] 2 (1 # 2)
                 None [1; 2] mode.

(** A network of two such blocks, each followed by an external layer. *)
Definition net2 (consist mode : bool) : FractalNet :=
  mkFractalNet consist (1 # 2) 2
    [LBlock (block2 mode); LOther id; LBlock (block2 mode); LOther id].

(** Another random source. *)
Definition w0' : World := mkWorld (λ k, N.of_nat (k / 3)) [].

(** ** Reading a block's table *)

(** The entry of column [c] at depth [i]: [None] outside the table,
    [Some None] for an absent module. *)
Definition cell (self : FractalBlock) (c i : nat) : option (option ConvBlock) :=
  col ← columns self !! c; col !! i.

Definition present (self : FractalBlock) (c i : nat) : bool :=
  match cell self c i with Some (Some _) => true | _ => false end.

(** The schedule written in the data model: column [c] of [n] takes part
    at depth [i]. *)
Definition scheduled (n c i : nat) : bool := (i + 1) `mod` 2 ^ (n - 1 - c) =? 0.

(** ** Reading a mask *)

Definition entry (m : list (list Qc)) (c k : nat) : Qc :=
  default 0%Qc (row ← m !! c; row !! k).

(** The weights of sample [k], one per path. *)
Definition column (m : list (list Qc)) (k : nat) : list Qc :=
  (λ row, default 0%Qc (row !! k)) <$> m.

Definition Qsum (l : list Qc) : Qc := foldl Qcplus 0%Qc l.

Definition is_shape {A} (n b : nat) (m : list (list A)) : Prop :=
  length m = n ∧ Forall (λ row, length row = b) m.

Definition bit (x : Qc) : Prop := x = 0%Qc ∨ x = 1%Qc.
Definition binary (m : list (list Qc)) : Prop := Forall (Forall bit) m.

(** The array after [a[r, k] = v], for indices inside the array. *)
Definition set2 (v : Qc) (a : list (list Qc)) (p : Z * nat) : list (list Qc) :=
  alter (<[p.2 := v]>) (Z.to_nat p.1) a.

(** The local samples whose draw left no path alive. *)
Definition dead_samples (width : nat) (ldrop_mask : list (list Qc)) : list nat :=
  np_where (λ a, bool_decide (a = 0%Qc)) (sum_axis0 width ldrop_mask).

(** ** What a join is meant to compute

    The two definitions below follow the wording of the specification
    (they are not taken from the code) and are compared with [join]. *)

(** The alive-path count of sample [b], a zero count being replaced by 1. *)
Definition alive_count_clamped (masks : list (list Qc)) (b : nat) : Qc :=
  let a := Qsum (column masks b) in
  if bool_decide (a = 0%Qc) then 1%Qc else a.

(** Inference: the unweighted mean of the paths, scalar by scalar. *)
Definition mean_of_paths (outs : list Tensor) : Tensor :=
  match outs with
  | [] => []
  | t0 :: _ =>
      imap (λ b s,
              imap (λ k _, Qsum ((λ o, entry o b k) <$> outs)
                             / Qc_of_nat (length outs))%Qc s) t0
  end.

(** Training: every path weighted by its mask entry for the sample, the
    sum divided by the clamped alive-path count of the sample. *)
Definition masked_mean_of_paths (masks : list (list Qc)) (outs : list Tensor)
    : Tensor :=
  match outs with
  | [] => []
  | t0 :: _ =>
      imap (λ b s,
              imap (λ k _,
                      Qsum (zip_with Qcmult ((λ o, entry o b k) <$> outs)
                                     (column masks b))
                        / alive_count_clamped masks b)%Qc s) t0
  end.

(** * Properties *)

(** ** Construction of a block *)

Section init_facts.
Context (n_cols C_in C_out : nat) (p_drop : Q) (p_dropout : option Q)
        (pad_type : PadType) (doubling : bool).
Context (theta : nat → nat → Tensor → Tensor) (theta_d : Tensor → Tensor).

Abbreviation cell_step := (init_cell C_in C_out p_dropout pad_type doubling theta).
Abbreviation column_step := (init_column C_in C_out p_dropout pad_type doubling theta).
Abbreviation cell_of := (new_cell C_in C_out p_dropout pad_type doubling theta).

Lemma init_cell_step c dist col cnt i v :
  dist ≠ 0 → cnt !! i = Some v →
  cell_step c dist (col, cnt) i
    = Some (col ++ [cell_of c dist i],
            if (i + 1) `mod` dist =? 0 then alter S i cnt else cnt).
Proof.
  intros Hd Hv. unfold init_cell, new_cell.
  destruct (Nat.eqb_spec dist 0) as [|_]; [done|].
  destruct ((i + 1) `mod` dist =? 0); [|done].
  by rewrite Hv.
Qed.

Lemma init_cell_loop c dist len : ∀ a col cnt,
  dist ≠ 0 → a + len ≤ length cnt →
  ∃ cnt',
    foldlO (cell_step c dist) (col, cnt) (seq a len)
      = Some (col ++ (cell_of c dist <$> seq a len), cnt')
    ∧ length cnt' = length cnt
    ∧ ∀ j, cnt' !! j =
        (λ v, v + (if bool_decide (a ≤ j < a + len) && ((j + 1) `mod` dist =? 0)
                   then 1 else 0)) <$> cnt !! j.
Proof.
  induction len as [|len IH]; intros a col cnt Hd Hlen.
  - exists cnt. simpl. rewrite app_nil_r. split_and!; [done..|].
    intros j. rewrite bool_decide_eq_false_2 by lia. simpl.
    destruct (cnt !! j); simpl; f_equal; lia.
  - destruct (lookup_lt_is_Some_2 cnt a ltac:(lia)) as [v Hv].
    cbn [seq foldlO]. rewrite (init_cell_step _ _ _ _ _ v Hd Hv). cbn [mbind option_bind].
    set (cnt1 := if (a + 1) `mod` dist =? 0 then alter S a cnt else cnt).
    assert (Hl1 : length cnt1 = length cnt).
    { unfold cnt1. destruct (_ =? 0); [apply length_alter|done]. }
    destruct (IH (S a) (col ++ [cell_of c dist a]) cnt1 Hd ltac:(lia))
      as (cnt' & Hrun & Hl & Hcnt).
    exists cnt'. rewrite Hrun, <-app_assoc. split_and!; [done|congruence|].
    intros j. rewrite Hcnt. unfold cnt1.
    destruct (decide (j = a)) as [->|Hne].
    + rewrite (bool_decide_eq_false_2 (S a ≤ a < _)) by lia.
      rewrite (bool_decide_eq_true_2 (a ≤ a < _)) by lia. simpl.
      destruct (_ =? 0).
      * rewrite list_lookup_alter_eq, Hv. simpl. f_equal. lia.
      * rewrite Hv. simpl. f_equal; lia.
    + assert (Hsame : ∀ l : list nat, alter S a l !! j = l !! j).
      { intros l. by apply list_lookup_alter_ne. }
      replace ((if (a + 1) `mod` dist =? 0 then alter S a cnt else cnt) !! j)
        with (cnt !! j) by (destruct (_ =? 0); by rewrite ?Hsame).
      destruct (cnt !! j); simpl; [|done]. f_equal.
      destruct (decide (S a ≤ j < S a + len)).
      * rewrite !bool_decide_eq_true_2 by lia. done.
      * rewrite !bool_decide_eq_false_2 by lia. done.
Qed.

Lemma init_column_loop depth n len : ∀ a cols cnt dist,
  a + len = n → length cnt = depth → (0 < len → dist = 2 ^ (n - 1 - a)) →
  ∃ cnt' d',
    foldlO (column_step depth) (cols, cnt, dist) (seq a len)
      = Some (cols ++ ((λ c, cell_of c (2 ^ (n - 1 - c)) <$> seq 0 depth)
                         <$> seq a len), cnt', d')
    ∧ length cnt' = depth
    ∧ ∀ j, j < depth →
        cnt' !! j =
          (λ v, v + length (filter (λ c, scheduled n c j) (seq a len)))
            <$> cnt !! j.
Proof.
  induction len as [|len IH]; intros a cols cnt dist Han Hlen Hdist.
  - exists cnt, dist. simpl. rewrite app_nil_r. split_and!; [done..|].
    intros j _. destruct (cnt !! j); simpl; f_equal; lia.
  - rewrite (Hdist ltac:(lia)).
    assert (Hpow : 2 ^ (n - 1 - a) ≠ 0) by (apply Nat.pow_nonzero; lia).
    destruct (init_cell_loop a _ depth 0 [] cnt Hpow ltac:(simpl; lia))
      as (cnt1 & Hrun1 & Hl1 & Hcnt1).
    assert (Hstep : column_step depth (cols, cnt, 2 ^ (n - 1 - a)) a
              = Some (cols ++ [cell_of a (2 ^ (n - 1 - a)) <$> seq 0 depth],
                      cnt1, 2 ^ (n - 1 - a) / 2)).
    { unfold init_column. by rewrite Hrun1. }
    cbn [seq foldlO]. rewrite Hstep. cbn [mbind option_bind].
    destruct (IH (S a) (cols ++ [cell_of a (2 ^ (n - 1 - a)) <$> seq 0 depth])
                cnt1 (2 ^ (n - 1 - a) / 2) ltac:(lia) ltac:(lia))
      as (cnt' & d' & Hrun & Hl & Hcnt).
    { intros Hpos. replace (n - 1 - a) with (S (n - 1 - S a)) by lia.
      rewrite Nat.pow_succ_r', Nat.mul_comm, Nat.div_mul; lia. }
    exists cnt', d'. rewrite Hrun, <-app_assoc. split_and!; [done..|].
    intros j Hj. rewrite Hcnt, Hcnt1 by done.
    rewrite bool_decide_eq_true_2 by lia. rewrite filter_cons.
    destruct (cnt !! j) as [v|]; simpl; [|done]. f_equal.
    change ((j + 1) `mod` 2 ^ (n - 1 - a) =? 0) with (scheduled n a j).
    destruct (scheduled n a j); simpl; lia.
Qed.

(** Shape of a successfully constructed block. *)
Lemma FractalBlock_init_inv blk :
  FractalBlock_init n_cols C_in C_out p_drop p_dropout pad_type doubling
                    theta theta_d = Some blk →
  0 < n_cols
  ∧ n_columns blk = n_cols
  ∧ max_depth blk = 2 ^ (n_cols - 1)
  ∧ training blk = true
  ∧ p_local_drop blk = p_drop
  ∧ columns blk =
      (λ c, cell_of c (2 ^ (n_cols - 1 - c)) <$> seq 0 (2 ^ (n_cols - 1)))
        <$> seq 0 n_cols
  ∧ count blk =
      (λ i, length (filter (λ c, scheduled n_cols c i) (seq 0 n_cols)))
        <$> seq 0 (2 ^ (n_cols - 1)).
Proof.
  unfold FractalBlock_init. destruct (Nat.eqb_spec n_cols 0) as [|Hn]; [done|].
  set (depth := 2 ^ (n_cols - 1)).
  destruct (init_column_loop depth n_cols n_cols 0 [] (replicate depth 0) depth)
    as (cnt & d & Hrun & Hl & Hcnt); [lia|apply length_replicate|..].
  { intros _. unfold depth. f_equal. lia. }
  rewrite Hrun. cbn [mbind option_bind app]. intros [= <-]. simpl.
  split_and!; [lia|done..|].
  apply list_eq. intros j. rewrite list_lookup_fmap.
  destruct (decide (j < depth)) as [Hj|Hj].
  - rewrite Hcnt, lookup_replicate_2, lookup_seq_lt by done. done.
  - rewrite lookup_seq_ge by lia. simpl. apply lookup_ge_None. lia.
Qed.

Lemma FractalBlock_init_Some :
  0 < n_cols →
  is_Some (FractalBlock_init n_cols C_in C_out p_drop p_dropout pad_type
                             doubling theta theta_d).
Proof.
  intros Hn. unfold FractalBlock_init.
  destruct (Nat.eqb_spec n_cols 0) as [|_]; [lia|].
  set (depth := 2 ^ (n_cols - 1)).
  destruct (init_column_loop depth n_cols n_cols 0 [] (replicate depth 0) depth)
    as (cnt & d & Hrun & Hl & Hcnt); [lia|apply length_replicate|..].
  { intros _. unfold depth. f_equal. lia. }
  rewrite Hrun. by eexists.
Qed.
End init_facts.

(** ** The schedule *)

Lemma scheduled_spec n c i :
  scheduled n c i ↔ (i + 1) `mod` 2 ^ (n - 1 - c) = 0.
Proof. unfold scheduled. by rewrite Is_true_true, Nat.eqb_eq. Qed.

(** Deeper columns take part whenever a shallower one does. *)
Lemma scheduled_mono n c c' i :
  c ≤ c' → c' < n → scheduled n c i → scheduled n c' i.
Proof.
  rewrite !scheduled_spec, !Nat.Lcm0.mod_divide. intros Hc Hn Hdiv.
  etrans; [|exact Hdiv].
  exists (2 ^ (c' - c)). rewrite <-Nat.pow_add_r. f_equal. lia.
Qed.

Lemma scheduled_last n i : 0 < n → scheduled n (n - 1) i.
Proof.
  intros Hn. apply scheduled_spec.
  replace (n - 1 - (n - 1)) with 0 by lia. apply Nat.mod_1_r.
Qed.

Lemma filter_all {A} (P : A → Prop) `{!∀ x, Decision (P x)} (l : list A) :
  Forall P l → filter P l = l.
Proof.
  induction 1 as [|x l Hx _ IH]; [done|].
  by rewrite filter_cons_True, IH.
Qed.

(** An upward-closed predicate on an interval holds exactly on a suffix,
    whose width is the number of points where it holds. *)
Lemma filter_upward_closed (P : nat → bool) len : ∀ a,
  (∀ c c', c ≤ c' → c' < a + len → P c → P c') →
  ∀ c, a ≤ c < a + len →
    (P c ↔ a + len - length (filter (λ x, P x) (seq a len)) ≤ c).
Proof.
  induction len as [|len IH]; intros a Hup c Hc; [lia|].
  cbn [seq]. rewrite filter_cons.
  pose proof (length_filter (λ x, P x) (seq (S a) len)) as Hle.
  rewrite length_seq in Hle.
  destruct (P a) eqn:Ha; simpl.
  - assert (Hall : filter (λ x, P x) (seq (S a) len) = seq (S a) len).
    { apply filter_all. apply Forall_forall. intros x Hx. apply in_seq in Hx.
      apply (Hup a); [lia|lia|]. by rewrite Ha. }
    rewrite Hall, length_seq. split; [lia|]. intros _.
    apply (Hup a); [lia|lia|]. by rewrite Ha.
  - destruct (decide (c = a)) as [->|Hne].
    + rewrite Ha. split; [done|lia].
    + rewrite (IH (S a)); [lia| |lia].
      intros x y Hxy Hy. apply Hup; lia.
Qed.

Section schedule.
Context (n C_in C_out : nat) (p_drop : Q) (p_dropout : option Q)
        (pad_type : PadType) (doubling : bool).
Context (theta : nat → nat → Tensor → Tensor) (theta_d : Tensor → Tensor).
Context (blk : FractalBlock).
Hypothesis Hinit :
  FractalBlock_init n C_in C_out p_drop p_dropout pad_type doubling
                    theta theta_d = Some blk.

Lemma cell_init c i :
  c < n → i < 2 ^ (n - 1) →
  cell blk c i =
    Some (new_cell C_in C_out p_dropout pad_type doubling theta
                   c (2 ^ (n - 1 - c)) i).
Proof.
  intros Hc Hi.
  destruct (FractalBlock_init_inv _ _ _ _ _ _ _ _ _ _ Hinit)
    as (_ & _ & _ & _ & _ & Hcols & _).
  unfold cell. rewrite Hcols, list_lookup_fmap, lookup_seq_lt by done. simpl.
  by rewrite list_lookup_fmap, lookup_seq_lt.
Qed.

Lemma present_init c i :
  c < n → i < 2 ^ (n - 1) → present blk c i = scheduled n c i.
Proof.
  intros Hc Hi. unfold present. rewrite cell_init by done.
  unfold new_cell, scheduled. by destruct (_ =? 0).
Qed.

Lemma count_init i :
  i < 2 ^ (n - 1) →
  count blk !! i
    = Some (length (filter (λ c, scheduled n c i) (seq 0 n))).
Proof.
  intros Hi.
  destruct (FractalBlock_init_inv _ _ _ _ _ _ _ _ _ _ Hinit)
    as (_ & _ & _ & _ & _ & _ & Hcnt).
  by rewrite Hcnt, list_lookup_fmap, lookup_seq_lt.
Qed.

Lemma count_bounds i k :
  count blk !! i = Some k → 1 ≤ k ≤ n.
Proof.
  intros Hk.
  destruct (FractalBlock_init_inv _ _ _ _ _ _ _ _ _ _ Hinit)
    as (Hn & _ & _ & _ & _ & _ & Hcnt).
  assert (Hi : i < 2 ^ (n - 1)).
  { apply lookup_lt_Some in Hk. by rewrite Hcnt, length_fmap, length_seq in Hk. }
  rewrite count_init in Hk by done. injection Hk as <-.
  pose proof (length_filter (λ c, scheduled n c i) (seq 0 n)) as Hle.
  rewrite length_seq in Hle. split; [|done].
  pose proof (filter_upward_closed (λ c, scheduled n c i) n 0) as Hsuf.
  specialize (Hsuf ltac:(intros ????; by apply scheduled_mono) (n - 1) ltac:(lia)).
  pose proof (proj1 Hsuf (scheduled_last n i Hn)). lia.
Qed.

(** The invariant that lets [forward] subtract in the natural numbers. *)
Lemma count_in_range : Forall (λ cnt, cnt ≤ n) (count blk).
Proof.
  apply list.Forall_forall. intros k Hk.
  apply list_elem_of_lookup in Hk as [i Hi].
  apply count_bounds in Hi. lia.
Qed.
End schedule.

(** C7.  In every constructed block, column [c] holds a module at depth
    [i] exactly when [(i+1) mod 2^(n_columns-1-c) = 0] and an absent entry
    otherwise; [count[i]] is the number of columns holding a module at
    depth [i], and those columns are exactly the rightmost ones,
    [n_columns - count[i], ..., n_columns - 1]. *)
Theorem active_columns_are_suffix
    n C_in C_out p_drop p_dropout pad_type doubling theta theta_d blk :
  FractalBlock_init n C_in C_out p_drop p_dropout pad_type doubling
                    theta theta_d = Some blk →
  ∀ i, i < max_depth blk →
    (∀ c, c < n_columns blk →
       ((i + 1) `mod` 2 ^ (n_columns blk - 1 - c) = 0 →
          ∃ m, cell blk c i = Some (Some m))
       ∧ ((i + 1) `mod` 2 ^ (n_columns blk - 1 - c) ≠ 0 →
          cell blk c i = Some None))
    ∧ ∃ k, count blk !! i = Some k
        ∧ k = length (filter (λ c, present blk c i) (seq 0 (n_columns blk)))
        ∧ k ≤ n_columns blk
        ∧ ∀ c, c < n_columns blk → (present blk c i ↔ n_columns blk - k ≤ c).
Proof.
  intros Hinit i Hi.
  destruct (FractalBlock_init_inv _ _ _ _ _ _ _ _ _ _ Hinit)
    as (Hn & -> & Hd & _). rewrite Hd in Hi.
  split.
  - intros c Hc. rewrite (cell_init _ _ _ _ _ _ _ _ _ _ Hinit) by done.
    unfold new_cell. split; intros Hm.
    + rewrite (proj2 (Nat.eqb_eq _ _) Hm). by eexists.
    + by rewrite (proj2 (Nat.eqb_neq _ _) Hm).
  - eexists. split; [by apply (count_init _ _ _ _ _ _ _ _ _ _ Hinit)|].
    assert (Hsame : filter (λ c, present blk c i) (seq 0 n)
                    = filter (λ c, scheduled n c i) (seq 0 n)).
    { assert (Hall : Forall (λ c, c < n) (seq 0 n)).
      { apply Forall_forall. intros c Hc%in_seq. lia. }
      induction Hall as [|c l Hc _ IH]; [done|].
      rewrite !filter_cons, IH.
      by rewrite (present_init _ _ _ _ _ _ _ _ _ _ Hinit). }
    split; [by rewrite Hsame|].
    pose proof (length_filter (λ c, scheduled n c i) (seq 0 n)) as Hle.
    rewrite length_seq in Hle. split; [done|].
    intros c Hc. rewrite (present_init _ _ _ _ _ _ _ _ _ _ Hinit) by done.
    apply (filter_upward_closed (λ c, scheduled n c i) n 0); [|lia].
    intros ????. by apply scheduled_mono.
Qed.

Lemma active_columns_are_suffix_witness :
  ∃ blk, block_of 3 false = Some blk
    ∧ cell blk 0 1 = Some None
    ∧ count blk !! 1 = Some 2
    ∧ (present blk 1 1 ↔ 3 - 2 ≤ 1).
Proof.
  eexists. split; [vm_compute; reflexivity|].
  match goal with |- cell ?b _ _ = _ ∧ _ =>
    destruct (active_columns_are_suffix
                3 1 1 (1 # 2) None zero false (λ _ _, add_one) add_one b
                ltac:(vm_compute; reflexivity) 1 ltac:(simpl; lia))
      as [Hcell (k & Hk & _ & _ & Hsuf)]
  end.
  split; [apply (Hcell 0 ltac:(simpl; lia)); simpl; lia|].
  split; [reflexivity|].
  injection Hk as <-. apply (Hsuf 1). simpl; lia.
Defined.

(** C3 (as amended).  For [n_columns = 3] the block has [max_depth = 4]
    and its per-depth table of active columns is [count = [1, 2, 1, 3]];
    column 2 holds a module at all four depths, column 1 at depths 1 and
    3, column 0 at depth 3 only, so that the numbers of modules per
    column are 1, 2 and 4 for columns 0, 1 and 2. *)
Theorem count_table_three_columns
    C_in C_out p_drop p_dropout pad_type doubling theta theta_d :
  ∃ blk,
    FractalBlock_init 3 C_in C_out p_drop p_dropout pad_type doubling
                      theta theta_d = Some blk
    ∧ max_depth blk = 4
    ∧ count blk = [1; 2; 1; 3]
    ∧ (λ c, present blk c <$> seq 0 4) <$> seq 0 3
        = [ [false; false; false; true];
            [false; true; false; true];
            [true; true; true; true] ]
    ∧ (λ c, length (filter (λ i, present blk c i) (seq 0 4))) <$> seq 0 3
        = [1; 2; 4].
Proof.
  eexists. split; [vm_compute; reflexivity|].
  split_and!; reflexivity.
Qed.

(** C3 as stated fails: the table of a three-column block is not [[4, 2, 1]]. *)
Lemma count_table_three_columns_counterexample :
  count <$> block_of 3 false = Some [1; 2; 1; 3]
  ∧ count <$> block_of 3 false ≠ Some [4; 2; 1].
Proof. split; [reflexivity|]. vm_compute. discriminate. Qed.

(** ** Running computations *)

Lemma bind_unfold {A B} (m : M A) (f : A → M B) w :
  (m ≫= f) w = match m w with Ok a w' => f a w' | Raise e => Raise e end.
Proof. reflexivity. Qed.

Lemma bind_Ok {A B} (m : M A) (f : A → M B) w a w' :
  m w = Ok a w' → (m ≫= f) w = f a w'.
Proof. intros H. by rewrite bind_unfold, H. Qed.

Lemma bind_Ok_inv {A B} (m : M A) (f : A → M B) w b w2 :
  (m ≫= f) w = Ok b w2 → ∃ a w1, m w = Ok a w1 ∧ f a w1 = Ok b w2.
Proof. rewrite bind_unfold. destruct (m w) as [a w1|e]; [eauto|done]. Qed.

Lemma ret_Ok {A} (a : A) w : mret (M := M) a w = Ok a w.
Proof. reflexivity. Qed.

Lemma getitem_Ok {A} (l : list A) i x w :
  l !! i = Some x → getitem l i w = Ok x w.
Proof. intros H. unfold getitem. by rewrite H. Qed.

Lemma getitem_Ok_inv {A} (l : list A) i x w w' :
  getitem l i w = Ok x w' → l !! i = Some x ∧ w' = w.
Proof.
  unfold getitem. destruct (l !! i); [|done]. by intros [= -> ->].
Qed.

(** A loop whose body never raises and leaves the world alone is a fold. *)
Lemma foldlM_pure {A S} (body : S → A → M S) (step : S → A → S)
    (Inv : S → Prop) (Good : A → Prop) l : ∀ s w,
  (∀ s x w, Inv s → Good x → body s x w = Ok (step s x) w ∧ Inv (step s x)) →
  Inv s → Forall Good l →
  foldlM body s l w = Ok (foldl step s l) w ∧ Inv (foldl step s l).
Proof.
  induction l as [|x l IH]; intros s w Hbody Hs Hl; [done|].
  inversion_clear Hl as [|?? Hx Hl'].
  destruct (Hbody s x w Hs Hx) as [Hrun Hs'].
  cbn [foldlM foldl]. rewrite (bind_Ok _ _ _ _ _ Hrun). by apply IH.
Qed.

Lemma mapM_pure {A B} (f : A → M B) (g : A → B) (Good : A → Prop) l : ∀ w,
  (∀ x w, Good x → f x w = Ok (g x) w) → Forall Good l →
  mapM f l w = Ok (g <$> l) w.
Proof.
  induction l as [|x l IH]; intros w Hf Hl; [done|].
  inversion_clear Hl as [|?? Hx Hl'].
  cbn [mapM fmap list_fmap]. rewrite (bind_Ok _ _ _ _ _ (Hf x w Hx)).
  by rewrite (bind_Ok _ _ _ _ _ (IH w Hf Hl')).
Qed.

(** ** Arrays *)

Lemma insert_as_alter {A} (f : A → A) (l : list A) i x :
  l !! i = Some x → <[i := f x]> l = alter f i l.
Proof.
  intros Hx. apply list_eq. intros j. destruct (decide (j = i)) as [->|Hne].
  - rewrite list_lookup_alter_eq, Hx, list_lookup_insert_eq; [done|].
    by eapply lookup_lt_Some.
  - by rewrite list_lookup_alter_ne, list_lookup_insert_ne.
Qed.

Lemma is_shape_lookup {A} n b (m : list (list A)) c :
  is_shape n b m → c < n → ∃ row, m !! c = Some row ∧ length row = b.
Proof.
  intros [Hn Hrows] Hc.
  destruct (lookup_lt_is_Some_2 m c ltac:(lia)) as [row Hrow].
  exists row. split; [done|].
  by eapply (proj1 (list.Forall_lookup _ _)) in Hrows.
Qed.

Lemma set2_shape n b v a p : is_shape n b a → is_shape n b (set2 v a p).
Proof.
  intros [Hn Hrows]. split; [by unfold set2; rewrite length_alter|].
  unfold set2. apply Forall_alter; [done|].
  intros row _ Hlen. by rewrite length_insert.
Qed.

Lemma set2_binary v a p : bit v → binary a → binary (set2 v a p).
Proof.
  intros Hv Ha. unfold set2. apply Forall_alter; [done|].
  intros row _ Hrow. by apply Forall_insert.
Qed.

Lemma setitem2_Ok n b a r k v w :
  is_shape n b a → (0 ≤ r < Z.of_nat n)%Z → k < b →
  setitem2 a r k v w = Ok (set2 v a (r, k)) w.
Proof.
  intros Ha Hr Hk. unfold setitem2. destruct Ha as [Hn Hrows].
  rewrite Hn.
  replace ((r <? - Z.of_nat n) || (Z.of_nat n <=? r))%Z with false; last first.
  { symmetry. apply orb_false_intro; [apply Z.ltb_ge|apply Z.leb_gt]; lia. }
  replace (r <? 0)%Z with false by (symmetry; apply Z.ltb_ge; lia).
  destruct (is_shape_lookup n b a (Z.to_nat r) (conj Hn Hrows) ltac:(lia))
    as (row & Hrow & Hlen).
  rewrite (bind_Ok _ _ _ _ _ (getitem_Ok _ _ _ w Hrow)).
  rewrite bool_decide_eq_true_2 by lia.
  unfold set2. simpl. by rewrite (insert_as_alter _ _ _ _ Hrow).
Qed.

Lemma entry_set2 n b v a r k c j :
  is_shape n b a → (0 ≤ r)%Z → Z.to_nat r < n → k < b →
  entry (set2 v a (r, k)) c j
    = if bool_decide (c = Z.to_nat r ∧ j = k) then v else entry a c j.
Proof.
  intros Ha Hr Hrn Hk. unfold entry, set2. simpl.
  destruct (is_shape_lookup n b a _ Ha Hrn) as (row & Hrow & Hlen).
  destruct (decide (c = Z.to_nat r)) as [->|Hc].
  - rewrite list_lookup_alter_eq, Hrow. simpl.
    destruct (decide (j = k)) as [->|Hj].
    + rewrite bool_decide_eq_true_2 by done.
      by rewrite list_lookup_insert_eq by lia.
    + rewrite bool_decide_eq_false_2 by (intros [_ ?]; done).
      by rewrite list_lookup_insert_ne.
  - rewrite bool_decide_eq_false_2 by (intros [? _]; done).
    by rewrite list_lookup_alter_ne.
Qed.

(** [a[rs, ks] = v] writes [v] at the listed positions and nowhere else. *)
Lemma setitems2_Ok n b v ps : ∀ a w,
  is_shape n b a →
  Forall (λ p : Z * nat, (0 ≤ p.1 < Z.of_nat n)%Z ∧ p.2 < b) ps →
  foldlM (λ a '(r, k), setitem2 a r k v) a ps w = Ok (foldl (set2 v) a ps) w
  ∧ is_shape n b (foldl (set2 v) a ps).
Proof.
  intros a w Ha Hps.
  apply (foldlM_pure _ (set2 v) (is_shape n b)
           (λ p : Z * nat, (0 ≤ p.1 < Z.of_nat n)%Z ∧ p.2 < b)); [|done..].
  intros a' [r k] w' Ha' [Hr Hk]. simpl in *.
  split; [by eapply setitem2_Ok|by apply set2_shape].
Qed.

Lemma entry_foldl_set2 n b v ps c j : ∀ a,
  is_shape n b a →
  Forall (λ p : Z * nat, (0 ≤ p.1 < Z.of_nat n)%Z ∧ p.2 < b) ps →
  entry (foldl (set2 v) a ps) c j
    = if bool_decide ((Z.of_nat c, j) ∈ ps) then v else entry a c j.
Proof.
  induction ps as [|[r k] ps IH]; intros a Ha Hps.
  - cbn [foldl]. rewrite bool_decide_eq_false_2; [done|]. apply not_elem_of_nil.
  - inversion_clear Hps as [|?? [Hr Hk] Hps']. cbn [foldl fst snd] in *.
    rewrite IH; [|by apply set2_shape|done].
    rewrite (entry_set2 n b) by (done || lia).
    destruct (decide ((Z.of_nat c, j) ∈ ps)) as [Hin|Hin].
    + rewrite !bool_decide_eq_true_2; [done| |done]. by right.
    + rewrite (bool_decide_eq_false_2 (_ ∈ ps)) by done.
      destruct (decide (c = Z.to_nat r ∧ j = k)) as [[-> ->]|Hne].
      * rewrite !bool_decide_eq_true_2; [done| |done].
        rewrite Z2Nat.id by lia. by left.
      * rewrite !bool_decide_eq_false_2; [done| |done].
        intros [[= Hc Hj]|?]%elem_of_cons; [|done].
        apply Hne. split; [lia|done].
Qed.

Lemma foldl_set2_binary v ps : ∀ a,
  bit v → binary a → binary (foldl (set2 v) a ps).
Proof.
  induction ps as [|p ps IH]; intros a Hv Ha; [done|].
  simpl. apply IH; [done|]. by apply set2_binary.
Qed.

Lemma elem_of_np_where {A} (p : A → bool) (v : list A) k :
  k ∈ np_where p v ↔ ∃ x, v !! k = Some x ∧ p x = true.
Proof.
  unfold np_where. rewrite list_elem_of_omap. split.
  - intros ([i x] & Hin & Hf).
    apply elem_of_lookup_zip_with in Hin as (j & a & y & [= <- <-] & Ha & Hy).
    apply lookup_seq in Ha as [-> _]. simpl in Hf.
    destruct (p x) eqn:Hp; [|done]. injection Hf as <-. eauto.
  - intros (x & Hx & Hp). exists (k, x). simpl. rewrite Hp. split; [|done].
    apply elem_of_lookup_zip_with. exists k, k, x. split_and!; [done| |done].
    apply lookup_seq. split; [done|]. by eapply lookup_lt_Some.
Qed.

(** Reading a vector at the positions selected by [np.where] never fails;
    paired with the positions, the values read are the selected entries. *)
Lemma mapM_getitem_np_where (p : Z → bool) (v : list Z) w :
  ∃ rows,
    mapM (getitem v) (np_where p v) w = Ok rows w
    ∧ length rows = length (np_where p v)
    ∧ ∀ r k, (r, k) ∈ zip rows (np_where p v) ↔ v !! k = Some r ∧ p r = true.
Proof.
  exists ((λ k, default 0%Z (v !! k)) <$> np_where p v). split_and!.
  - apply (mapM_pure _ _ (λ k, k ∈ np_where p v)).
    + intros k w' (x & Hx & _)%elem_of_np_where.
      rewrite (getitem_Ok _ _ _ _ Hx). by rewrite Hx.
    + by apply list.Forall_forall.
  - by rewrite length_fmap.
  - intros r k. split.
    + intros (i & a & y & [= <- <-] & Ha & Hy)%elem_of_lookup_zip_with.
      rewrite list_lookup_fmap, Hy in Ha. simpl in Ha. injection Ha as <-.
      assert (Hin : k ∈ np_where p v) by (apply list_elem_of_lookup; eauto).
      apply elem_of_np_where in Hin as (x & Hx & Hp). by rewrite Hx.
    + intros [Hr Hp].
      assert (Hin : k ∈ np_where p v) by (apply elem_of_np_where; eauto).
      apply list_elem_of_lookup in Hin as [i Hi].
      apply elem_of_lookup_zip_with. exists i, r, k. split_and!; [done| |done].
      by rewrite list_lookup_fmap, Hi; simpl; rewrite Hr.
Qed.

(** ** The random source *)

Lemma rows_of_shape {A} (P : A → Prop) n len : ∀ l : list A,
  length l = n * len → Forall P l →
  is_shape n len (rows_of n len l) ∧ Forall (Forall P) (rows_of n len l).
Proof.
  induction n as [|n IH]; intros l Hl HP; [by repeat constructor|].
  destruct (IH (drop len l)) as [[Hn Hrows] Hall].
  { rewrite length_drop. lia. }
  { by apply Forall_drop. }
  cbn [rows_of]. split; [split|].
  - simpl. by rewrite Hn.
  - constructor; [|done]. rewrite length_take. lia.
  - constructor; [|done]. by apply Forall_take.
Qed.

Lemma bernoulli_bit q u : bit (bernoulli q u).
Proof. unfold bernoulli, bit. destruct (Qlt_le_dec _ _); auto. Qed.

Lemma random_binomial1_Ok q n m w :
  (0 <= q)%Q → (q <= 1)%Q → (0 ≤ m)%Z →
  ∃ a w', random_binomial1 q n m w = Ok a w'
    ∧ trace w' = trace w
    ∧ is_shape n (Z.to_nat m) a ∧ binary a.
Proof.
  intros Hq0 Hq1 Hm. unfold random_binomial1.
  rewrite (proj2 (Qle_bool_iff 0 q) Hq0), (proj2 (Qle_bool_iff q 1) Hq1).
  simpl. replace (m <? 0)%Z with false by (symmetry; apply Z.ltb_ge; lia).
  rewrite bind_unfold. simpl. eexists _, _. split; [reflexivity|].
  split; [done|]. apply rows_of_shape.
  - by rewrite !length_fmap, length_seq.
  - apply Forall_fmap, list.Forall_forall. intros u _. apply bernoulli_bit.
Qed.

Lemma random_randint_Ok n k w :
  (0 < n)%Z → (0 ≤ k)%Z →
  ∃ rs w', random_randint 0 n k w = Ok rs w'
    ∧ trace w' = trace w
    ∧ length rs = Z.to_nat k
    ∧ Forall (λ r, 0 ≤ r < n)%Z rs.
Proof.
  intros Hn Hk. unfold random_randint.
  replace (n <=? 0)%Z with false by (symmetry; apply Z.leb_gt; lia).
  replace (k <? 0)%Z with false by (symmetry; apply Z.ltb_ge; lia).
  rewrite bind_unfold. simpl. eexists _, _. split; [reflexivity|].
  split; [done|]. split; [by rewrite !length_fmap, length_seq|].
  apply Forall_fmap, list.Forall_forall. intros u _. simpl.
  rewrite Z.sub_0_r. pose proof (Z.mod_pos_bound (Z.of_N u) n Hn). lia.
Qed.

(** ** Sums of weights *)

Lemma lookup_foldl_vadd (a : list (list Qc)) k : ∀ acc x,
  acc !! k = Some x → Forall (λ row, k < length row) a →
  foldl vadd acc a !! k = Some (foldl Qcplus x (column a k)).
Proof.
  induction a as [|row a IH]; intros acc x Hacc Ha; [done|].
  inversion_clear Ha as [|?? Hrow Ha'].
  destruct (lookup_lt_is_Some_2 row k Hrow) as [y Hy].
  cbn [foldl column fmap list_fmap]. rewrite Hy.
  apply (IH (vadd acc row) (x + y)%Qc); [|done].
  unfold vadd. by rewrite lookup_zip_with, Hacc, Hy.
Qed.

Lemma sum_axis0_lookup n b a k :
  is_shape n b a → k < b → sum_axis0 b a !! k = Some (Qsum (column a k)).
Proof.
  intros [_ Hrows] Hk. unfold sum_axis0, Qsum.
  apply lookup_foldl_vadd; [by apply lookup_replicate_2|].
  eapply Forall_impl; [|exact Hrows]. simpl. lia.
Qed.

Lemma mask_sum_dim0_lookup n b m k :
  is_shape n b m → 0 < n → k < b →
  mask_sum_dim0 m !! k = Some (Qsum (column m k)).
Proof.
  intros [Hn Hrows] Hpos Hk. destruct m as [|r rs]; [simpl in Hn; lia|].
  inversion_clear Hrows as [|?? Hr Hrs].
  destruct (lookup_lt_is_Some_2 r k ltac:(lia)) as [x Hx].
  unfold mask_sum_dim0, Qsum. cbn [column fmap list_fmap foldl].
  rewrite Hx. simpl. rewrite Qcplus_0_l.
  apply lookup_foldl_vadd; [done|].
  eapply Forall_impl; [|exact Hrs]. simpl. lia.
Qed.

Lemma foldl_Qcplus_ge l : ∀ acc,
  Forall bit l → (acc ≤ foldl Qcplus acc l)%Qc.
Proof.
  induction l as [|x l IH]; intros acc Hl; [done|].
  inversion_clear Hl as [|?? Hx Hl']. simpl.
  etrans; [|by apply IH].
  rewrite <-(Qcplus_0_r acc) at 1. apply Qcplus_le_mono_l.
  by destruct Hx as [-> | ->].
Qed.

Lemma foldl_Qcplus_elem l x : ∀ acc,
  Forall bit l → x ∈ l → (acc + x ≤ foldl Qcplus acc l)%Qc.
Proof.
  induction l as [|y l IH]; intros acc Hl Hin; [by apply elem_of_nil in Hin|].
  inversion_clear Hl as [|?? Hy Hl']. simpl.
  apply elem_of_cons in Hin as [->|Hin].
  - by apply foldl_Qcplus_ge.
  - etrans; [|by apply IH]. apply Qcplus_le_mono_r.
    rewrite <-(Qcplus_0_r acc) at 1. apply Qcplus_le_mono_l.
    by destruct Hy as [-> | ->].
Qed.


Lemma Qsum_all_zero l : Forall (λ x, x = 0%Qc) l → Qsum l = 0%Qc.
Proof.
  unfold Qsum. induction 1 as [|x l -> _ IH]; [done|].
  simpl. by rewrite Qcplus_0_r.
Qed.

Lemma Qsum_alive l : Forall bit l → 1%Qc ∈ l → (1 ≤ Qsum l)%Qc.
Proof.
  intros Hl Hin. pose proof (foldl_Qcplus_elem l 1%Qc 0%Qc Hl Hin) as Hle.
  by rewrite Qcplus_0_l in Hle.
Qed.

(** ** Masks as matrices *)

Lemma column_lookup m k c :
  c < length m → column m k !! c = Some (entry m c k).
Proof.
  intros Hc. unfold column, entry. rewrite list_lookup_fmap.
  destruct (lookup_lt_is_Some_2 m c Hc) as [row ->]. done.
Qed.

Lemma length_column m k : length (column m k) = length m.
Proof. unfold column. by rewrite length_fmap. Qed.

Lemma binary_column m k : binary m → Forall bit (column m k).
Proof.
  intros Hm. unfold column. apply Forall_fmap.
  eapply list.Forall_impl; [exact Hm|]. intros row Hrow. simpl.
  destruct (row !! k) as [x|] eqn:Hx; simpl; [|by left].
  by eapply (proj1 (list.Forall_lookup _ _)) in Hrow.
Qed.

Lemma binary_entry m c k : binary m → bit (entry m c k).
Proof.
  intros Hm. unfold entry.
  destruct (m !! c) as [row|] eqn:Hrow; simpl; [|by left].
  destruct (row !! k) as [x|] eqn:Hx; simpl; [|by left].
  eapply (proj1 (list.Forall_lookup _ _)) in Hm; [|done].
  by eapply (proj1 (list.Forall_lookup _ _)) in Hm.
Qed.

Lemma np_zeros_shape n b : is_shape n b (np_zeros n b).
Proof.
  split; [apply length_replicate|].
  apply Forall_replicate, length_replicate.
Qed.

Lemma np_zeros_binary n b : binary (np_zeros n b).
Proof. apply Forall_replicate, Forall_replicate. by left. Qed.

Lemma np_zeros_entry n b c k : entry (np_zeros n b) c k = 0%Qc.
Proof.
  unfold entry, np_zeros.
  destruct (replicate n _ !! c) as [row|] eqn:Hrow; simpl; [|done].
  apply lookup_replicate in Hrow as [-> _].
  destruct (replicate b _ !! k) as [x|] eqn:Hx; simpl; [|done].
  by apply lookup_replicate in Hx as [-> _].
Qed.

(** Concatenation along the sample axis. *)
Lemma hstack_shape {A} n b1 b2 (g l : list (list A)) :
  is_shape n b1 g → is_shape n b2 l → is_shape n (b1 + b2) (zip_with app g l).
Proof.
  intros [Hg Hgr] [Hl Hlr]. split.
  - rewrite length_zip_with. lia.
  - apply list.Forall_forall. intros row Hrow.
    apply elem_of_lookup_zip_with in Hrow as (i & x & y & -> & Hx & Hy).
    rewrite length_app.
    eapply (proj1 (list.Forall_lookup _ _)) in Hgr; [|exact Hx].
    eapply (proj1 (list.Forall_lookup _ _)) in Hlr; [|exact Hy].
    simpl in *. lia.
Qed.

Lemma hstack_binary g l : binary g → binary l → binary (zip_with app g l).
Proof.
  intros Hg Hl. apply list.Forall_forall. intros row Hrow.
  apply elem_of_lookup_zip_with in Hrow as (i & x & y & -> & Hx & Hy).
  apply Forall_app. split.
  - by eapply (proj1 (list.Forall_lookup _ _)) in Hg.
  - by eapply (proj1 (list.Forall_lookup _ _)) in Hl.
Qed.

Lemma hstack_entry n b1 b2 g l c k :
  is_shape n b1 g → is_shape n b2 l → c < n →
  entry (zip_with app g l) c k
    = if decide (k < b1) then entry g c k else entry l c (k - b1).
Proof.
  intros Hg Hl Hc.
  destruct (is_shape_lookup _ _ _ _ Hg Hc) as (x & Hx & Hxl).
  destruct (is_shape_lookup _ _ _ _ Hl Hc) as (y & Hy & Hyl).
  unfold entry. rewrite lookup_zip_with, Hx, Hy. simpl.
  destruct (decide (k < b1)).
  - by rewrite lookup_app_l by lia.
  - rewrite lookup_app_r by lia. by rewrite Hxl.
Qed.

Lemma length_foldl_vadd (a : list (list Qc)) : ∀ acc,
  length (foldl vadd acc a) ≤ length acc.
Proof.
  induction a as [|row a IH]; intros acc; [done|]. simpl.
  etrans; [apply IH|]. unfold vadd. rewrite length_zip_with. lia.
Qed.

(** ** Rounding to binary64 *)

Lemma round_half_even_between (y : Q) (A B : Z) :
  (inject_Z A <= y)%Q → (y <= inject_Z B)%Q →
  (A ≤ round_half_even y ≤ B)%Z.
Proof.
  intros HA HB.
  pose proof (Qfloor_le y) as Hfl.
  assert (HAf : (A ≤ Qfloor y)%Z).
  { rewrite <-(Qfloor_Z A). by apply Qfloor_resp_le. }
  assert (HfB : (Qfloor y ≤ B)%Z).
  { rewrite <-(Qfloor_Z B). by apply Qfloor_resp_le. }
  assert (Hup : (0 < y - inject_Z (Qfloor y))%Q → (Qfloor y + 1 ≤ B)%Z).
  { intros Hpos. destruct (Z.eq_dec (Qfloor y) B) as [Heq|]; [|lia].
    exfalso. rewrite Heq in Hpos. apply (proj2 (Qlt_minus_iff _ _)) in Hpos.
    by apply Qlt_not_le in Hpos. }
  unfold round_half_even.
  destruct (Qcompare_spec (y - inject_Z (Qfloor y)) (1 # 2)) as [Heq|Hlt|Hgt].
  - destruct (Z.even _); [lia|]. split; [lia|]. apply Hup.
    rewrite Heq. reflexivity.
  - lia.
  - split; [lia|]. apply Hup. eapply Qlt_trans; [|exact Hgt]. reflexivity.
Qed.

Lemma Qlog2_lt (q : Q) (N : Z) :
  (0 < Qnum q)%Z → (0 ≤ N)%Z → (q < inject_Z (2 ^ N))%Q → (Qlog2 q < N)%Z.
Proof.
  destruct q as [n d]. unfold Qlt, Qlog2. cbn [Qnum Qden inject_Z].
  intros Hn HN Hlt. rewrite Z.mul_1_r in Hlt.
  set (k := (Z.log2 n - Z.log2 (Z.pos d))%Z).
  pose proof (Z.log2_nonneg (Z.pos d)) as Hld.
  destruct (Z.log2_spec (Z.pos d) ltac:(lia)) as [_ Hd].
  assert (Hk : (k ≤ N)%Z).
  { assert (n < 2 ^ (N + Z.succ (Z.log2 (Z.pos d))))%Z as Hn2.
    { rewrite Z.pow_add_r by lia.
      eapply Z.lt_trans; [exact Hlt|].
      apply Z.mul_lt_mono_pos_l; [|done]. by apply Z.pow_pos_nonneg. }
    apply Z.log2_lt_pow2 in Hn2; [|done]. unfold k. lia. }
  destruct (Z.leb_spec 0 k) as [Hk0|Hk0].
  - destruct (Z.leb_spec (2 ^ k * Z.pos d) n) as [Hle|_]; [|lia].
    assert (2 ^ k < 2 ^ N)%Z as Hpow.
    { apply (Z.mul_lt_mono_pos_r (Z.pos d)); lia. }
    apply Z.pow_lt_mono_r_iff in Hpow; lia.
  - destruct (_ <=? _)%Z; lia.
Qed.

Lemma round_b64_between (q : Q) (lo hi : Z) :
  (0 ≤ lo)%Z → (hi < 2 ^ 53)%Z →
  (inject_Z lo <= q)%Q → (q <= inject_Z hi)%Q →
  ∃ r, round_b64 q = Some r ∧ (inject_Z lo <= r)%Q ∧ (r <= inject_Z hi)%Q.
Proof.
  intros Hlo Hhi Hq1 Hq2.
  assert (Hq0 : (0 <= q)%Q).
  { eapply Qle_trans; [|exact Hq1]. unfold Qle. simpl. lia. }
  unfold round_b64. rewrite (proj2 (Qle_bool_iff 0 q) Hq0).
  unfold round_b64_abs.
  destruct (Z.eqb_spec (Qnum q) 0) as [Hz|Hnz].
  { exists 0%Q. split; [done|].
    assert (Hq : (q == 0)%Q) by (unfold Qeq; simpl; lia).
    by rewrite <-Hq. }
  assert (Hpos : (0 < Qnum q)%Z).
  { unfold Qle in Hq0. simpl in Hq0. lia. }
  assert (Hlg : (Qlog2 q < 53)%Z).
  { apply Qlog2_lt; [done|lia|]. eapply Qle_lt_trans; [exact Hq2|].
    unfold Qlt. simpl. lia. }
  set (e := Z.max (Qlog2 q - 52) b64_emin).
  assert (He : (e ≤ 0)%Z) by (unfold e, b64_emin; lia).
  rewrite (proj2 (Z.leb_le e 0) He).
  set (P := (2 ^ (- e))%Z).
  assert (HP : (0 < P)%Z) by (apply Z.pow_pos_nonneg; lia).
  destruct (round_half_even_between (q * inject_Z P) (lo * P) (hi * P))
    as [Hm1 Hm2].
  { rewrite inject_Z_mult. apply Qmult_le_compat_r; [done|].
    unfold Qle. simpl. lia. }
  { rewrite inject_Z_mult. apply Qmult_le_compat_r; [done|].
    unfold Qle. simpl. lia. }
  set (m := round_half_even (q * inject_Z P)) in *.
  assert (Hr1 : (inject_Z lo <= m # Z.to_pos P)%Q).
  { unfold Qle. cbn [Qnum Qden inject_Z]. rewrite Z2Pos.id by done. lia. }
  assert (Hr2 : (m # Z.to_pos P <= inject_Z hi)%Q).
  { unfold Qle. cbn [Qnum Qden inject_Z]. rewrite Z2Pos.id by done. lia. }
  exists (m # Z.to_pos P)%Q. split; [|done].
  destruct (Qle_bool _ _) eqn:Hov; [|done].
  exfalso. apply Qle_bool_iff in Hov.
  assert (Hbig : (inject_Z b64_huge <= inject_Z hi)%Q)
    by (by eapply Qle_trans).
  unfold Qle in Hbig. cbn [Qnum Qden inject_Z] in Hbig.
  assert (2 ^ 53 ≤ b64_huge)%Z
    by (unfold b64_huge; apply Z.pow_le_mono_r; lia).
  lia.
Qed.

Lemma round_b64_nonneg (q r : Q) :
  (0 <= q)%Q → round_b64 q = Some r → (0 <= r)%Q.
Proof.
  intros Hq0. unfold round_b64. rewrite (proj2 (Qle_bool_iff 0 q) Hq0).
  unfold round_b64_abs.
  destruct (Qnum q =? 0)%Z; [by intros [= <-]|].
  set (e := Z.max (Qlog2 q - 52) b64_emin).
  destruct (Z.leb_spec e 0) as [He|He].
  - set (P := (2 ^ (- e))%Z).
    assert (HP : (0 < P)%Z) by (apply Z.pow_pos_nonneg; lia).
    destruct (Qle_bool _ _); [done|]. intros [= <-].
    destruct (round_half_even_between (q * inject_Z P) 0 (Qceiling (q * inject_Z P)))
      as [Hm _].
    + apply Qmult_le_0_compat; [done|]. unfold Qle. simpl. lia.
    + apply Qle_ceiling.
    + unfold Qle. cbn [Qnum Qden inject_Z]. lia.
  - set (P := (2 ^ e)%Z).
    assert (HP : (0 < P)%Z) by (apply Z.pow_pos_nonneg; lia).
    destruct (Qle_bool _ _); [done|]. intros [= <-].
    destruct (round_half_even_between (q / inject_Z P) 0 (Qceiling (q / inject_Z P)))
      as [Hm _].
    + apply Qle_shift_div_l; [unfold Qlt; simpl; lia|].
      by rewrite Qmult_0_l.
    + apply Qle_ceiling.
    + unfold Qle. cbn [Qnum Qden inject_Z]. nia.
Qed.

(** ** drop_mask *)

Lemma keep_prob_range (p : Q) :
  (0 <= p)%Q → (p <= 1)%Q → (0 <= 1 - p)%Q ∧ (1 - p <= 1)%Q.
Proof.
  destruct p as [n d]. unfold Qle. simpl. intros H0 H1. split; lia.
Qed.

(** The keep probability [1.-p] of a drop probability in [[0, 1]] is a
    float of [[0, 1]]. *)
Lemma keep_prob_Some (p : Q) :
  (0 <= p)%Q → (p <= 1)%Q →
  ∃ keep, round_b64 (1 - p) = Some keep ∧ (0 <= keep)%Q ∧ (keep <= 1)%Q.
Proof.
  intros H0 H1. destruct (keep_prob_range p H0 H1) as [Hk0 Hk1].
  by apply (round_b64_between (1 - p) 0 1).
Qed.

Section drop_mask_facts.
Context (self : FractalBlock) (B : nat) (global_cols : list Z) (n_cols : nat).

(** The global choices translated to the rows of the mask. *)
Abbreviation gdrop_cols :=
  ((λ g, g - (Z.of_nat (n_columns self) - Z.of_nat n_cols))%Z <$> global_cols).

Hypothesis HGB : length global_cols ≤ B.
Hypothesis Hglobal :
  Forall (λ g, g < Z.of_nat (n_columns self))%Z global_cols.
Hypothesis Hcols : 0 < n_cols.
Hypothesis Hp : (0 <= p_local_drop self)%Q ∧ (p_local_drop self <= 1)%Q.

Lemma drop_mask_Ok w :
  ∃ m w', drop_mask self B global_cols n_cols w = Ok m w'
    ∧ trace w' = trace w
    ∧ is_shape n_cols B m
    ∧ binary m
    ∧ (∀ k c, k < length global_cols → c < n_cols →
         entry m c k =
           if bool_decide (gdrop_cols !! k = Some (Z.of_nat c))
           then 1%Qc else 0%Qc)
    ∧ (∀ k, length global_cols ≤ k < B →
         ∃ c, c < n_cols ∧ entry m c k = 1%Qc).
Proof.
  unfold drop_mask.
  set (GB := length global_cols).
  set (gidx := np_where (λ g, 0 <=? g)%Z gdrop_cols).
  assert (Hglen : length gdrop_cols = GB) by apply length_fmap.
  (* the global sub-mask *)
  destruct (mapM_getitem_np_where (λ g, 0 <=? g)%Z gdrop_cols w)
    as (rows & Hrows & _ & Hpairs). fold gidx in Hrows, Hpairs.
  rewrite (bind_Ok _ _ _ _ _ Hrows).
  assert (Hgok : Forall (λ p : Z * nat,
                   (0 ≤ p.1 < Z.of_nat n_cols)%Z ∧ p.2 < GB) (zip rows gidx)).
  { apply list.Forall_forall. intros [r k] [Hr Hpos]%Hpairs. simpl.
    apply Z.leb_le in Hpos.
    assert (k < GB) by (rewrite <-Hglen; by eapply lookup_lt_Some).
    split; [|done]. split; [done|].
    rewrite list_lookup_fmap in Hr.
    destruct (global_cols !! k) as [g|] eqn:Hg; [|done].
    injection Hr as <-.
    eapply (proj1 (list.Forall_lookup _ _)) in Hglobal; [|exact Hg].
    simpl in Hglobal. lia. }
  destruct (setitems2_Ok n_cols GB 1%Qc (zip rows gidx) (np_zeros n_cols GB) w
              (np_zeros_shape _ _) Hgok) as [Hgset Hgshape].
  unfold setitems2 at 1. rewrite (bind_Ok _ _ _ _ _ Hgset).
  set (gmask := foldl (set2 1%Qc) (np_zeros n_cols GB) (zip rows gidx)) in *.
  (* the local sub-mask *)
  set (LB := (Z.of_nat B - Z.of_nat GB)%Z).
  destruct (keep_prob_Some _ (proj1 Hp) (proj2 Hp))
    as (keep & Hkeep & Hkeep0 & Hkeep1).
  rewrite Hkeep.
  destruct (random_binomial1_Ok keep n_cols LB w Hkeep0 Hkeep1)
    as (lmask0 & w1 & Hbin & Htr1 & Hlshape0 & Hlbin0).
  { unfold LB, GB. lia. }
  rewrite (bind_Ok _ _ _ _ _ Hbin).
  set (alive := sum_axis0 (Z.to_nat LB) lmask0).
  set (dead := np_where (λ a, bool_decide (a = 0%Qc)) alive).
  destruct (random_randint_Ok (Z.of_nat n_cols) (Z.of_nat (length dead)) w1)
    as (rs & w2 & Hrand & Htr2 & Hrslen & Hrsok); [lia..|].
  rewrite (bind_Ok _ _ _ _ _ Hrand).
  assert (Halive_len : length alive ≤ Z.to_nat LB).
  { unfold alive, sum_axis0. etrans; [apply length_foldl_vadd|].
    by rewrite length_replicate. }
  assert (Hlok : Forall (λ p : Z * nat,
                   (0 ≤ p.1 < Z.of_nat n_cols)%Z ∧ p.2 < Z.to_nat LB)
                        (zip rs dead)).
  { apply list.Forall_forall. intros [r k] Hin. simpl.
    apply elem_of_lookup_zip_with in Hin as (i & r' & k' & [= <- <-] & Hr & Hk).
    split; [by eapply (proj1 (list.Forall_lookup _ _)) in Hrsok|].
    assert (Hkin : k ∈ dead) by (apply list_elem_of_lookup; eauto).
    apply elem_of_np_where in Hkin as (x & Hx & _).
    apply lookup_lt_Some in Hx. lia. }
  destruct (setitems2_Ok n_cols (Z.to_nat LB) 1%Qc (zip rs dead) lmask0 w2
              Hlshape0 Hlok) as [Hlset Hlshape].
  unfold setitems2. rewrite (bind_Ok _ _ _ _ _ Hlset).
  set (lmask := foldl (set2 1%Qc) lmask0 (zip rs dead)) in *.
  assert (HB : GB + Z.to_nat LB = B) by (unfold LB, GB in *; lia).
  eexists _, _. split; [reflexivity|].
  split; [congruence|].
  split; [rewrite <-HB; by apply hstack_shape|].
  split.
  { apply hstack_binary; apply foldl_set2_binary;
      auto using np_zeros_binary; by right. }
  split.
  - intros k c Hk Hc.
    rewrite (hstack_entry n_cols GB (Z.to_nat LB)) by done.
    rewrite decide_True by done.
    unfold gmask. rewrite (entry_foldl_set2 n_cols GB)
      by auto using np_zeros_shape.
    rewrite np_zeros_entry.
    rewrite (bool_decide_ext _ (gdrop_cols !! k = Some (Z.of_nat c))); [done|].
    rewrite Hpairs. split; [by intros [? _]|].
    intros Hr. split; [done|]. apply Z.leb_le. lia.
  - intros k [Hk1 Hk2].
    assert (Hk' : k - GB < Z.to_nat LB) by (fold GB in Hk1; lia).
    assert (Hsum : alive !! (k - GB)
                   = Some (Qsum (column lmask0 (k - GB)))).
    { by apply (sum_axis0_lookup n_cols). }
    assert (Hhit : ∃ c, c < n_cols ∧ entry lmask c (k - GB) = 1%Qc).
    { destruct (decide (Qsum (column lmask0 (k - GB)) = 0%Qc)) as [Hz|Hnz].
      - (* an all-dead sample: it is in [dead_indices] and is resurrected *)
        assert (Hin : k - GB ∈ dead).
        { apply elem_of_np_where. eexists. split; [exact Hsum|].
          by apply bool_decide_eq_true_2. }
        apply list_elem_of_lookup in Hin as [i Hi].
        destruct (lookup_lt_is_Some_2 rs i) as [r Hr].
        { rewrite Hrslen, Nat2Z.id. by eapply lookup_lt_Some. }
        pose proof (proj1 (list.Forall_lookup _ _) Hrsok i r Hr) as Hrange.
        simpl in Hrange.
        exists (Z.to_nat r). split; [lia|].
        unfold lmask. rewrite (entry_foldl_set2 n_cols (Z.to_nat LB)) by done.
        rewrite bool_decide_eq_true_2; [done|].
        rewrite Z2Nat.id by lia.
        apply elem_of_lookup_zip_with. by exists i, r, (k - GB).
      - (* a sample with a surviving path keeps it *)
        assert (Hex : ¬ Forall (λ x, x = 0%Qc) (column lmask0 (k - GB))).
        { intros Hall. by apply Hnz, Qsum_all_zero. }
        apply not_Forall_Exists in Hex; [|apply _].
        apply Exists_exists in Hex as (x & Hx & Hne). simpl in Hne.
        apply list_elem_of_In, list_elem_of_lookup in Hx as [c Hc].
        assert (Hcn : c < n_cols).
        { apply lookup_lt_Some in Hc. rewrite length_column in Hc.
          destruct Hlshape0 as [<- _]. done. }
        rewrite column_lookup in Hc
          by (destruct Hlshape0 as [-> _]; done).
        injection Hc as <-.
        exists c. split; [done|].
        unfold lmask. rewrite (entry_foldl_set2 n_cols (Z.to_nat LB)) by done.
        case_bool_decide; [done|].
        by destruct (binary_entry lmask0 c (k - GB) Hlbin0). }
    destruct Hhit as (c & Hc & Hone). exists c. split; [done|].
    rewrite (hstack_entry n_cols GB (Z.to_nat LB)) by done.
    by rewrite decide_False by lia.
Qed.
End drop_mask_facts.

Lemma foldl_Qcplus_zeros n acc : foldl Qcplus acc (replicate n 0%Qc) = acc.
Proof.
  revert acc. induction n as [|n IH]; intros acc; [done|].
  simpl. by rewrite Qcplus_0_r.
Qed.

Lemma Qsum_zeros n : Qsum (replicate n 0%Qc) = 0%Qc.
Proof. apply foldl_Qcplus_zeros. Qed.

Lemma Qsum_one_hot n c : c < n → Qsum (<[c := 1%Qc]> (replicate n 0%Qc)) = 1%Qc.
Proof.
  intros Hc. unfold Qsum.
  rewrite insert_replicate_lt by done.
  rewrite foldl_app, foldl_Qcplus_zeros. simpl.
  by rewrite foldl_Qcplus_zeros, Qcplus_0_l.
Qed.

(** A column whose entries are known pointwise. *)
Lemma column_ext n b m k (f : nat → Qc) :
  is_shape n b m → (∀ c, c < n → entry m c k = f c) →
  column m k = f <$> seq 0 n.
Proof.
  intros [Hn Hrows] Hf. apply list_eq. intros c.
  rewrite list_lookup_fmap. destruct (decide (c < n)) as [Hc|Hc].
  - rewrite column_lookup, lookup_seq_lt by lia. simpl. by rewrite Hf.
  - rewrite lookup_seq_ge by lia. apply lookup_ge_None.
    rewrite length_column. lia.
Qed.

Lemma one_hot_seq n c0 :
  (λ c, if bool_decide (c = c0) then 1%Qc else 0%Qc) <$> seq 0 n
    = <[c0 := 1%Qc]> (replicate n 0%Qc).
Proof.
  apply list_eq. intros c. rewrite list_lookup_fmap.
  destruct (decide (c < n)) as [Hc|Hc].
  - rewrite lookup_seq_lt by done. simpl.
    rewrite list_lookup_insert, length_replicate.
    case_bool_decide as Heq.
    + subst c0. by rewrite decide_True by done.
    + rewrite decide_False by (intros [? _]; congruence).
      by rewrite lookup_replicate_2.
  - rewrite lookup_seq_ge by lia. simpl. symmetry. apply lookup_ge_None.
    rewrite length_insert, length_replicate. lia.
Qed.

Lemma zeros_seq n :
  (λ _ : nat, 0%Qc) <$> seq 0 n = replicate n 0%Qc.
Proof.
  apply list_eq. intros c. rewrite list_lookup_fmap.
  destruct (decide (c < n)) as [Hc|Hc].
  - by rewrite lookup_seq_lt, lookup_replicate_2.
  - rewrite lookup_seq_ge by lia. simpl. symmetry.
    apply lookup_replicate_None. lia.
Qed.

(** The mask column of a global sample: one-hot at the translated index
    when the chosen column is active, all-zero when it is not. *)
Lemma drop_mask_global_column self B global_cols n_cols w k g :
  length global_cols ≤ B →
  Forall (λ g, g < Z.of_nat (n_columns self))%Z global_cols →
  0 < n_cols →
  (0 <= p_local_drop self)%Q ∧ (p_local_drop self <= 1)%Q →
  global_cols !! k = Some g →
  ∃ m w', drop_mask self B global_cols n_cols w = Ok m w'
    ∧ column m k =
        if bool_decide (g < Z.of_nat (n_columns self) - Z.of_nat n_cols)%Z
        then replicate n_cols 0%Qc
        else <[Z.to_nat (g - (Z.of_nat (n_columns self) - Z.of_nat n_cols)) := 1%Qc]>
               (replicate n_cols 0%Qc).
Proof.
  intros HGB Hglobal Hcols Hp Hg.
  destruct (drop_mask_Ok self B global_cols n_cols HGB Hglobal Hcols Hp w)
    as (m & w' & Hrun & _ & Hshape & _ & Hglob & _).
  exists m, w'. split; [done|].
  assert (Hk : k < length global_cols) by (by eapply lookup_lt_Some).
  set (off := (Z.of_nat (n_columns self) - Z.of_nat n_cols)%Z).
  assert (Hent : ∀ c, c < n_cols →
            entry m c k = if bool_decide (g - off = Z.of_nat c)%Z
                          then 1%Qc else 0%Qc).
  { intros c Hc. rewrite (Hglob k c Hk Hc), list_lookup_fmap, Hg. simpl.
    apply (f_equal (λ b : bool, if b then 1%Qc else 0%Qc)).
    apply bool_decide_ext. fold off. split; [by intros [= ?]|by intros ?; f_equal]. }
  case_bool_decide as Hlt.
  - rewrite <-zeros_seq. apply (column_ext n_cols B); [done|].
    intros c Hc. rewrite Hent by done.
    rewrite bool_decide_eq_false_2; [done|]. lia.
  - rewrite <-one_hot_seq. apply (column_ext n_cols B); [done|].
    intros c Hc. rewrite Hent by done.
    apply (f_equal (λ b : bool, if b then 1%Qc else 0%Qc)).
    apply bool_decide_ext. lia.
Qed.

(** C4.  For every batch size [B >= 1], every [global_cols] of length
    [GB <= B] with entries in [[0, n_columns)], every [n_cols] with
    [1 <= n_cols <= n_columns] and every [p_local_drop] in [[0, 1]],
    [drop_mask] returns a mask of shape [[n_cols, B]] whose entries are 0
    or 1 and in which the column of every local sample (positions
    [GB .. B-1]) sums to at least 1; the column of a global sample can
    sum to 0. *)
Theorem drop_mask_shape_binary_resurrection :
  (∀ self B global_cols n_cols w,
     1 ≤ B → length global_cols ≤ B →
     Forall (λ g, 0 ≤ g < Z.of_nat (n_columns self))%Z global_cols →
     1 ≤ n_cols ≤ n_columns self →
     (0 <= p_local_drop self)%Q ∧ (p_local_drop self <= 1)%Q →
     ∃ m w', drop_mask self B global_cols n_cols w = Ok m w'
       ∧ is_shape n_cols B m
       ∧ binary m
       ∧ ∀ k, length global_cols ≤ k < B → (1 ≤ Qsum (column m k))%Qc)
  ∧ (∃ self B global_cols n_cols w m w',
       1 ≤ B ∧ 1 ≤ length global_cols ≤ B
       ∧ Forall (λ g, 0 ≤ g < Z.of_nat (n_columns self))%Z global_cols
       ∧ 1 ≤ n_cols ≤ n_columns self
       ∧ ((0 <= p_local_drop self)%Q ∧ (p_local_drop self <= 1)%Q)
       ∧ drop_mask self B global_cols n_cols w = Ok m w'
       ∧ Qsum (column m 0) = 0%Qc).
Proof.
  split.
  - intros self B global_cols n_cols w HB HGB Hglobal Hcols Hp.
    assert (Hupper : Forall (λ g, g < Z.of_nat (n_columns self))%Z global_cols).
    { eapply list.Forall_impl; [exact Hglobal|]. simpl. lia. }
    destruct (drop_mask_Ok self B global_cols n_cols HGB Hupper
                ltac:(lia) Hp w)
      as (m & w' & Hrun & _ & Hshape & Hbin & _ & Hlocal).
    exists m, w'. split_and!; [done..|].
    intros k Hk. destruct (Hlocal k Hk) as (c & Hc & Hone).
    apply Qsum_alive; [by apply binary_column|].
    apply list_elem_of_lookup. exists c. rewrite <-Hone.
    apply column_lookup. destruct Hshape as [-> _]. done.
  - set (self := mkFractalBlock 2 [] 2 (1 # 2) None [] true).
    assert (Hp : (0 <= p_local_drop self)%Q ∧ (p_local_drop self <= 1)%Q).
    { split; unfold Qle; simpl; lia. }
    assert (Hglobal : Forall (λ g, 0 ≤ g < Z.of_nat (n_columns self))%Z [0%Z]).
    { repeat constructor; simpl; lia. }
    destruct (drop_mask_global_column self 1 [0%Z] 1 w0 0 0%Z)
      as (m & w' & Hrun & Hcol); [simpl; lia| |lia|done|done|].
    { repeat constructor. }
    exists self, 1, [0%Z], 1, w0, m, w'.
    split_and!; [done|simpl; lia..|done|simpl; lia|simpl; lia| | |done|].
    + apply Hp.
    + apply Hp.
    + rewrite Hcol. rewrite bool_decide_eq_true_2 by (simpl; lia).
      apply Qsum_zeros.
Qed.

Lemma drop_mask_shape_binary_resurrection_witness :
  ∃ m w', drop_mask (mkFractalBlock 2 [] 2 (1 # 2) None [] true) 2 [0%Z] 1 w0
            = Ok m w'
    ∧ is_shape 1 2 m
    ∧ binary m
    ∧ ∀ k, 1 ≤ k < 2 → (1 ≤ Qsum (column m k))%Qc.
Proof.
  apply (proj1 drop_mask_shape_binary_resurrection
           (mkFractalBlock 2 [] 2 (1 # 2) None [] true) 2 [0%Z] 1 w0).
  - lia.
  - simpl; lia.
  - repeat constructor; simpl; lia.
  - simpl; lia.
  - split; unfold Qle; simpl; lia.
Defined.

(** C10.  When [drop_mask] is called with [n_cols = n_columns] (a merge
    point where all columns are active) and global choices in
    [[0, n_columns)], every global sample's translated index is in range:
    each of the first [GB] mask columns is exactly one-hot, at the chosen
    column, and sums to exactly 1. *)
Theorem full_width_global_columns_one_hot self B global_cols w :
  1 ≤ n_columns self →
  length global_cols ≤ B →
  Forall (λ g, 0 ≤ g < Z.of_nat (n_columns self))%Z global_cols →
  (0 <= p_local_drop self)%Q ∧ (p_local_drop self <= 1)%Q →
  ∃ m w', drop_mask self B global_cols (n_columns self) w = Ok m w'
    ∧ ∀ k g, global_cols !! k = Some g →
        Z.to_nat g < n_columns self
        ∧ column m k = <[Z.to_nat g := 1%Qc]> (replicate (n_columns self) 0%Qc)
        ∧ Qsum (column m k) = 1%Qc.
Proof.
  intros Hn HGB Hglobal Hp.
  assert (Hupper : Forall (λ g, g < Z.of_nat (n_columns self))%Z global_cols).
  { eapply list.Forall_impl; [exact Hglobal|]. simpl. lia. }
  destruct (drop_mask_Ok self B global_cols (n_columns self) HGB Hupper
              ltac:(lia) Hp w) as (m & w' & Hrun & _).
  exists m, w'. split; [done|]. intros k g Hg.
  pose proof (proj1 (list.Forall_lookup _ _) Hglobal k g Hg) as Hrange.
  simpl in Hrange.
  destruct (drop_mask_global_column self B global_cols (n_columns self) w k g
              HGB Hupper ltac:(lia) Hp Hg) as (m2 & w2 & Hrun2 & Hcol).
  rewrite Hrun in Hrun2. injection Hrun2 as <- <-.
  rewrite bool_decide_eq_false_2 in Hcol by lia.
  replace (g - (Z.of_nat (n_columns self) - Z.of_nat (n_columns self)))%Z
    with g in Hcol by lia.
  split; [lia|]. split; [done|].
  rewrite Hcol. apply Qsum_one_hot. lia.
Qed.

Lemma full_width_global_columns_one_hot_witness :
  ∃ m w', drop_mask (mkFractalBlock 2 [] 2 (1 # 2) None [] true)
                    3 [1%Z; 0%Z] 2 w0 = Ok m w'
    ∧ ∀ k g, [1%Z; 0%Z] !! k = Some g →
        Z.to_nat g < 2
        ∧ column m k = <[Z.to_nat g := 1%Qc]> (replicate 2 0%Qc)
        ∧ Qsum (column m k) = 1%Qc.
Proof.
  apply (full_width_global_columns_one_hot
           (mkFractalBlock 2 [] 2 (1 # 2) None [] true) 3 [1%Z; 0%Z] w0).
  - simpl; lia.
  - simpl; lia.
  - repeat constructor; simpl; lia.
  - split; unfold Qle; simpl; lia.
Defined.

(** ** Tensors, entry by entry *)

Lemma shape_lookup (s t : Tensor) b :
  shape s = shape t →
  match s !! b, t !! b with
  | Some x, Some y => length x = length y
  | None, None => True
  | _, _ => False
  end.
Proof.
  intros Hst. assert (H := f_equal (λ l, l !! b) Hst). simpl in H.
  unfold shape in H. rewrite !list_lookup_fmap in H.
  destruct (s !! b), (t !! b); simpl in H; by simplify_eq.
Qed.

Lemma entry_Some (t : Tensor) b row k x :
  t !! b = Some row → row !! k = Some x → entry t b k = x.
Proof. intros Hb Hk. unfold entry. by rewrite Hb; simpl; rewrite Hk. Qed.

(** Two tensors of one shape with the same entries are equal. *)
Lemma tensor_ext (s t : Tensor) :
  shape s = shape t →
  (∀ b row k x, t !! b = Some row → row !! k = Some x → entry s b k = x) →
  s = t.
Proof.
  intros Hshape Hent. apply list_eq. intros b.
  pose proof (shape_lookup s t b Hshape) as Hb.
  destruct (s !! b) as [x|] eqn:Hx, (t !! b) as [y|] eqn:Hy; try done.
  f_equal. apply list_eq. intros k.
  destruct (y !! k) as [v|] eqn:Hv.
  - specialize (Hent b y k v Hy Hv). unfold entry in Hent. rewrite Hx in Hent.
    simpl in Hent. destruct (x !! k) as [u|] eqn:Hu; [by simplify_eq/=|].
    apply lookup_ge_None in Hu. apply lookup_lt_Some in Hv. lia.
  - apply lookup_ge_None in Hv. apply lookup_ge_None. lia.
Qed.

Lemma shape_tadd (s t : Tensor) : shape s = shape t → shape (tadd s t) = shape s.
Proof.
  revert t. induction s as [|x s IH]; intros [|y t] Hst; try done.
  injection Hst as Hxy Hst. cbn. f_equal; [|by apply IH].
  unfold vadd. rewrite length_zip_with. lia.
Qed.

Lemma entry_tadd (s t : Tensor) b k :
  shape s = shape t → entry (tadd s t) b k = (entry s b k + entry t b k)%Qc.
Proof.
  intros Hst. pose proof (shape_lookup s t b Hst) as Hb.
  unfold entry, tadd. rewrite lookup_zip_with.
  destruct (s !! b) as [x|], (t !! b) as [y|]; try done; simpl.
  unfold vadd. rewrite lookup_zip_with.
  destruct (x !! k) as [u|] eqn:Hu, (y !! k) as [v|] eqn:Hv; simpl; try done.
  - apply lookup_lt_Some in Hu. apply lookup_ge_None in Hv. lia.
  - apply lookup_ge_None in Hu. apply lookup_lt_Some in Hv. lia.
Qed.

Lemma foldl_tadd_spec (ts : list Tensor) : ∀ acc,
  Forall (λ t, shape t = shape acc) ts →
  shape (foldl tadd acc ts) = shape acc
  ∧ ∀ b k, entry (foldl tadd acc ts) b k
           = foldl Qcplus (entry acc b k) ((λ o, entry o b k) <$> ts).
Proof.
  induction ts as [|t ts IH]; intros acc Hts; [done|].
  inversion_clear Hts as [|?? Ht Hts'].
  assert (Hacc : shape (tadd acc t) = shape acc) by (by apply shape_tadd).
  destruct (IH (tadd acc t)) as [Hshape Hent].
  { eapply list.Forall_impl; [exact Hts'|]. simpl. congruence. }
  cbn [foldl fmap list_fmap]. split; [congruence|].
  intros b k. by rewrite Hent, entry_tadd.
Qed.

Lemma sum_dim0_spec (t0 : Tensor) (outs : list Tensor) :
  outs !! 0 = Some t0 → Forall (λ t, shape t = shape t0) outs →
  shape (sum_dim0 outs) = shape t0
  ∧ ∀ b k, entry (sum_dim0 outs) b k = Qsum ((λ o, entry o b k) <$> outs).
Proof.
  intros H0 Hall. destruct outs as [|t ts]; [done|]. injection H0 as ->.
  inversion_clear Hall as [|?? _ Hts].
  destruct (foldl_tadd_spec ts t0 Hts) as [Hshape Hent].
  split; [done|]. intros b k. unfold sum_dim0, Qsum.
  cbn [fmap list_fmap foldl]. by rewrite Hent, Qcplus_0_l.
Qed.

Lemma torch_stack_Ok (t0 : Tensor) (outs : list Tensor) w :
  outs !! 0 = Some t0 → Forall (λ t, shape t = shape t0) outs →
  torch_stack outs w = Ok outs w.
Proof.
  intros H0 Hall. destruct outs as [|t ts]; [done|]. injection H0 as ->.
  inversion_clear Hall as [|?? _ Hts]. unfold torch_stack.
  rewrite (proj2 (forallb_forall _ ts)); [done|].
  intros t Hin. apply bool_decide_eq_true_2.
  by apply (proj1 (Forall_forall _ ts) Hts).
Qed.

Lemma entry_fmap_vdiv (t : Tensor) a b k :
  entry ((λ s, vdiv s a) <$> t) b k = (entry t b k / a)%Qc.
Proof.
  unfold entry. rewrite list_lookup_fmap.
  assert (Hz : 0%Qc = (0 / a)%Qc) by (unfold Qcdiv; by rewrite Qcmult_0_l).
  destruct (t !! b) as [row|]; simpl; [|done].
  unfold vdiv. rewrite list_lookup_fmap.
  by destruct (row !! k).
Qed.

Lemma shape_fmap_vdiv (t : Tensor) a : shape ((λ s, vdiv s a) <$> t) = shape t.
Proof.
  unfold shape. rewrite <-list_fmap_compose. apply list_fmap_ext.
  intros _ s _. simpl. unfold vdiv. by rewrite length_fmap.
Qed.

Lemma shape_imap2 (f : nat → nat → Qc) (t : Tensor) :
  shape (imap (λ b s, imap (λ k _, f b k) s) t) = shape t.
Proof.
  apply list_eq. intros b. unfold shape.
  rewrite !list_lookup_fmap, list_lookup_imap.
  destruct (t !! b); simpl; [|done]. by rewrite length_imap.
Qed.

Lemma lookup_imap2 (f : nat → nat → Qc) (t : Tensor) b row k x :
  imap (λ b s, imap (λ k _, f b k) s) t !! b = Some row → row !! k = Some x →
  x = f b k.
Proof.
  rewrite list_lookup_imap. destruct (t !! b) as [s|]; simpl; [|done].
  intros [= <-]. rewrite list_lookup_imap.
  destruct (s !! k); simpl; [|done]. by intros [= <-].
Qed.

(** The inference branch of [join] computes the mean of the paths. *)
Lemma join_inference_refines self outs t0 global_cols w :
  training self = false →
  outs !! 0 = Some t0 → Forall (λ t, shape t = shape t0) outs →
  join self outs global_cols w = Ok (mean_of_paths outs) w
  ∧ shape (mean_of_paths outs) = shape t0.
Proof.
  intros Htr H0 Hall. unfold join.
  rewrite (bind_Ok _ _ _ _ _ (torch_stack_Ok t0 outs w H0 Hall)), Htr.
  destruct (sum_dim0_spec t0 outs H0 Hall) as [Hshape Hent].
  assert (Hmean : shape (mean_of_paths outs) = shape t0).
  { destruct outs as [|t ts]; [done|]. injection H0 as ->.
    apply (shape_imap2 (λ b k, _)). }
  split; [|done]. rewrite ret_Ok. f_equal. apply tensor_ext.
  - by rewrite shape_fmap_vdiv, Hshape, Hmean.
  - intros b row k x Hrow Hx. rewrite entry_fmap_vdiv, Hent.
    destruct outs as [|t ts]; [done|].
    by rewrite (lookup_imap2 (λ b k, _) _ _ _ _ _ Hrow Hx).
Qed.

Lemma Qc_of_nat_3 : Qc_of_nat 3 = Q2Qc 3.
Proof. by apply Qc_is_canon. Qed.

(** C6.  When not in training mode, [join] applied to a non-empty list
    of same-shaped outputs returns their elementwise unweighted mean,
    whatever [global_cols] and the random source are, and leaves the
    random source untouched; for three inputs the result is
    [(t1 + t2 + t3) / 3], entry by entry. *)
Theorem join_inference_is_mean self :
  training self = false →
  (∀ outs t0 global_cols w,
     outs !! 0 = Some t0 → Forall (λ t, shape t = shape t0) outs →
     join self outs global_cols w = Ok (mean_of_paths outs) w
     ∧ shape (mean_of_paths outs) = shape t0)
  ∧ (∀ t1 t2 t3 global_cols w,
       shape t2 = shape t1 → shape t3 = shape t1 →
       ∃ t, join self [t1; t2; t3] global_cols w = Ok t w
         ∧ shape t = shape t1
         ∧ ∀ b k, entry t b k
                  = ((entry t1 b k + entry t2 b k + entry t3 b k) / Q2Qc 3)%Qc).
Proof.
  intros Htr. split.
  - intros outs t0 global_cols w. by apply join_inference_refines.
  - intros t1 t2 t3 global_cols w H2 H3. unfold join.
    assert (Hall : Forall (λ t, shape t = shape t1) [t1; t2; t3])
      by (by repeat constructor).
    rewrite (bind_Ok _ _ _ _ _
               (torch_stack_Ok t1 [t1; t2; t3] w eq_refl Hall)), Htr.
    destruct (sum_dim0_spec t1 [t1; t2; t3] eq_refl Hall) as [Hshape Hent].
    eexists. split; [reflexivity|].
    split; [by rewrite shape_fmap_vdiv|].
    intros b k. rewrite entry_fmap_vdiv, Hent. unfold Qsum. simpl.
    by rewrite Qcplus_0_l, Qc_of_nat_3.
Qed.

Lemma join_inference_is_mean_witness :
  ∃ t, join (mkFractalBlock 2 [] 2 (1 # 2) None [] false)
            [ [[0%Qc]]; [[1%Qc]]; [[1%Qc]] ] [0%Z] w0 = Ok t w0
    ∧ shape t = shape [[0%Qc]]
    ∧ ∀ b k, entry t b k
             = ((entry [[0%Qc]] b k + entry [[1%Qc]] b k + entry [[1%Qc]] b k)
                / Q2Qc 3)%Qc.
Proof.
  apply (proj2 (join_inference_is_mean
                  (mkFractalBlock 2 [] 2 (1 # 2) None [] false) eq_refl));
    reflexivity.
Defined.

(** ** The training branch of join *)

Lemma foldl_Qcplus_acc l : ∀ acc, foldl Qcplus acc l = (acc + Qsum l)%Qc.
Proof.
  unfold Qsum. induction l as [|x l IH]; intros acc; simpl.
  - by rewrite Qcplus_0_r.
  - rewrite (IH (acc + x)%Qc), (IH (0 + x)%Qc). ring.
Qed.

Lemma Qsum_cons x l : Qsum (x :: l) = (x + Qsum l)%Qc.
Proof. unfold Qsum at 1. simpl. rewrite foldl_Qcplus_acc. ring. Qed.





Lemma Qsum_weighted_zero xs ws :
  Forall (λ x, x = 0%Qc) ws → Qsum (zip_with Qcmult xs ws) = 0%Qc.
Proof.
  intros Hws. apply Qsum_all_zero, list.Forall_forall. intros z Hz.
  apply elem_of_lookup_zip_with in Hz as (i & x & y & -> & _ & Hy).
  rewrite (proj1 (list.Forall_lookup _ _) Hws i y Hy). ring.
Qed.

Lemma Qsum_weighted_one_hot xs : ∀ c n x,
  xs !! c = Some x → c < n →
  Qsum (zip_with Qcmult xs (<[c := 1%Qc]> (replicate n 0%Qc))) = x.
Proof.
  induction xs as [|x0 xs IH]; intros c n x Hx Hc; [done|].
  destruct n as [|n]; [lia|]. destruct c as [|c]; simpl in *.
  - injection Hx as ->. rewrite Qsum_cons, Qsum_weighted_zero.
    + ring.
    + apply Forall_replicate. done.
  - rewrite Qsum_cons, (IH c n x Hx) by lia. ring.
Qed.

(** One masked path: [out[c] * masks[c]]. *)
Lemma masked_path_spec (o : Tensor) (mrow : list Qc) :
  length mrow = length o →
  shape (zip_with (λ s a, (λ x, x * a)%Qc <$> s) o mrow) = shape o
  ∧ ∀ b k, entry (zip_with (λ s a, (λ x, x * a)%Qc <$> s) o mrow) b k
           = (entry o b k * default 0%Qc (mrow !! b))%Qc.
Proof.
  intros Hlen. split.
  - apply list_eq. intros b. unfold shape.
    rewrite !list_lookup_fmap, lookup_zip_with.
    destruct (o !! b) as [s|] eqn:Hs; simpl; [|done].
    destruct (lookup_lt_is_Some_2 mrow b) as [a ->].
    { rewrite Hlen. by eapply lookup_lt_Some. }
    simpl. by rewrite length_fmap.
  - intros b k. unfold entry. rewrite lookup_zip_with.
    destruct (o !! b) as [s|] eqn:Hs; simpl.
    + destruct (lookup_lt_is_Some_2 mrow b) as [a ->].
      { rewrite Hlen. by eapply lookup_lt_Some. }
      simpl. rewrite list_lookup_fmap.
      destruct (s !! k); simpl; [done|]. ring.
    + ring.
Qed.

Lemma shape_length (s t : Tensor) : shape s = shape t → length s = length t.
Proof.
  intros H. apply (f_equal length) in H. unfold shape in H.
  by rewrite !length_fmap in H.
Qed.

Lemma entry_zip_vdiv (s : Tensor) (ns : list Qc) b k a :
  ns !! b = Some a →
  entry (zip_with vdiv s ns) b k = (entry s b k / a)%Qc.
Proof.
  intros Ha. unfold entry. rewrite lookup_zip_with, Ha.
  assert (Hz : 0%Qc = (0 / a)%Qc) by (unfold Qcdiv; by rewrite Qcmult_0_l).
  destruct (s !! b) as [row|]; simpl; [|done].
  unfold vdiv. rewrite list_lookup_fmap. by destruct (row !! k).
Qed.

Lemma shape_zip_vdiv (s : Tensor) (ns : list Qc) :
  length s ≤ length ns → shape (zip_with vdiv s ns) = shape s.
Proof.
  intros Hlen. apply list_eq. intros b. unfold shape.
  rewrite !list_lookup_fmap, lookup_zip_with.
  destruct (s !! b) as [row|] eqn:Hrow; simpl; [|done].
  destruct (lookup_lt_is_Some_2 ns b) as [a ->].
  { apply lookup_lt_Some in Hrow. lia. }
  simpl. unfold vdiv. by rewrite length_fmap.
Qed.

Lemma clamp_dead_lookup n B masks b :
  is_shape n B masks → 0 < n → b < B →
  clamp_dead (mask_sum_dim0 masks) !! b = Some (alive_count_clamped masks b).
Proof.
  intros Hshape Hn Hb. unfold clamp_dead, alive_count_clamped.
  by rewrite list_lookup_fmap, (mask_sum_dim0_lookup n B).
Qed.

Section join_training.
Context (self : FractalBlock) (outs : list Tensor) (t0 : Tensor)
        (global_cols : list Z).
Hypothesis Htraining : training self = true.
Hypothesis Hfirst : outs !! 0 = Some t0.
Hypothesis Hshapes : Forall (λ t, shape t = shape t0) outs.
Hypothesis HGB : length global_cols ≤ length t0.
Hypothesis Hglobal :
  Forall (λ g, g < Z.of_nat (n_columns self))%Z global_cols.
Hypothesis Hp : (0 <= p_local_drop self)%Q ∧ (p_local_drop self <= 1)%Q.

(** The masked paths all have the shape of the inputs, and their
    entries are the inputs' entries times the mask weight. *)
Lemma mul_masks_spec masks :
  is_shape (length outs) (length t0) masks →
  (∃ m0, mul_masks outs masks !! 0 = Some m0 ∧ shape m0 = shape t0)
  ∧ Forall (λ t, shape t = shape t0) (mul_masks outs masks)
  ∧ ∀ b k, (λ o, entry o b k) <$> mul_masks outs masks
           = zip_with Qcmult ((λ o, entry o b k) <$> outs) (column masks b).
Proof.
  intros [Hn Hrows].
  assert (Hpath : ∀ c o mrow, outs !! c = Some o → masks !! c = Some mrow →
            length mrow = length o).
  { intros c o mrow Ho Hm.
    rewrite (proj1 (list.Forall_lookup _ _) Hrows c mrow Hm).
    symmetry. apply shape_length.
    apply (proj1 (list.Forall_lookup _ _) Hshapes c o Ho). }
  split_and!.
  - destruct (lookup_lt_is_Some_2 masks 0) as [mrow Hm].
    { rewrite Hn. by eapply lookup_lt_Some. }
    eexists. unfold mul_masks. rewrite lookup_zip_with, Hfirst, Hm. simpl.
    split; [done|]. apply masked_path_spec. by eapply Hpath.
  - apply list.Forall_forall. intros t Ht.
    apply elem_of_lookup_zip_with in Ht as (c & o & mrow & -> & Ho & Hm).
    rewrite (proj1 (masked_path_spec o mrow (Hpath c o mrow Ho Hm))).
    apply (proj1 (list.Forall_lookup _ _) Hshapes c o Ho).
  - intros b k. apply list_eq. intros c. unfold mul_masks, column.
    rewrite list_lookup_fmap, !lookup_zip_with, !list_lookup_fmap.
    destruct (outs !! c) as [o|] eqn:Ho; simpl; [|done].
    destruct (masks !! c) as [mrow|] eqn:Hm; simpl; [|done].
    f_equal. apply masked_path_spec. by eapply Hpath.
Qed.

(** The training branch of [join] computes the masked mean of the
    paths, for the mask that [drop_mask] returns on the same random
    source. *)
Lemma join_training_refines w :
  ∃ masks w',
    drop_mask self (length t0) global_cols (length outs) w = Ok masks w'
    ∧ trace w' = trace w
    ∧ is_shape (length outs) (length t0) masks
    ∧ binary masks
    ∧ join self outs global_cols w = Ok (masked_mean_of_paths masks outs) w'.
Proof.
  assert (Hn : 0 < length outs) by (by eapply lookup_lt_Some).
  destruct (drop_mask_Ok self (length t0) global_cols (length outs)
              HGB Hglobal Hn Hp w)
    as (masks & w' & Hrun & Htrace & Hshape & Hbin & _).
  exists masks, w'. split_and!; [done..|].
  unfold join.
  rewrite (bind_Ok _ _ _ _ _ (torch_stack_Ok t0 outs w Hfirst Hshapes)).
  rewrite Htraining, (bind_Ok _ _ _ _ _ (getitem_Ok _ _ _ _ Hfirst)).
  rewrite (bind_Ok _ _ _ _ _ Hrun), ret_Ok. f_equal.
  destruct (mul_masks_spec masks Hshape)
    as ((m0 & Hm0 & Hm0shape) & Hmshapes & Hments).
  destruct (sum_dim0_spec m0 (mul_masks outs masks) Hm0) as [Hsshape Hsent].
  { eapply list.Forall_impl; [exact Hmshapes|]. simpl. congruence. }
  assert (Hmean : shape (masked_mean_of_paths masks outs) = shape t0).
  { destruct outs as [|t ts]; [done|]. injection Hfirst as ->.
    apply (shape_imap2 (λ b k, _)). }
  assert (Hlen : length (sum_dim0 (mul_masks outs masks)) = length t0).
  { apply shape_length. congruence. }
  apply tensor_ext.
  - rewrite shape_zip_vdiv; [congruence|].
    rewrite Hlen. apply Nat.nlt_ge. intros Hlt.
    destruct t0 as [|s0 t0'] eqn:Ht0; [simpl in Hlt; lia|].
    pose proof (clamp_dead_lookup _ _ masks (length t0') Hshape Hn
                  ltac:(simpl; lia)) as Hl.
    apply lookup_lt_Some in Hl. simpl in Hlt. lia.
  - intros b row k x Hrow Hx.
    assert (Hb : b < length t0).
    { apply lookup_lt_Some in Hrow.
      rewrite <-(shape_length _ _ Hmean). done. }
    rewrite (entry_zip_vdiv _ _ _ _ _
               (clamp_dead_lookup _ _ masks b Hshape Hn Hb)).
    rewrite Hsent, Hments.
    destruct outs as [|t ts]; [done|].
    by rewrite (lookup_imap2 (λ b k, _) _ _ _ _ _ Hrow Hx).
Qed.
End join_training.

Lemma Qc_1_neq_0 : 1%Qc ≠ 0%Qc.
Proof. intros H. apply (f_equal this) in H. discriminate. Qed.

(** ** join on floats and on rationals agree on finite values *)

Lemma fshape_embed t : fshape (embed t) = shape t.
Proof.
  unfold fshape, shape, embed. rewrite <-list_fmap_compose.
  apply list_fmap_ext. intros _ s _. simpl. apply length_fmap.
Qed.

Lemma zip_with_hom {A B C A' B' C'} (F : A' → B' → C') (G : A → B → C)
    (ha : A → A') (hb : B → B') (hc : C → C') l k :
  (∀ x y, F (ha x) (hb y) = hc (G x y)) →
  zip_with F (ha <$> l) (hb <$> k) = hc <$> zip_with G l k.
Proof.
  intros Hh. revert k. induction l as [|x l IH]; intros [|y k]; [done..|].
  cbn [fmap list_fmap zip_with]. by rewrite Hh, <-IH.
Qed.

Lemma torch_stack_fl_embed outs w :
  torch_stack_fl (embed <$> outs) w
  = match torch_stack outs w with
    | Ok o w' => Ok (embed <$> o) w'
    | Raise e => Raise e
    end.
Proof.
  destruct outs as [|t ts]; [done|].
  rewrite fmap_cons. unfold torch_stack_fl, torch_stack.
  assert (Hall : forallb (λ t', bool_decide (fshape t' = fshape (embed t)))
                         (embed <$> ts)
                 = forallb (λ t', bool_decide (shape t' = shape t)) ts).
  { induction ts as [|t' ts IH]; [done|]. rewrite fmap_cons.
    cbn [forallb]. by rewrite IH, !fshape_embed. }
  rewrite Hall. by destruct (forallb _ ts).
Qed.

Lemma ftadd_embed s t :
  zip_with (zip_with fadd) (embed s) (embed t) = embed (tadd s t).
Proof.
  unfold embed, tadd. apply zip_with_hom. intros u v.
  unfold vadd. by apply zip_with_hom.
Qed.

Lemma fsum_dim0_embed ms : fsum_dim0 (embed <$> ms) = embed (sum_dim0 ms).
Proof.
  destruct ms as [|t ts]; [done|]. rewrite fmap_cons.
  unfold fsum_dim0, sum_dim0.
  revert t. induction ts as [|t' ts IH]; intros t; [done|].
  rewrite fmap_cons. cbn [foldl]. by rewrite ftadd_embed, IH.
Qed.

Lemma fmul_masks_embed outs masks :
  fmul_masks (embed <$> outs) masks = embed <$> mul_masks outs masks.
Proof.
  unfold fmul_masks, mul_masks.
  rewrite <-(list_fmap_id masks) at 1. apply zip_with_hom. intros o mrow.
  unfold embed. rewrite <-(list_fmap_id mrow) at 1. apply zip_with_hom.
  intros v a. simpl. rewrite <-!list_fmap_compose. by apply list_fmap_ext.
Qed.

Lemma fvdiv_embed v a :
  a ≠ 0%Qc → fvdiv (Fin <$> v) a = Fin <$> vdiv v a.
Proof.
  intros Ha. unfold fvdiv, vdiv. rewrite <-!list_fmap_compose.
  apply list_fmap_ext. intros _ x _. simpl.
  by rewrite bool_decide_eq_false_2.
Qed.

Lemma zip_fvdiv_embed s ns :
  Forall (λ a, a ≠ 0%Qc) ns →
  zip_with fvdiv (embed s) ns = embed (zip_with vdiv s ns).
Proof.
  intros Hns. revert s. induction Hns as [|a ns Ha _ IH]; intros [|v s];
    [done..|].
  unfold embed in *. rewrite fmap_cons. cbn [zip_with].
  by rewrite fvdiv_embed, IH, fmap_cons.
Qed.

Lemma clamp_dead_nonzero l : Forall (λ a, a ≠ 0%Qc) (clamp_dead l).
Proof.
  unfold clamp_dead. apply Forall_fmap, list.Forall_forall. intros a _. simpl.
  case_bool_decide as Ha; [|done]. apply Qc_1_neq_0.
Qed.

Lemma Qc_of_nat_pos_neq_0 n : 0 < n → Qc_of_nat n ≠ 0%Qc.
Proof.
  intros Hn H. apply (f_equal this) in H.
  unfold Qc_of_nat, Qc_of_Z, Q2Qc in H. cbn [this] in H.
  assert (Heq : (inject_Z (Z.of_nat n) == 0)%Q).
  { rewrite <-(Qred_correct (inject_Z (Z.of_nat n))), H. reflexivity. }
  unfold Qeq in Heq. simpl in Heq. lia.
Qed.

(** On finite path outputs [join_fl] computes what [join] computes, in
    either mode and whatever the outcome. *)
Lemma join_fl_finite self outs global_cols w :
  join_fl self (embed <$> outs) global_cols w
  = match join self outs global_cols w with
    | Ok t w' => Ok (embed t) w'
    | Raise e => Raise e
    end.
Proof.
  unfold join_fl, join. rewrite !bind_unfold, torch_stack_fl_embed.
  destruct (torch_stack outs w) as [o ws|e] eqn:Hstack; [|done].
  assert (o = outs ∧ ws = w ∧ 0 < length outs) as (-> & -> & Hn).
  { unfold torch_stack in Hstack. destruct outs as [|t ts]; [done|].
    destruct (forallb _ ts); [|done]. injection Hstack as <- <-.
    split_and!; [done..|]. simpl. lia. }
  rewrite length_fmap.
  destruct (training self).
  - rewrite !bind_unfold. unfold getitem. rewrite list_lookup_fmap.
    destruct (outs !! 0) as [t0|]; [|done]. cbn [fmap option_fmap option_map].
    cbn [mret M_ret].
    replace (length (embed t0)) with (length t0)
      by (unfold embed; by rewrite length_fmap).
    rewrite !bind_unfold.
    destruct (drop_mask self (length t0) global_cols (length outs) w)
      as [masks w'|e]; [|done].
    cbn [mret M_ret]. f_equal.
    rewrite fmul_masks_embed, fsum_dim0_embed.
    apply zip_fvdiv_embed, clamp_dead_nonzero.
  - cbn [mret M_ret]. f_equal. rewrite fsum_dim0_embed.
    unfold embed. rewrite <-!list_fmap_compose. apply list_fmap_ext.
    intros _ s _. simpl. by apply fvdiv_embed, Qc_of_nat_pos_neq_0.
Qed.





(** ** What a computation adds to the trace *)

Lemma emits_ret {A} Q (a : A) : emits Q (mret a).
Proof.
  intros w a' w' [= <- <-]. exists []. by rewrite app_nil_r.
Qed.

Lemma emits_raise {A} Q e : emits Q (raise (A := A) e).
Proof. by intros w a w' ?. Qed.

Lemma emits_bind {A B} Q (m : M A) (f : A → M B) :
  emits Q m → (∀ a, emits Q (f a)) → emits Q (m ≫= f).
Proof.
  intros Hm Hf w b w'' (a & w' & H1 & H2)%bind_Ok_inv.
  destruct (Hm _ _ _ H1) as (e1 & He1 & HQ1).
  destruct (Hf _ _ _ _ H2) as (e2 & He2 & HQ2).
  exists (e1 ++ e2). split; [by rewrite He2, He1, app_assoc|].
  by apply Forall_app.
Qed.

Lemma emits_log Q ev : Q ev → emits Q (log ev).
Proof.
  intros HQ w a w' [= <- <-]. exists [ev]. split; [done|]. by constructor.
Qed.

Lemma emits_getitem {A} Q (l : list A) i : emits Q (getitem l i).
Proof.
  unfold getitem. destruct (l !! i); [apply emits_ret|apply emits_raise].
Qed.

Lemma emits_draw Q k : emits Q (draw k).
Proof.
  intros w a w' [= <- <-]. exists []. by rewrite app_nil_r.
Qed.

Lemma emits_mapM {A B} Q (f : A → M B) l :
  (∀ x, emits Q (f x)) → emits Q (mapM f l).
Proof.
  intros Hf. induction l as [|x l IH]; [apply emits_ret|].
  cbn [mapM]. apply emits_bind; [done|]. intros y.
  apply emits_bind; [done|]. intros k. apply emits_ret.
Qed.

Lemma emits_foldlM {A S} Q (body : S → A → M S) l : ∀ s,
  (∀ s x, emits Q (body s x)) → emits Q (foldlM body s l).
Proof.
  induction l as [|x l IH]; intros s Hbody; [apply emits_ret|].
  cbn [foldlM]. apply emits_bind; [done|]. intros s'. by apply IH.
Qed.

Lemma emits_random_binomial1 Q q n m : emits Q (random_binomial1 q n m).
Proof.
  unfold random_binomial1.
  destruct (negb _); [apply emits_raise|].
  destruct (_ <? _)%Z; [apply emits_raise|].
  apply emits_bind; [apply emits_draw|]. intros us. apply emits_ret.
Qed.

Lemma emits_random_randint Q low high k : emits Q (random_randint low high k).
Proof.
  unfold random_randint.
  destruct (_ <=? _)%Z; [apply emits_raise|].
  destruct (_ <? _)%Z; [apply emits_raise|].
  apply emits_bind; [apply emits_draw|]. intros us. apply emits_ret.
Qed.

Lemma emits_setitems2 Q a rs ks v : emits Q (setitems2 a rs ks v).
Proof.
  unfold setitems2. apply emits_foldlM. intros a' [r k]. unfold setitem2.
  destruct (_ || _); [apply emits_raise|].
  apply emits_bind; [apply emits_getitem|]. intros row.
  destruct (bool_decide _); [apply emits_ret|apply emits_raise].
Qed.

Create HintDb emits.
#[local] Hint Resolve emits_ret emits_raise emits_getitem emits_draw
  emits_random_binomial1 emits_random_randint emits_setitems2 : emits.

(** Walks through a sequence of binds, closing each step with the hints. *)
Ltac emits_steps :=
  repeat first
    [ solve [eauto with emits]
    | apply emits_bind; [|intros ?]
    | apply emits_mapM; intros ?
    | apply emits_foldlM; intros ? ? ].

(** [drop_mask] and [join] log nothing. *)
Lemma emits_drop_mask Q self B global_cols n_cols :
  emits Q (drop_mask self B global_cols n_cols).
Proof.
  unfold drop_mask. emits_steps.
  destruct (round_b64 (1 - p_local_drop self)); eauto with emits.
Qed.

#[local] Hint Resolve emits_drop_mask : emits.

Lemma emits_join Q self outs global_cols : emits Q (join self outs global_cols).
Proof.
  unfold join. apply emits_bind.
  { unfold torch_stack. destruct outs; [apply emits_raise|].
    destruct (forallb _ _); [apply emits_ret|apply emits_raise]. }
  intros out. destruct (training self); emits_steps.
Qed.

#[local] Hint Resolve emits_join : emits.

Lemma emits_forward_depth self global_cols deepest outs i :
  emits inner_event (forward_depth self global_cols deepest outs i).
Proof.
  unfold forward_depth. apply emits_bind.
  { unfold start_col. apply emits_bind; [apply emits_getitem|].
    intros cnt. apply emits_ret. }
  intros st. apply emits_bind.
  { apply emits_mapM. intros c.
    apply emits_bind; [apply emits_getitem|]. intros cur_in.
    apply emits_bind; [apply emits_getitem|]. intros col.
    apply emits_bind; [apply emits_getitem|]. intros cur_module.
    unfold call_module. destruct cur_module; [|apply emits_raise].
    apply emits_bind; [by apply emits_log|]. intros _. apply emits_ret. }
  intros cur_outs. apply emits_bind; [apply emits_join|].
  intros joined. apply emits_ret.
Qed.

Lemma emits_forward self x global_cols deepest :
  emits inner_event (forward self x global_cols deepest).
Proof.
  unfold forward. apply emits_bind.
  { destruct (doubler self); [|apply emits_ret].
    apply emits_bind; [by apply emits_log|]. intros _. apply emits_ret. }
  intros out. apply emits_bind; [|intros; apply emits_getitem].
  apply emits_foldlM. intros. apply emits_forward_depth.
Qed.

(** ** One depth level of forward *)

Lemma mapM_Ok_inv {A B} (f : A → M B) l : ∀ w r w',
  mapM f l w = Ok r w' →
  Forall2 (λ x y, ∃ wa wb, f x wa = Ok y wb) l r.
Proof.
  induction l as [|x l IH]; intros w r w' Hrun.
  - injection Hrun as <- _. constructor.
  - cbn [mapM] in Hrun.
    apply bind_Ok_inv in Hrun as (y & wy & Hy & Hrun).
    apply bind_Ok_inv in Hrun as (k & wk & Hk & Hrun).
    injection Hrun as <- _. constructor; [eauto|]. by eapply IH.
Qed.

(** [for c in range(st, st + len): outs[c] = v] *)
Lemma assign_range {A} (v : A) len : ∀ st (outs : list A),
  let outs' := foldl (λ o c, <[c := v]> o) outs (seq st len) in
  length outs' = length outs
  ∧ (∀ c, st ≤ c < st + len → c < length outs → outs' !! c = Some v)
  ∧ (∀ c, ¬ (st ≤ c < st + len) → outs' !! c = outs !! c).
Proof.
  induction len as [|len IH]; intros st outs; simpl.
  - split_and!; [done|lia|done].
  - destruct (IH (S st) (<[st := v]> outs)) as (Hlen & Hin & Hout).
    rewrite length_insert in Hlen, Hin. split_and!; [done| |].
    + intros c Hc Hlt. destruct (decide (c = st)) as [->|Hne].
      * rewrite Hout by lia. by apply list_lookup_insert_eq.
      * apply Hin; lia.
    + intros c Hc. rewrite Hout by lia. apply list_lookup_insert_ne. lia.
Qed.

(** C2 (as amended).  Without [deepest], at depth [i] the joined result
    of the active paths becomes the running output of exactly the
    columns active at that depth, [n_columns - count[i] .. n_columns - 1];
    every other column keeps the running output it had.  (The first
    hypothesis is the invariant of constructed blocks, [count_in_range].) *)
Theorem joined_assigned_to_active_columns
    self global_cols outs i w outs' w' :
  Forall (λ cnt, cnt ≤ n_columns self) (count self) →
  length outs = n_columns self →
  forward_depth self global_cols false outs i w = Ok outs' w' →
  ∃ cnt cur_outs joined wj,
    count self !! i = Some cnt
    ∧ Forall2 (λ c y, ∃ cb cur_in,
                 cell self c i = Some (Some cb) ∧ outs !! c = Some cur_in
                 ∧ y = cb_forward cb cur_in)
              (seq (n_columns self - cnt)
                   (n_columns self - (n_columns self - cnt))) cur_outs
    ∧ join self cur_outs global_cols wj = Ok joined w'
    ∧ length outs' = n_columns self
    ∧ (∀ c, n_columns self - cnt ≤ c < n_columns self →
         outs' !! c = Some joined)
    ∧ (∀ c, c < n_columns self - cnt → outs' !! c = outs !! c).
Proof.
  intros _ Hlen Hrun. unfold forward_depth in Hrun.
  apply bind_Ok_inv in Hrun as (st & ws & Hst & Hrun).
  unfold start_col in Hst.
  apply bind_Ok_inv in Hst as (cnt & wc & Hcnt & Hst).
  apply getitem_Ok_inv in Hcnt as [Hcnt ->]. injection Hst as <- <-.
  apply bind_Ok_inv in Hrun as (cur_outs & wm & Hmap & Hrun).
  apply bind_Ok_inv in Hrun as (joined & wj & Hjoin & Hrun).
  injection Hrun as <- <-.
  set (st := n_columns self - cnt) in *.
  destruct (assign_range joined (n_columns self - st) st outs)
    as (Hl & Hin & Hout).
  exists cnt, cur_outs, joined, wm. split_and!; [done| |done|lia| |].
  - apply mapM_Ok_inv in Hmap.
    eapply list.Forall2_impl; [exact Hmap|]. simpl.
    intros c y (wa & wb & Hbody).
    apply bind_Ok_inv in Hbody as (cur_in & w1 & Hin1 & Hbody).
    apply getitem_Ok_inv in Hin1 as [Hin1 ->].
    apply bind_Ok_inv in Hbody as (col & w2 & Hcol & Hbody).
    apply getitem_Ok_inv in Hcol as [Hcol ->].
    apply bind_Ok_inv in Hbody as (cur_module & w3 & Hmod & Hbody).
    apply getitem_Ok_inv in Hmod as [Hmod ->].
    unfold call_module in Hbody. destruct cur_module as [cb|]; [|done].
    apply bind_Ok_inv in Hbody as (u & w4 & _ & Hbody). injection Hbody as <- _.
    exists cb, cur_in. split_and!; [|done..].
    unfold cell. by rewrite Hcol.
  - intros c Hc. apply Hin; lia.
  - intros c Hc. apply Hout. lia.
Qed.

Lemma joined_assigned_to_active_columns_witness :
  ∃ outs' w',
    forward_depth (block2 false) [] false [ [[0%Qc]]; [[0%Qc]] ] 0 w0
      = Ok outs' w'
    ∧ ∃ cnt cur_outs joined wj,
        count (block2 false) !! 0 = Some cnt
        ∧ Forall2 (λ c y, ∃ cb cur_in,
                     cell (block2 false) c 0 = Some (Some cb)
                     ∧ [ [[0%Qc]]; [[0%Qc]] ] !! c = Some cur_in
                     ∧ y = cb_forward cb cur_in)
                  (seq (2 - cnt) (2 - (2 - cnt))) cur_outs
        ∧ join (block2 false) cur_outs [] wj = Ok joined w'
        ∧ length outs' = 2
        ∧ (∀ c, 2 - cnt ≤ c < 2 → outs' !! c = Some joined)
        ∧ (∀ c, c < 2 - cnt → outs' !! c = [ [[0%Qc]]; [[0%Qc]] ] !! c).
Proof.
  eexists _, _. split; [vm_compute; reflexivity|].
  apply (joined_assigned_to_active_columns
           (block2 false) [] [ [[0%Qc]]; [[0%Qc]] ] 0 w0).
  - repeat constructor.
  - reflexivity.
  - vm_compute; reflexivity.
Defined.

(** C2 as stated fails: after depth 0 of a two-column block, column 0,
    inactive at that depth, still holds the block input and not the
    joined value that column 1 received. *)
Lemma joined_assigned_to_active_columns_counterexample :
  ∃ outs' w',
    forward_depth (block2 false) [] false [ [[0%Qc]]; [[0%Qc]] ] 0 w0
      = Ok outs' w'
    ∧ outs' !! 0 = Some [[0%Qc]]
    ∧ outs' !! 1 = Some [[Q2Qc 1]]
    ∧ ¬ ∃ joined, ∀ c, c < n_columns (block2 false) → outs' !! c = Some joined.
Proof.
  eexists _, _. split; [vm_compute; reflexivity|].
  split; [reflexivity|].
  split; [simpl; do 3 f_equal; by apply Qc_is_canon|].
  intros [joined Hall].
  pose proof (Hall 0 ltac:(simpl; lia)) as H0.
  pose proof (Hall 1 ltac:(simpl; lia)) as H1.
  rewrite <-H0 in H1. simpl in H1. injection H1 as H1. discriminate.
Qed.

(** ** forward with deepest *)

Lemma block2_constructed : block_of 2 false = Some (block2 true).
Proof. reflexivity. Qed.

(** With [deepest], a depth level only rewrites the last column. *)
Lemma forward_depth_deepest_keeps_first self global_cols outs i w outs' w' :
  2 ≤ n_columns self →
  forward_depth self global_cols true outs i w = Ok outs' w' →
  outs' !! 0 = outs !! 0.
Proof.
  intros Hn Hrun. unfold forward_depth in Hrun.
  apply bind_Ok_inv in Hrun as (st & ws & Hst & Hrun).
  unfold start_col in Hst.
  apply bind_Ok_inv in Hst as (cnt & wc & _ & Hst). injection Hst as <- _.
  apply bind_Ok_inv in Hrun as (cur_outs & wm & _ & Hrun).
  apply bind_Ok_inv in Hrun as (joined & wj & _ & Hrun).
  injection Hrun as <- _.
  apply assign_range. lia.
Qed.

Lemma forward_deepest_loop_keeps_first self global_cols depths :
  ∀ outs w outs' w',
  2 ≤ n_columns self →
  foldlM (forward_depth self global_cols true) outs depths w = Ok outs' w' →
  outs' !! 0 = outs !! 0.
Proof.
  induction depths as [|i depths IH]; intros outs w outs' w' Hn Hrun.
  - by injection Hrun as <- _.
  - cbn [foldlM] in Hrun.
    apply bind_Ok_inv in Hrun as (outs1 & ws & Hstep & Hrun).
    rewrite (IH _ _ _ _ Hn Hrun).
    by eapply forward_depth_deepest_keeps_first.
Qed.

(** Consequence of [return outs[0]]: with two or more columns, a
    [deepest] pass hands back what entered depth level 0. *)
Lemma forward_deepest_returns_input self x global_cols w out w' :
  2 ≤ n_columns self →
  forward self x global_cols true w = Ok out w' →
  out = match doubler self with Some d => cb_forward d x | None => x end.
Proof.
  intros Hn Hrun. unfold forward in Hrun.
  apply bind_Ok_inv in Hrun as (out0 & wd & Hd & Hrun).
  apply bind_Ok_inv in Hrun as (outs' & wl & Hloop & Hget).
  apply getitem_Ok_inv in Hget as [Hget _].
  rewrite (forward_deepest_loop_keeps_first _ _ _ _ _ _ _ Hn Hloop) in Hget.
  rewrite lookup_replicate_2 in Hget by lia. injection Hget as <-.
  destruct (doubler self) as [d|].
  - apply bind_Ok_inv in Hd as (u & wu & _ & Hd). by injection Hd as <- _.
  - by injection Hd as <- _.
Qed.

(** C1 at a failing input.  On the two-column block with leaves [x + 1],
    in either mode, a [deepest] pass over the input [[[0]]] applies one
    leaf of the deepest column per depth level and leaves [[[2]]] as the
    running output of that column, yet returns the input [[[0]]]. *)
Theorem deepest_forward_returns_block_input (mode : bool) :
  ∃ outs' w',
    foldlM (forward_depth (block2 mode) [] true)
           (replicate 2 [[0%Qc]]) (seq 0 2) w0 = Ok outs' w'
    ∧ trace w' = [EvLeaf 1 0; EvLeaf 1 1]
    ∧ fmap (M := list) (fmap (M := list) this) <$> outs' !! 1 = Some [[2%Q]]
    ∧ forward (block2 mode) [[0%Qc]] [] true w0 = Ok [[0%Qc]] w'.
Proof.
  destruct mode; eexists _, _; (split; [vm_compute; reflexivity|]);
    split_and!; reflexivity.
Qed.

(** ** Runs that do not depend on the random source *)

Lemma sim_ret {A} (R : A → A → Prop) a b : R a b → sim R (mret a) (mret b).
Proof. by intros HR w1 w2. Qed.

Lemma sim_raise {A} (R : A → A → Prop) e : sim R (raise e) (raise e).
Proof. by intros w1 w2. Qed.

Lemma sim_bind {A B} (R : A → A → Prop) (S : B → B → Prop)
    (m1 m2 : M A) (f1 f2 : A → M B) :
  sim R m1 m2 → (∀ a b, R a b → sim S (f1 a) (f2 b)) →
  sim S (m1 ≫= f1) (m2 ≫= f2).
Proof.
  intros Hm Hf w1 w2. rewrite !bind_unfold. specialize (Hm w1 w2).
  destruct (m1 w1) as [a wa|e1], (m2 w2) as [b wb|e2]; try done.
  by apply Hf.
Qed.

Lemma sim_getitem {A} (l : list A) i : sim eq (getitem l i) (getitem l i).
Proof.
  unfold getitem. destruct (l !! i); [by apply sim_ret|apply sim_raise].
Qed.

Lemma sim_log ev1 ev2 : sim eq (log ev1) (log ev2).
Proof. by intros w1 w2. Qed.

Lemma sim_mapM {A B} (f g : A → M B) l :
  (∀ x, sim eq (f x) (g x)) → sim eq (mapM f l) (mapM g l).
Proof.
  intros Hfg. induction l as [|x l IH]; [by apply sim_ret|].
  cbn [mapM]. eapply sim_bind; [apply Hfg|]. intros y ? <-.
  eapply sim_bind; [apply IH|]. intros k ? <-. by apply sim_ret.
Qed.

Lemma sim_foldlM {A S} (R : S → S → Prop) (body1 body2 : S → A → M S) l :
  ∀ s1 s2,
  (∀ s1 s2 x, x ∈ l → R s1 s2 → sim R (body1 s1 x) (body2 s2 x)) →
  R s1 s2 → sim R (foldlM body1 s1 l) (foldlM body2 s2 l).
Proof.
  induction l as [|x l IH]; intros s1 s2 Hbody HR; [by apply sim_ret|].
  cbn [foldlM]. eapply sim_bind.
  - apply Hbody; [by left|done].
  - intros s1' s2' HR'. apply IH; [|done].
    intros ??? Hin. apply Hbody. by right.
Qed.

(** Whether [randint] raises depends on its arguments only. *)
Lemma sim_random_randint low high k :
  sim (λ _ _, True) (random_randint low high k) (random_randint low high k).
Proof.
  unfold random_randint.
  destruct (_ <=? _)%Z; [apply sim_raise|].
  destruct (_ <? _)%Z; [apply sim_raise|]. by intros w1 w2.
Qed.

Section inference.
Context (self : FractalBlock).
Hypothesis Heval : training self = false.

(** In inference mode no mask is generated: [join] ignores both the
    global choices and the random source. *)
Lemma sim_join outs g1 g2 : sim eq (join self outs g1) (join self outs g2).
Proof.
  unfold join. rewrite Heval. apply (sim_bind eq).
  - unfold torch_stack. destruct outs; [apply sim_raise|].
    destruct (forallb _ _); [by apply sim_ret|apply sim_raise].
  - intros out ? <-. by apply sim_ret.
Qed.

Lemma sim_forward_depth g1 g2 deepest outs i :
  sim eq (forward_depth self g1 deepest outs i)
         (forward_depth self g2 deepest outs i).
Proof.
  unfold forward_depth. apply (sim_bind eq).
  { unfold start_col. eapply sim_bind; [apply sim_getitem|].
    intros cnt ? <-. by apply sim_ret. }
  intros st ? <-. apply (sim_bind eq).
  { apply sim_mapM. intros c.
    eapply sim_bind; [apply sim_getitem|]. intros cur_in ? <-.
    eapply sim_bind; [apply sim_getitem|]. intros col ? <-.
    eapply sim_bind; [apply sim_getitem|]. intros cur_module ? <-.
    unfold call_module. destruct cur_module; [|apply sim_raise].
    eapply sim_bind; [apply sim_log|]. intros _ _ _. by apply sim_ret. }
  intros cur_outs ? <-. eapply sim_bind; [apply sim_join|].
  intros joined ? <-. by apply sim_ret.
Qed.

Lemma sim_forward x g1 g2 deepest :
  sim eq (forward self x g1 deepest) (forward self x g2 deepest).
Proof.
  unfold forward. apply (sim_bind eq).
  { destruct (doubler self); [|by apply sim_ret].
    eapply sim_bind; [apply sim_log|]. intros _ _ _. by apply sim_ret. }
  intros out ? <-. apply (sim_bind eq); [|intros outs ? <-; apply sim_getitem].
  apply sim_foldlM; [|done]. intros outs ? i _ <-. apply sim_forward_depth.
Qed.
End inference.

Lemma sim_net_layer net GB deepest s1 s2 layer :
  match layer with LBlock fb => training fb = false | LOther _ => True end →
  same_out s1 s2 →
  sim same_out (net_layer net GB deepest s1 layer)
               (net_layer net GB deepest s2 layer).
Proof.
  intros Heval [Hout Hgc]. destruct s1 as [out g1], s2 as [? g2].
  simpl in Hout, Hgc. subst. unfold net_layer.
  destruct layer as [fb|f]; [|by apply sim_ret].
  eapply (sim_bind (λ _ _, True)).
  - assert (Hsample : sim (λ _ _ : list Z, True)
      (g ← random_randint 0 (Z.of_nat (net_n_columns net)) GB;
       _ ← log (EvSample g); mret g)
      (g ← random_randint 0 (Z.of_nat (net_n_columns net)) GB;
       _ ← log (EvSample g); mret g)).
    { eapply sim_bind; [apply sim_random_randint|]. intros ga gb _.
      eapply sim_bind; [apply sim_log|]. intros _ _ _. by apply sim_ret. }
    destruct g1 as [ga|], g2 as [gb|].
    + destruct (negb _); [done|by apply sim_ret].
    + by pose proof (proj2 Hgc eq_refl).
    + by pose proof (proj1 Hgc eq_refl).
    + done.
  - intros ga gb _. eapply sim_bind; [apply sim_log|]. intros _ _ _.
    eapply sim_bind; [by apply sim_forward|]. intros o ? <-.
    by apply sim_ret.
Qed.

Lemma net_training_false net fb :
  net_training net = false → LBlock fb ∈ layers net → training fb = false.
Proof.
  unfold net_training. intros Hall Hin.
  destruct (training fb) eqn:Htr; [|done].
  rewrite <-Hall. symmetry. apply existsb_exists.
  exists (LBlock fb). split; [by apply list_elem_of_In|done].
Qed.

Lemma sim_global_batch net x : sim eq (global_batch net x) (global_batch net x).
Proof.
  unfold global_batch. destruct (_ ≫= _); [by apply sim_ret|apply sim_raise].
Qed.

(** C9.  In inference mode [FractalNet.forward] is a function of its
    input and parameters only: two runs on the same input from any two
    states of the random source return the same output (or fail alike). *)
Theorem inference_is_deterministic net x deepest wa wb :
  net_training net = false →
  returned (net_forward net x deepest wa)
    = returned (net_forward net x deepest wb).
Proof.
  intros Heval.
  assert (Hsim : sim eq (net_forward net x deepest) (net_forward net x deepest)).
  { unfold net_forward. apply (sim_bind eq); [apply sim_global_batch|].
    intros GB ? <-. eapply sim_bind.
    - apply (sim_foldlM same_out); [|done].
      intros s1 s2 layer Hin Hs. apply sim_net_layer; [|done].
      destruct layer as [fb|f]; [|done]. by eapply net_training_false.
    - intros [o1 g1] [o2 g2] [Ho _]. simpl in Ho. subst. by apply sim_ret. }
  specialize (Hsim wa wb). unfold res_rel in Hsim.
  destruct (net_forward net x deepest wa), (net_forward net x deepest wb);
    simpl; try done. by f_equal.
Qed.

Lemma inference_is_deterministic_witness :
  net_training (net2 false false) = false
  ∧ returned (net_forward (net2 false false) [[0%Qc]; [1%Qc]] false w0)
      = returned (net_forward (net2 false false) [[0%Qc]; [1%Qc]] false w0')
  ∧ is_Some (returned (net_forward (net2 false false) [[0%Qc]; [1%Qc]] false w0)).
Proof.
  split; [reflexivity|]. split.
  - apply (inference_is_deterministic (net2 false false)). reflexivity.
  - vm_compute. by eexists.
Defined.

(** ** How the network samples its global choices *)

Lemma int_of_Q_floor (q : Q) : (0 <= q)%Q → int_of_Q q = Qfloor q.
Proof.
  destruct q as [n d]. unfold Qle, int_of_Q, Qfloor. simpl. intros Hn.
  apply Z.quot_div_nonneg; lia.
Qed.




Lemma n_blocks_block fb ls : n_blocks (LBlock fb :: ls) = S (n_blocks ls).
Proof. reflexivity. Qed.

Lemma n_blocks_other f ls : n_blocks (LOther f :: ls) = n_blocks ls.
Proof. reflexivity. Qed.








(** [GB] is the floor of the float product. *)
Lemma global_batch_inv net x w GB w1 :
  (0 <= gdrop_ratio net)%Q →
  global_batch net x w = Ok GB w1 →
  w1 = w
  ∧ ∃ B prod,
      round_b64 (inject_Z (Z.of_nat (length x))) = Some B
      ∧ round_b64 (B * gdrop_ratio net) = Some prod
      ∧ (0 <= B)%Q ∧ (0 <= prod)%Q
      ∧ GB = Qfloor prod.
Proof.
  intros Hratio. unfold global_batch.
  destruct (round_b64 (inject_Z _)) as [B|] eqn:HB; [|done]. simpl.
  destruct (round_b64 (B * _)) as [prod|] eqn:Hprod; [|done].
  intros [= <- <-]. split; [done|]. exists B, prod.
  assert (HB0 : (0 <= B)%Q).
  { apply (round_b64_nonneg (inject_Z (Z.of_nat (length x))) B); [|done].
    unfold Qle. simpl. lia. }
  assert (Hp0 : (0 <= prod)%Q).
  { apply (round_b64_nonneg _ _ (Qmult_le_0_compat _ _ HB0 Hratio) Hprod). }
  split_and!; [done..|]. by apply int_of_Q_floor.
Qed.



(** The float product decides [GB]: for a batch of 10 and the float
    0.7 it is 7, where the exact product of 10 and the float's value
    lies below 7. *)
Example global_batch_rounds_the_product :
  global_batch
    (mkFractalNet false (3152519739159347 # 4503599627370496) 2 [])
    (replicate 10 []) w0 = Ok 7%Z w0
  ∧ Qfloor (inject_Z 10 * (3152519739159347 # 4503599627370496)) = 6%Z.
Proof. split; vm_compute; reflexivity. Qed.

(** The two policies on the same input and random source. *)
Example consistent_pass_trace :
  ∃ out w',
    net_forward (net2 true true) [[0%Qc]; [1%Qc]] false w0 = Ok out w'
    ∧ net_events (trace w') = [EvSample [0%Z]; EvBlock [0%Z]; EvBlock [0%Z]].
Proof. eexists _, _. split; [vm_compute; reflexivity|reflexivity]. Qed.

Example fresh_pass_trace :
  ∃ out w',
    net_forward (net2 false true) [[0%Qc]; [1%Qc]] false w0' = Ok out w'
    ∧ net_events (trace w')
        = [EvSample [0%Z]; EvBlock [0%Z]; EvSample [1%Z]; EvBlock [1%Z]].
Proof. eexists _, _. split; [vm_compute; reflexivity|reflexivity]. Qed.

(** * Further properties of the code *)

(** ** Loops that cannot fail *)

Lemma mapM_total {A B} (f : A → M B) (P : A → B → Prop) l :
  (∀ x w, x ∈ l → ∃ y w', f x w = Ok y w' ∧ P x y) →
  ∀ w, ∃ ys w', mapM f l w = Ok ys w' ∧ Forall2 P l ys.
Proof.
  induction l as [|x l IH]; intros Hf w.
  - exists [], w. split; [done|constructor].
  - destruct (Hf x w ltac:(by left)) as (y & wy & Hy & HP).
    destruct (IH ltac:(intros ?? Hin; apply Hf; by right) wy)
      as (ys & w' & Hys & Hall).
    exists (y :: ys), w'. cbn [mapM].
    rewrite (bind_Ok _ _ _ _ _ Hy), (bind_Ok _ _ _ _ _ Hys).
    split; [done|by constructor].
Qed.

Lemma foldlM_total {A S} (body : S → A → M S) (Inv : S → Prop) l :
  (∀ s x w, x ∈ l → Inv s → ∃ s' w', body s x w = Ok s' w' ∧ Inv s') →
  ∀ s w, Inv s → ∃ s' w', foldlM body s l w = Ok s' w' ∧ Inv s'.
Proof.
  induction l as [|x l IH]; intros Hbody s w Hs.
  - by exists s, w.
  - destruct (Hbody s x w ltac:(by left) Hs) as (s1 & ws & Hstep & Hs1).
    cbn [foldlM]. rewrite (bind_Ok _ _ _ _ _ Hstep).
    apply IH; [|done]. intros ??? Hin. apply Hbody. by right.
Qed.

(** ** join on a single path and on bad input *)

Lemma shape_masked_mean masks outs t0 :
  outs !! 0 = Some t0 → shape (masked_mean_of_paths masks outs) = shape t0.
Proof.
  intros H0. destruct outs as [|t ts]; [done|]. injection H0 as ->.
  apply (shape_imap2 (λ b k, _)).
Qed.

(** Under its preconditions, [join] returns a tensor of the shape of its
    inputs, in either mode. *)
Lemma join_total self outs t0 global_cols w :
  outs !! 0 = Some t0 →
  Forall (λ t, shape t = shape t0) outs →
  (training self = true →
     length global_cols ≤ length t0
     ∧ Forall (λ g, g < Z.of_nat (n_columns self))%Z global_cols
     ∧ (0 <= p_local_drop self)%Q ∧ (p_local_drop self <= 1)%Q) →
  ∃ t w', join self outs global_cols w = Ok t w' ∧ shape t = shape t0.
Proof.
  intros H0 Hall Htrain. destruct (training self) eqn:Hmode.
  - destruct (Htrain eq_refl) as (HGB & Hglobal & Hp).
    destruct (join_training_refines self outs t0 global_cols Hmode H0 Hall
                HGB Hglobal Hp w) as (masks & w' & _ & _ & _ & _ & Hjoin).
    eexists _, _. split; [exact Hjoin|]. by apply shape_masked_mean.
  - destruct (join_inference_refines self outs t0 global_cols w Hmode H0 Hall)
      as [Hjoin Hshape].
    by eexists _, _.
Qed.

(** ** forward on a constructed block *)

Section forward_total.
Context (n C_in C_out : nat) (p_drop : Q) (p_dropout : option Q)
        (pad_type : PadType) (doubling : bool).
Context (theta : nat → nat → Tensor → Tensor) (theta_d : Tensor → Tensor).
Context (blk : FractalBlock) (mode : bool).
Hypothesis Hinit :
  FractalBlock_init n C_in C_out p_drop p_dropout pad_type doubling
                    theta theta_d = Some blk.
(** Every leaf keeps the shape of its input. *)
Hypothesis Hleaf : ∀ c i t, shape (theta c i t) = shape t.

Abbreviation self := (set_training mode blk).

Lemma constructed_lookup c i :
  c < n → i < 2 ^ (n - 1) → scheduled n c i →
  ∃ col cb, columns blk !! c = Some col ∧ col !! i = Some (Some cb)
    ∧ cb_forward cb = theta c i.
Proof.
  intros Hc Hi Hs.
  destruct (FractalBlock_init_inv _ _ _ _ _ _ _ _ _ _ Hinit)
    as (_ & _ & _ & _ & _ & Hcols & _).
  eexists _, _. split_and!.
  - by rewrite Hcols, list_lookup_fmap, lookup_seq_lt.
  - rewrite list_lookup_fmap, lookup_seq_lt by done. simpl.
    unfold new_cell. apply scheduled_spec in Hs.
    by rewrite (proj2 (Nat.eqb_eq _ _) Hs).
  - done.
Qed.

(** The columns evaluated at depth [i] all hold a module there. *)
Lemma evaluated_columns_scheduled (deepest : bool) i k c :
  i < 2 ^ (n - 1) → count blk !! i = Some k →
  (if deepest then n - 1 else n - k) ≤ c < n → scheduled n c i.
Proof.
  intros Hi Hk Hc.
  destruct (FractalBlock_init_inv _ _ _ _ _ _ _ _ _ _ Hinit) as (Hn & _).
  destruct deepest.
  - replace c with (n - 1) by lia. by apply scheduled_last.
  - rewrite (count_init _ _ _ _ _ _ _ _ _ _ Hinit) in Hk by done.
    injection Hk as <-.
    apply (filter_upward_closed (λ c, scheduled n c i) n 0); [|lia..].
    intros ????. by apply scheduled_mono.
Qed.

Lemma forward_depth_total x0 global_cols (deepest : bool) outs i w :
  (mode = true →
     length global_cols ≤ length x0
     ∧ Forall (λ g, g < Z.of_nat n)%Z global_cols
     ∧ (0 <= p_drop)%Q ∧ (p_drop <= 1)%Q) →
  i < 2 ^ (n - 1) →
  length outs = n ∧ Forall (λ t, shape t = shape x0) outs →
  ∃ outs' w',
    forward_depth self global_cols deepest outs i w = Ok outs' w'
    ∧ length outs' = n ∧ Forall (λ t, shape t = shape x0) outs'.
Proof.
  intros Hmode Hi [Hlen Hshapes].
  destruct (FractalBlock_init_inv _ _ _ _ _ _ _ _ _ _ Hinit)
    as (Hn & Hncol & Hdepth & _ & Hpd & _ & _).
  pose proof (count_init _ _ _ _ _ _ _ _ _ _ Hinit i Hi) as Hcnt.
  set (k := length (filter (λ c, scheduled n c i) (seq 0 n))) in *.
  pose proof (count_bounds _ _ _ _ _ _ _ _ _ _ Hinit i k Hcnt) as Hk.
  unfold forward_depth, start_col. simpl.
  rewrite bind_unfold, (bind_Ok _ _ _ _ _ (getitem_Ok _ _ _ w Hcnt)), ret_Ok.
  rewrite Hncol. set (st := if deepest then n - 1 else n - k).
  assert (Hst : st < n) by (unfold st; destruct deepest; lia).
  assert (Hbody : ∀ c w0, c ∈ seq st (n - st) →
            ∃ y w', (cur_in ← getitem outs c;
                     col ← getitem (columns blk) c;
                     cur_module ← getitem col i;
                     call_module c i cur_module cur_in) w0 = Ok y w'
                    ∧ shape y = shape x0).
  { intros c w0 Hc%elem_of_seq.
    destruct (lookup_lt_is_Some_2 outs c ltac:(lia)) as [cur_in Hin].
    destruct (constructed_lookup c i ltac:(lia) Hi) as (col & cb & Hcol & Hcb & Hf).
    { apply (evaluated_columns_scheduled deepest i k); [done..|]. fold st. lia. }
    rewrite (bind_Ok _ _ _ _ _ (getitem_Ok _ _ _ w0 Hin)).
    rewrite (bind_Ok _ _ _ _ _ (getitem_Ok _ _ _ w0 Hcol)).
    rewrite (bind_Ok _ _ _ _ _ (getitem_Ok _ _ _ w0 Hcb)).
    eexists _, _. split; [reflexivity|]. rewrite Hf, Hleaf.
    by apply (proj1 (list.Forall_lookup _ _) Hshapes c). }
  destruct (mapM_total _ (λ (_ : nat) (y : Tensor), shape y = shape x0)
              _ Hbody w) as (cur_outs & wm & Hmap & Hcur).
  rewrite (bind_Ok _ _ _ _ _ Hmap).
  assert (Hclen : length cur_outs = n - st).
  { apply Forall2_length in Hcur. by rewrite length_seq in Hcur. }
  assert (Hcshape : Forall (λ t, shape t = shape x0) cur_outs).
  { apply list.Forall_forall. intros t Ht.
    apply list_elem_of_lookup in Ht as [j Hj].
    by destruct (Forall2_lookup_r _ _ _ _ _ Hcur Hj) as (c & _ & Ht). }
  destruct (lookup_lt_is_Some_2 cur_outs 0 ltac:(lia)) as [t0 Ht0].
  pose proof (proj1 (list.Forall_lookup _ _) Hcshape 0 t0 Ht0) as Hshape0.
  simpl in Hshape0.
  destruct (join_total self cur_outs t0 global_cols wm Ht0) as (joined & wj & Hjoin & Hj).
  { eapply list.Forall_impl; [exact Hcshape|]. simpl. congruence. }
  { simpl. intros ->. destruct (Hmode eq_refl) as (HGB & Hg & Hp0 & Hp1).
    rewrite Hncol, Hpd, (shape_length _ _ Hshape0). done. }
  rewrite (bind_Ok _ _ _ _ _ Hjoin), ret_Ok.
  destruct (assign_range joined (n - st) st outs) as (Hl & Hin & Hout).
  eexists _, _. split; [reflexivity|]. split; [lia|].
  apply list.Forall_forall. intros t Ht.
  apply list_elem_of_lookup in Ht as [c Hc].
  destruct (decide (st ≤ c < st + (n - st))) as [Hr|Hr].
  - rewrite Hin in Hc by (done || lia). injection Hc as <-. congruence.
  - rewrite Hout in Hc by done.
    by apply (proj1 (list.Forall_lookup _ _) Hshapes c).
Qed.
End forward_total.

Lemma FractalBlock_init_doubler
    n C_in C_out p_drop p_dropout pad_type doubling theta theta_d blk :
  FractalBlock_init n C_in C_out p_drop p_dropout pad_type doubling
                    theta theta_d = Some blk →
  doubler blk
    = if doubling then Some (ConvBlock_init C_in C_out 1 0 None zero theta_d)
      else None.
Proof.
  unfold FractalBlock_init. destruct (n =? 0); [done|].
  destruct (foldlO _ _ _) as [[[cols cnt] d]|]; [|done].
  by intros [= <-].
Qed.

(** X1.  On a constructed block whose leaves keep the shape of their
    input, [forward] returns, in either mode and with or without
    [deepest], a tensor of the shape that entered depth level 0; in
    training mode this needs global choices below [n_columns], at most
    one per sample, and [p_local_drop] in [[0, 1]]. *)
Theorem forward_returns_on_constructed_block
    n C_in C_out p_drop p_dropout pad_type doubling theta theta_d blk
    (mode deepest : bool) x global_cols w :
  FractalBlock_init n C_in C_out p_drop p_dropout pad_type doubling
                    theta theta_d = Some blk →
  (∀ c i t, shape (theta c i t) = shape t) →
  (mode = true →
     length global_cols ≤ length (if doubling then theta_d x else x)
     ∧ Forall (λ g, g < Z.of_nat n)%Z global_cols
     ∧ (0 <= p_drop)%Q ∧ (p_drop <= 1)%Q) →
  ∃ out w',
    forward (set_training mode blk) x global_cols deepest w = Ok out w'
    ∧ shape out = shape (if doubling then theta_d x else x).
Proof.
  intros Hinit Hleaf Hmode.
  destruct (FractalBlock_init_inv _ _ _ _ _ _ _ _ _ _ Hinit)
    as (Hn & Hncol & Hdepth & _).
  pose proof (FractalBlock_init_doubler _ _ _ _ _ _ _ _ _ _ Hinit) as Hdbl.
  set (x0 := if doubling then theta_d x else x) in *.
  unfold forward. simpl. rewrite Hdbl, Hncol, Hdepth.
  assert (Hd : ∃ wd,
    match (if doubling
           then Some (ConvBlock_init C_in C_out 1 0 None zero theta_d)
           else None) with
    | Some d => _ ← log EvDoubler; mret (cb_forward d x)
    | None => mret x
    end w = Ok x0 wd).
  { unfold x0. destruct doubling; by eexists. }
  destruct Hd as [wd Hd]. rewrite (bind_Ok _ _ _ _ _ Hd).
  destruct (foldlM_total
              (forward_depth (set_training mode blk) global_cols deepest)
              (λ outs, length outs = n ∧ Forall (λ t, shape t = shape x0) outs)
              (seq 0 (2 ^ (n - 1)))) with (s := replicate n x0) (w := wd)
    as (outs' & wl & Hloop & Hlen & Hshapes).
  { intros outs i w0 Hi%elem_of_seq Hinv.
    eapply forward_depth_total; eauto. lia. }
  { split; [apply length_replicate|]. by apply Forall_replicate. }
  rewrite (bind_Ok _ _ _ _ _ Hloop).
  destruct (lookup_lt_is_Some_2 outs' 0 ltac:(lia)) as [out Hout].
  exists out, wl. split; [by apply getitem_Ok|].
  by apply (proj1 (list.Forall_lookup _ _) Hshapes 0).
Qed.

Lemma forward_returns_on_constructed_block_witness :
  ∃ out w',
    forward (set_training true (block2 true)) [[0%Qc]; [1%Qc]] [1%Z] false w0
      = Ok out w'
    ∧ shape out = shape [[0%Qc]; [1%Qc]].
Proof.
  apply (forward_returns_on_constructed_block
           2 1 1 (1 # 2) None zero false (λ _ _, add_one) add_one
           (block2 true) true false [[0%Qc]; [1%Qc]] [1%Z] w0).
  - reflexivity.
  - intros c i t. unfold add_one, shape. rewrite <-list_fmap_compose.
    apply list_fmap_ext. intros _ s _. simpl. by rewrite length_fmap.
  - intros _. split_and!; [simpl; lia|repeat constructor|..];
      unfold Qle; simpl; lia.
Defined.

(** ** The exact trace of a pass through a block *)

Lemma emits_nothing {A} (m : M A) w a w' :
  emits (λ _, False) m → m w = Ok a w' → trace w' = trace w.
Proof.
  intros Hm Hrun. destruct (Hm _ _ _ Hrun) as (evs & -> & Hevs).
  destruct evs as [|ev evs]; [by rewrite app_nil_r|].
  by inversion Hevs.
Qed.

Lemma mapM_trace {A B} (f : A → M B) (ev : A → Event) l : ∀ w ys w',
  (∀ x w y w', f x w = Ok y w' → trace w' = trace w ++ [ev x]) →
  mapM f l w = Ok ys w' → trace w' = trace w ++ (ev <$> l).
Proof.
  induction l as [|x l IH]; intros w ys w' Hf Hrun.
  - injection Hrun as _ <-. by rewrite app_nil_r.
  - cbn [mapM] in Hrun.
    apply bind_Ok_inv in Hrun as (y & wy & Hy & Hrun).
    apply bind_Ok_inv in Hrun as (k & wk & Hk & Hrun).
    injection Hrun as _ <-.
    rewrite (IH _ _ _ Hf Hk), (Hf _ _ _ _ Hy), <-app_assoc. done.
Qed.

Lemma foldlM_trace {A S} (body : S → A → M S) (evs : A → list Event) l :
  ∀ s w s' w',
  (∀ s x w s' w', body s x w = Ok s' w' → trace w' = trace w ++ evs x) →
  foldlM body s l w = Ok s' w' → trace w' = trace w ++ (l ≫= evs).
Proof.
  induction l as [|x l IH]; intros s w s' w' Hbody Hrun.
  - injection Hrun as _ <-. by rewrite app_nil_r.
  - cbn [foldlM] in Hrun.
    apply bind_Ok_inv in Hrun as (s1 & ws & Hstep & Hrun).
    rewrite (IH _ _ _ _ Hbody Hrun), (Hbody _ _ _ _ _ Hstep), <-app_assoc.
    done.
Qed.

Lemma forward_depth_trace self global_cols deepest outs i w outs' w' :
  forward_depth self global_cols deepest outs i w = Ok outs' w' →
  trace w' = trace w ++ depth_leaves self deepest i.
Proof.
  intros Hrun. unfold forward_depth in Hrun.
  apply bind_Ok_inv in Hrun as (st & ws & Hst & Hrun).
  unfold start_col in Hst.
  apply bind_Ok_inv in Hst as (cnt & wc & Hcnt & Hst).
  apply getitem_Ok_inv in Hcnt as [Hcnt ->]. injection Hst as <- <-.
  apply bind_Ok_inv in Hrun as (cur_outs & wm & Hmap & Hrun).
  apply bind_Ok_inv in Hrun as (joined & wj & Hjoin & Hrun).
  injection Hrun as _ <-.
  rewrite (emits_nothing _ _ _ _ (emits_join _ _ _ _) Hjoin).
  unfold depth_leaves. rewrite Hcnt.
  apply (mapM_trace _ (λ c, EvLeaf c i) _ _ _ _) in Hmap; [done|].
  intros c w0 y w0' Hbody.
  apply bind_Ok_inv in Hbody as (cur_in & wa & Ha & Hbody).
  apply getitem_Ok_inv in Ha as [_ ->].
  apply bind_Ok_inv in Hbody as (col & wb & Hb & Hbody).
  apply getitem_Ok_inv in Hb as [_ ->].
  apply bind_Ok_inv in Hbody as (cur_module & wd & Hd & Hbody).
  apply getitem_Ok_inv in Hd as [_ ->].
  unfold call_module in Hbody. destruct cur_module; [|done].
  apply bind_Ok_inv in Hbody as (u & wl & Hlog & Hbody).
  injection Hlog as _ <-. by injection Hbody as _ <-.
Qed.

Lemma forward_trace self x global_cols deepest w out w' :
  forward self x global_cols deepest w = Ok out w' →
  trace w' = trace w ++ pass_events self deepest.
Proof.
  intros Hrun. unfold forward in Hrun.
  apply bind_Ok_inv in Hrun as (out0 & wd & Hd & Hrun).
  apply bind_Ok_inv in Hrun as (outs' & wl & Hloop & Hget).
  apply getitem_Ok_inv in Hget as [_ ->].
  apply (foldlM_trace _ (depth_leaves self deepest)) in Hloop;
    [|intros; by eapply forward_depth_trace].
  rewrite Hloop. unfold pass_events. rewrite app_assoc. f_equal.
  destruct (doubler self).
  - apply bind_Ok_inv in Hd as (u & wu & Hlog & Hd).
    injection Hlog as _ <-. by injection Hd as _ <-.
  - injection Hd as _ <-. by rewrite app_nil_r.
Qed.

Lemma join_empty self global_cols w : join self [] global_cols w = Raise RuntimeError.
Proof. reflexivity. Qed.

(** A depth level that returns has evaluated at least one column. *)
Lemma forward_depth_Ok_columns self global_cols deepest outs i w outs' w' :
  forward_depth self global_cols deepest outs i w = Ok outs' w' →
  1 ≤ n_columns self.
Proof.
  intros Hrun. unfold forward_depth in Hrun.
  apply bind_Ok_inv in Hrun as (st & ws & Hst & Hrun).
  apply bind_Ok_inv in Hrun as (cur_outs & wm & Hmap & Hrun).
  apply bind_Ok_inv in Hrun as (joined & wj & Hjoin & _).
  destruct (n_columns self) as [|n] eqn:Hn; [|lia].
  simpl in Hmap. injection Hmap as <- _. by rewrite join_empty in Hjoin.
Qed.

Lemma deepest_loop_events self global_cols d : ∀ a outs w outs' w',
  foldlM (forward_depth self global_cols true) outs (seq a d) w = Ok outs' w' →
  seq a d ≫= depth_leaves self true
    = EvLeaf (n_columns self - 1) <$> seq a d.
Proof.
  induction d as [|d IH]; intros a outs w outs' w' Hloop; [done|].
  cbn [seq foldlM] in Hloop.
  apply bind_Ok_inv in Hloop as (outs1 & ws & Hstep & Hloop).
  cbn [seq mbind list_bind fmap list_fmap].
  rewrite (IH _ _ _ _ _ Hloop). f_equal.
  pose proof (forward_depth_Ok_columns _ _ _ _ _ _ _ _ Hstep) as Hn.
  unfold forward_depth, start_col in Hstep.
  apply bind_Ok_inv in Hstep as (st & wst & Hst & _).
  apply bind_Ok_inv in Hst as (cnt & wc & Hcnt & _).
  apply getitem_Ok_inv in Hcnt as [Hcnt _].
  unfold depth_leaves. rewrite Hcnt.
  replace (n_columns self - (n_columns self - 1)) with 1 by lia. done.
Qed.

(** X2.  Whenever a [deepest] pass through a block returns, it has
    applied exactly one leaf per depth level, the module of the last
    column, in increasing order of depth (after the doubler, if any),
    and nothing else. *)
Theorem deepest_pass_applies_last_column_only
    self x global_cols w out w' :
  forward self x global_cols true w = Ok out w' →
  trace w' =
    trace w
    ++ match doubler self with Some _ => [EvDoubler] | None => [] end
    ++ (EvLeaf (n_columns self - 1) <$> seq 0 (max_depth self)).
Proof.
  intros Hrun. rewrite (forward_trace _ _ _ _ _ _ _ Hrun).
  unfold pass_events. do 2 f_equal.
  unfold forward in Hrun.
  apply bind_Ok_inv in Hrun as (out0 & wd & _ & Hrun).
  apply bind_Ok_inv in Hrun as (outs' & wl & Hloop & _).
  by eapply deepest_loop_events.
Qed.

Lemma deepest_pass_applies_last_column_only_witness :
  ∃ out w',
    forward (block2 true) [[0%Qc]; [1%Qc]] [1%Z] true w0 = Ok out w'
    ∧ trace w' = trace w0 ++ [] ++ (EvLeaf (2 - 1) <$> seq 0 2).
Proof.
  eexists _, _. split; [vm_compute; reflexivity|].
  eapply (deepest_pass_applies_last_column_only
            (block2 true) [[0%Qc]; [1%Qc]] [1%Z] w0).
  vm_compute; reflexivity.
Defined.

(** The leaf calls of a full pass over a constructed block. *)
Lemma elem_of_full_pass_leaves
    n C_in C_out p_drop p_dropout pad_type doubling theta theta_d blk ev :
  FractalBlock_init n C_in C_out p_drop p_dropout pad_type doubling
                    theta theta_d = Some blk →
  ev ∈ seq 0 (max_depth blk) ≫= depth_leaves blk false
  ↔ ∃ c i, ev = EvLeaf c i ∧ present blk c i.
Proof.
  intros Hinit.
  destruct (FractalBlock_init_inv _ _ _ _ _ _ _ _ _ _ Hinit)
    as (Hn & Hncol & Hdepth & _ & _ & Hcols & _).
  rewrite list_elem_of_bind, Hdepth. split.
  - intros (i & Hev & Hi%elem_of_seq). unfold depth_leaves in Hev.
    rewrite (count_init _ _ _ _ _ _ _ _ _ _ Hinit) in Hev by lia.
    rewrite Hncol in Hev.
    apply list_elem_of_fmap in Hev as (c & -> & Hc%elem_of_seq).
    exists c, i. split; [done|].
    pose proof (length_filter (λ c, scheduled n c i) (seq 0 n)) as Hle.
    rewrite length_seq in Hle.
    rewrite (present_init _ _ _ _ _ _ _ _ _ _ Hinit) by lia.
    apply (filter_upward_closed (λ c, scheduled n c i) n 0); [|lia..].
    intros ????. by apply scheduled_mono.
  - intros (c & i & -> & Hp).
    assert (Hci : c < n ∧ i < 2 ^ (n - 1)).
    { unfold present, cell in Hp. rewrite Hcols, list_lookup_fmap in Hp.
      destruct (seq 0 n !! c) as [c'|] eqn:Hc; [|done]. simpl in Hp.
      apply lookup_seq in Hc as [-> Hc]. rewrite list_lookup_fmap in Hp.
      destruct (seq 0 (2 ^ (n - 1)) !! i) as [i'|] eqn:Hi; [|done].
      apply lookup_seq in Hi as [-> Hi]. done. }
    destruct Hci as [Hc Hi].
    exists i. split; [|apply elem_of_seq; lia].
    unfold depth_leaves.
    rewrite (count_init _ _ _ _ _ _ _ _ _ _ Hinit), Hncol by done.
    apply list_elem_of_fmap. exists c. split; [done|].
    pose proof (length_filter (λ c, scheduled n c i) (seq 0 n)) as Hle.
    rewrite length_seq in Hle. apply elem_of_seq.
    rewrite (present_init _ _ _ _ _ _ _ _ _ _ Hinit) in Hp by done.
    apply (filter_upward_closed (λ c, scheduled n c i) n 0) in Hp; [lia| |lia].
    intros ????. by apply scheduled_mono.
Qed.

Lemma NoDup_full_pass_leaves self :
  NoDup (seq 0 (max_depth self) ≫= depth_leaves self false).
Proof.
  apply NoDup_bind; [| |apply NoDup_seq].
  - intros i1 i2 ev _ _ H1 H2. unfold depth_leaves in H1, H2.
    destruct (count self !! i1); [|by apply elem_of_nil in H1].
    destruct (count self !! i2); [|by apply elem_of_nil in H2].
    apply list_elem_of_fmap in H1 as (c1 & -> & _).
    apply list_elem_of_fmap in H2 as (c2 & [= _ ->] & _). done.
  - intros i _. unfold depth_leaves.
    destruct (count self !! i); [|constructor].
    apply NoDup_fmap_2; [|apply NoDup_seq]. by intros c1 c2 [= ->].
Qed.

(** X4.  A pass without [deepest] through a constructed block that
    returns has applied every module the block holds exactly once, and
    has never called an absent entry: after the doubler (if any) the
    leaf calls are pairwise distinct and are exactly the present cells. *)
Theorem full_pass_applies_every_module_once
    n C_in C_out p_drop p_dropout pad_type doubling theta theta_d blk
    mode x global_cols w out w' :
  FractalBlock_init n C_in C_out p_drop p_dropout pad_type doubling
                    theta theta_d = Some blk →
  forward (set_training mode blk) x global_cols false w = Ok out w' →
  ∃ evs,
    trace w' = trace w ++ (if doubling then [EvDoubler] else []) ++ evs
    ∧ NoDup evs
    ∧ ∀ ev, ev ∈ evs ↔ ∃ c i, ev = EvLeaf c i ∧ present blk c i.
Proof.
  intros Hinit Hrun.
  exists (seq 0 (max_depth blk) ≫= depth_leaves blk false). split_and!.
  - rewrite (forward_trace _ _ _ _ _ _ _ Hrun). unfold pass_events. simpl.
    rewrite (FractalBlock_init_doubler _ _ _ _ _ _ _ _ _ _ Hinit).
    by destruct doubling.
  - apply NoDup_full_pass_leaves.
  - intros ev. by eapply elem_of_full_pass_leaves.
Qed.

Lemma full_pass_applies_every_module_once_witness :
  ∃ out w' evs,
    forward (set_training true (block2 true)) [[0%Qc]; [1%Qc]] [1%Z] false w0
      = Ok out w'
    ∧ trace w' = trace w0 ++ [] ++ evs
    ∧ NoDup evs
    ∧ ∀ ev, ev ∈ evs ↔ ∃ c i, ev = EvLeaf c i ∧ present (block2 true) c i.
Proof.
  eexists _, _.
  destruct (full_pass_applies_every_module_once
              2 1 1 (1 # 2) None zero false (λ _ _, add_one) add_one
              (block2 true) true [[0%Qc]; [1%Qc]] [1%Z] w0 _ _
              eq_refl ltac:(vm_compute; reflexivity)) as (evs & H).
  exists evs. split; [vm_compute; reflexivity|exact H].
Defined.

(** ** Counting the modules of a block *)

(** Counting the pairs of a relation by rows or by columns. *)
Lemma double_counting {A B} (P : A → B → bool) (l1 : list B) (l2 : list A) :
  sum_list ((λ i, length (filter (λ c, P c i) l2)) <$> l1)
  = sum_list ((λ c, length (filter (λ i, P c i) l1)) <$> l2).
Proof.
  induction l1 as [|i l1 IH].
  - simpl. induction l2 as [|c l2 IH2]; [done|].
    cbn [fmap list_fmap sum_list sum_list_with]. by rewrite <-IH2.
  - cbn [fmap list_fmap sum_list sum_list_with]. rewrite IH. clear IH.
    induction l2 as [|c l2 IH2]; [done|].
    cbn [fmap list_fmap sum_list sum_list_with]. rewrite <-IH2.
    rewrite !filter_cons. destruct (P c i); simpl; lia.
Qed.

Lemma filter_none {A} (P : A → Prop) `{!∀ x, Decision (P x)} (l : list A) :
  Forall (λ x, ¬ P x) l → filter P l = [].
Proof.
  induction 1 as [|x l Hx _ IH]; [done|]. by rewrite filter_cons_False.
Qed.

Lemma filter_ext_bool {A} (P Q : A → bool) (l : list A) :
  Forall (λ x, P x = Q x) l → filter (λ x, P x) l = filter (λ x, Q x) l.
Proof.
  induction 1 as [|x l Hx _ IH]; [done|]. by rewrite !filter_cons, IH, Hx.
Qed.

(** Among [1 .. d * m], exactly [m] numbers are multiples of [d]. *)
Lemma multiples_in_range d m :
  0 < d →
  length (filter (λ i, (i + 1) `mod` d =? 0) (seq 0 (d * m))) = m.
Proof.
  intros Hd. induction m as [|m IH].
  - by rewrite Nat.mul_0_r.
  - replace (d * S m) with (d * m + ((d - 1) + 1)) by lia.
    rewrite !seq_app, !list.filter_app, !length_app, IH. simpl.
    rewrite (filter_none _ (seq (d * m) (d - 1))).
    + rewrite filter_cons_True; [simpl; lia|].
      apply Is_true_true, Nat.eqb_eq.
      replace (d * m + (d - 1) + 1) with (0 + (m + 1) * d) by lia.
      rewrite Nat.Div0.mod_add. by apply Nat.mod_small.
    + apply list.Forall_forall. intros i Hi%elem_of_seq.
      intros Hz%Is_true_true%Nat.eqb_eq.
      replace (i + 1) with ((i - d * m + 1) + m * d) in Hz by lia.
      rewrite Nat.Div0.mod_add, Nat.mod_small in Hz; lia.
Qed.

Lemma sum_powers_of_two n : sum_list ((λ c, 2 ^ c) <$> seq 0 n) = 2 ^ n - 1.
Proof.
  induction n as [|n IH]; [done|].
  rewrite seq_S, fmap_app, sum_list_with_app, IH. simpl.
  pose proof (Nat.pow_nonzero 2 n ltac:(lia)). lia.
Qed.

(** X5.  The per-depth count table of a constructed block sums to
    [2^n_columns - 1], the number of modules the columns hold: column [c]
    holds [2^c] of them. *)
Theorem block_holds_all_but_one_power_of_two_modules
    n C_in C_out p_drop p_dropout pad_type doubling theta theta_d blk :
  FractalBlock_init n C_in C_out p_drop p_dropout pad_type doubling
                    theta theta_d = Some blk →
  sum_list (count blk) = 2 ^ n - 1
  ∧ ∀ c, c < n →
      length (filter (λ i, present blk c i) (seq 0 (max_depth blk))) = 2 ^ c.
Proof.
  intros Hinit.
  destruct (FractalBlock_init_inv _ _ _ _ _ _ _ _ _ _ Hinit)
    as (Hn & _ & Hdepth & _ & _ & _ & Hcnt).
  assert (Hcol : ∀ c, c < n →
            length (filter (λ i, scheduled n c i) (seq 0 (2 ^ (n - 1)))) = 2 ^ c).
  { intros c Hc.
    replace (2 ^ (n - 1)) with (2 ^ (n - 1 - c) * 2 ^ c)
      by (rewrite <-Nat.pow_add_r; f_equal; lia).
    apply multiples_in_range.
    pose proof (Nat.pow_nonzero 2 (n - 1 - c) ltac:(lia)). lia. }
  split.
  - rewrite Hcnt, (double_counting (λ c i, scheduled n c i)).
    rewrite <-sum_powers_of_two. f_equal.
    apply list_eq. intros c. rewrite !list_lookup_fmap.
    destruct (seq 0 n !! c) as [c'|] eqn:Hc; [|done]. simpl.
    apply lookup_seq in Hc as [-> Hc]. f_equal. by apply Hcol.
  - intros c Hc. rewrite Hdepth, <-(Hcol c Hc). f_equal.
    apply filter_ext_bool, list.Forall_forall. intros i Hi%elem_of_seq.
    apply (present_init _ _ _ _ _ _ _ _ _ _ Hinit); lia.
Qed.

Lemma block_holds_all_but_one_power_of_two_modules_witness :
  sum_list (count (block2 true)) = 2 ^ 2 - 1
  ∧ ∀ c, c < 2 →
      length (filter (λ i, present (block2 true) c i)
                     (seq 0 (max_depth (block2 true)))) = 2 ^ c.
Proof.
  apply (block_holds_all_but_one_power_of_two_modules
           2 1 1 (1 # 2) None zero false (λ _ _, add_one) add_one).
  reflexivity.
Defined.

(** ** The last depth level *)

Lemma foldlM_app {A S} (body : S → A → M S) l1 l2 s w :
  foldlM body s (l1 ++ l2) w
  = (s1 ← foldlM body s l1; foldlM body s1 l2) w.
Proof.
  revert s w. induction l1 as [|x l1 IH]; intros s w; [done|].
  cbn [app foldlM]. rewrite !bind_unfold.
  destruct (body s x w) as [s1 ws|e]; [|done]. apply IH.
Qed.

(** What a depth level that returns has done. *)
Lemma forward_depth_inv self global_cols (deepest : bool) outs i w outs' w' :
  forward_depth self global_cols deepest outs i w = Ok outs' w' →
  ∃ cnt cur_outs joined wj,
    count self !! i = Some cnt
    ∧ let st := if deepest then n_columns self - 1 else n_columns self - cnt in
      length cur_outs = n_columns self - st
      ∧ join self cur_outs global_cols wj = Ok joined w'
      ∧ outs' = foldl (λ o c, <[c := joined]> o) outs
                      (seq st (n_columns self - st)).
Proof.
  intros Hrun. unfold forward_depth in Hrun.
  apply bind_Ok_inv in Hrun as (st & ws & Hst & Hrun).
  unfold start_col in Hst.
  apply bind_Ok_inv in Hst as (cnt & wc & Hcnt & Hst).
  apply getitem_Ok_inv in Hcnt as [Hcnt ->]. injection Hst as <- <-.
  apply bind_Ok_inv in Hrun as (cur_outs & wm & Hmap & Hrun).
  apply bind_Ok_inv in Hrun as (joined & wj & Hjoin & Hrun).
  injection Hrun as <- <-.
  exists cnt, cur_outs, joined, wm. split; [done|]. simpl.
  split_and!; [|done..].
  apply mapM_Ok_inv, Forall2_length in Hmap. by rewrite length_seq in Hmap.
Qed.



(** X3.  With two or more columns, a [deepest] pass that returns hands
    back the tensor that entered depth level 0 (the doubler's output, or
    the input itself): the running output of the last column is
    computed but slot 0, which is returned, is never written. *)
Theorem deepest_pass_returns_entry_tensor self x global_cols w out w' :
  2 ≤ n_columns self →
  forward self x global_cols true w = Ok out w' →
  out = match doubler self with Some d => cb_forward d x | None => x end.
Proof.
  intros Hn Hrun. unfold forward in Hrun.
  apply bind_Ok_inv in Hrun as (out0 & wd & Hd & Hrun).
  apply bind_Ok_inv in Hrun as (outs' & wl & Hloop & Hget).
  apply getitem_Ok_inv in Hget as [Hget _].
  assert (Hkeep : outs' !! 0 = Some out0).
  { rewrite <-(lookup_replicate_2 (n_columns self) out0 0) by lia.
    revert Hloop. generalize (replicate (n_columns self) out0) wd.
    induction (seq 0 (max_depth self)) as [|i depths IH]; intros outs w0 Hloop.
    - by injection Hloop as <- _.
    - cbn [foldlM] in Hloop.
      apply bind_Ok_inv in Hloop as (outs1 & ws & Hstep & Hloop).
      rewrite (IH _ _ Hloop).
      apply forward_depth_inv in Hstep
        as (cnt & cur_outs & joined & wj & _ & _ & _ & ->).
      apply assign_range. lia. }
  rewrite Hkeep in Hget. injection Hget as <-.
  destruct (doubler self) as [d|].
  - apply bind_Ok_inv in Hd as (u & wu & _ & Hd). by injection Hd as <- _.
  - by injection Hd as <- _.
Qed.

Lemma deepest_pass_returns_entry_tensor_witness :
  ∃ out w',
    forward (block2 true) [[0%Qc]; [1%Qc]] [1%Z] true w0 = Ok out w'
    ∧ out = [[0%Qc]; [1%Qc]].
Proof.
  eexists _, _. split; [vm_compute; reflexivity|].
  eapply (deepest_pass_returns_entry_tensor
            (block2 true) [[0%Qc]; [1%Qc]] [1%Z] w0).
  - simpl; lia.
  - vm_compute; reflexivity.
Defined.





(** ** drop_mask on bad input *)

Lemma setitem2_cases a r k v w :
  setitem2 a r k v w = Raise IndexError
  ∨ ∃ a', setitem2 a r k v w = Ok a' w ∧ length a' = length a.
Proof.
  unfold setitem2. destruct (_ || _); [by left|].
  rewrite bind_unfold. unfold getitem.
  destruct (a !! _) as [row|]; [|by left]. simpl.
  destruct (bool_decide _); [|by left].
  right. eexists. split; [reflexivity|]. by rewrite length_insert.
Qed.

(** A row index past the last row makes the whole assignment raise. *)
Lemma setitems2_raises v ps : ∀ a w,
  Exists (λ p : Z * nat, (Z.of_nat (length a) ≤ p.1)%Z) ps →
  foldlM (λ a '(r, k), setitem2 a r k v) a ps w = Raise IndexError.
Proof.
  induction ps as [|[r k] ps IH]; intros a w Hbad; [by inversion Hbad|].
  cbn [foldlM]. rewrite bind_unfold.
  destruct (setitem2_cases a r k v w) as [->|(a' & Hrun & Hlen)]; [done|].
  apply Exists_cons in Hbad as [Hbad|Hbad].
  - simpl in Hbad. unfold setitem2 in Hrun.
    rewrite (proj2 (Z.leb_le _ _) Hbad), orb_true_r in Hrun. done.
  - rewrite Hrun. apply IH. by rewrite Hlen.
Qed.

(** X7.  [drop_mask] raises [IndexError] when some global choice is not
    below [n_columns]: its translated index falls past the last row of
    the mask. *)
Theorem drop_mask_rejects_choice_out_of_range
    self B global_cols n_cols w k g :
  global_cols !! k = Some g →
  (Z.of_nat (n_columns self) ≤ g)%Z →
  drop_mask self B global_cols n_cols w = Raise IndexError.
Proof.
  intros Hg Hbig. unfold drop_mask.
  set (gdrop_cols :=
    (λ g, g - (Z.of_nat (n_columns self) - Z.of_nat n_cols))%Z <$> global_cols).
  destruct (mapM_getitem_np_where (λ g, 0 <=? g)%Z gdrop_cols w)
    as (rows & Hrows & _ & Hpairs).
  rewrite (bind_Ok _ _ _ _ _ Hrows), bind_unfold.
  unfold setitems2. rewrite setitems2_raises; [done|].
  apply Exists_exists.
  exists ((g - (Z.of_nat (n_columns self) - Z.of_nat n_cols))%Z, k). split.
  - apply list_elem_of_In, Hpairs. split.
    + unfold gdrop_cols. by rewrite list_lookup_fmap, Hg.
    + apply Z.leb_le. lia.
  - simpl. unfold np_zeros. rewrite length_replicate. lia.
Qed.

Lemma drop_mask_rejects_choice_out_of_range_witness :
  drop_mask (block2 true) 2 [0%Z; 2%Z] 1 w0 = Raise IndexError.
Proof.
  apply (drop_mask_rejects_choice_out_of_range
           (block2 true) 2 [0%Z; 2%Z] 1 w0 1 2%Z).
  - reflexivity.
  - simpl; lia.
Defined.

(** The global sub-mask is built without touching the random source. *)
Lemma gdrop_part_Ok self global_cols n_cols w :
  Forall (λ g, g < Z.of_nat (n_columns self))%Z global_cols →
  ∃ rows,
    mapM (getitem ((λ g, g - (Z.of_nat (n_columns self) - Z.of_nat n_cols))%Z
                     <$> global_cols))
         (np_where (λ g, 0 <=? g)%Z
            ((λ g, g - (Z.of_nat (n_columns self) - Z.of_nat n_cols))%Z
               <$> global_cols)) w = Ok rows w
    ∧ setitems2 (np_zeros n_cols (length global_cols)) rows
        (np_where (λ g, 0 <=? g)%Z
           ((λ g, g - (Z.of_nat (n_columns self) - Z.of_nat n_cols))%Z
              <$> global_cols)) 1%Qc w
      = Ok (foldl (set2 1%Qc) (np_zeros n_cols (length global_cols))
              (zip rows
                 (np_where (λ g, 0 <=? g)%Z
                    ((λ g, g - (Z.of_nat (n_columns self) - Z.of_nat n_cols))%Z
                       <$> global_cols)))) w.
Proof.
  intros Hglobal.
  set (gdrop_cols :=
    (λ g, g - (Z.of_nat (n_columns self) - Z.of_nat n_cols))%Z <$> global_cols).
  destruct (mapM_getitem_np_where (λ g, 0 <=? g)%Z gdrop_cols w)
    as (rows & Hrows & _ & Hpairs).
  exists rows. split; [done|].
  apply (setitems2_Ok n_cols (length global_cols)); [apply np_zeros_shape|].
  apply list.Forall_forall. intros [r k] [Hr Hpos]%Hpairs. simpl.
  apply Z.leb_le in Hpos.
  assert (k < length global_cols).
  { apply lookup_lt_Some in Hr. unfold gdrop_cols in Hr.
    by rewrite length_fmap in Hr. }
  split; [|done]. split; [done|].
  unfold gdrop_cols in Hr. rewrite list_lookup_fmap in Hr.
  destruct (global_cols !! k) as [g|] eqn:Hg; [|done]. injection Hr as <-.
  pose proof (proj1 (list.Forall_lookup _ _) Hglobal k g Hg) as Hlt.
  simpl in Hlt. lia.
Qed.

(** X8.  With global choices below [n_columns], [drop_mask] raises
    [ValueError] when there are more global choices than samples
    ([GB > B], a negative local width) or when the keep probability,
    the float [1.-p_local_drop], is outside [[0, 1]]. *)
Theorem drop_mask_rejects_bad_local_part self B global_cols n_cols w :
  Forall (λ g, g < Z.of_nat (n_columns self))%Z global_cols →
  B < length global_cols
  ∨ match round_b64 (1 - p_local_drop self) with
    | Some keep => (keep < 0)%Q ∨ (1 < keep)%Q
    | None => True
    end →
  drop_mask self B global_cols n_cols w = Raise ValueError.
Proof.
  intros Hglobal Hbad. unfold drop_mask.
  destruct (gdrop_part_Ok self global_cols n_cols w Hglobal)
    as (rows & Hrows & Hset).
  rewrite (bind_Ok _ _ _ _ _ Hrows), (bind_Ok _ _ _ _ _ Hset).
  rewrite bind_unfold.
  destruct (round_b64 (1 - p_local_drop self)) as [keep|]; [|done].
  unfold random_binomial1.
  destruct (Qle_bool 0 keep && Qle_bool keep 1) eqn:Hq; [|done].
  simpl. apply andb_prop in Hq as [Hq0 Hq1].
  apply Qle_bool_iff in Hq0, Hq1.
  destruct Hbad as [Hlen|[Hp|Hp]].
  - replace (Z.of_nat B - Z.of_nat (length global_cols) <? 0)%Z with true;
      [done|]. symmetry. apply Z.ltb_lt. lia.
  - exfalso. by apply Qlt_not_le in Hp.
  - exfalso. by apply Qlt_not_le in Hp.
Qed.

Lemma drop_mask_rejects_bad_local_part_witness :
  drop_mask (mkFractalBlock 2 [] 2 (3 # 2) None [] true) 2 [0%Z] 2 w0
  = Raise ValueError.
Proof.
  apply (drop_mask_rejects_bad_local_part
           (mkFractalBlock 2 [] 2 (3 # 2) None [] true) 2 [0%Z] 2 w0).
  - repeat constructor.
  - right. vm_compute. left. reflexivity.
Defined.

(** A drop probability so slightly negative that [1.-p] rounds to 1 is
    accepted: here [p] is the float -1e-17. *)
Example drop_mask_accepts_tiny_negative_p :
  is_Some (returned
    (drop_mask
       (mkFractalBlock 2 [] 2
          (-6490371073168535 # 649037107316853453566312041152512)
          None [] true) 2 [0%Z] 2 w0)).
Proof. vm_compute. by eexists. Qed.

(** ** The local part of the mask *)

Section drop_mask_local.
Context (self : FractalBlock) (B : nat) (global_cols : list Z) (n_cols : nat).
Hypothesis HGB : length global_cols ≤ B.
Hypothesis Hglobal :
  Forall (λ g, g < Z.of_nat (n_columns self))%Z global_cols.
Hypothesis Hcols : 0 < n_cols.
Hypothesis Hp : (0 <= p_local_drop self)%Q ∧ (p_local_drop self <= 1)%Q.

Abbreviation GB := (length global_cols).
Abbreviation LB := (B - length global_cols).

(** The run of [drop_mask], with the two draws it makes: the Bernoulli
    matrix [lmask0] and the rows [rs] used for resurrection.  A local
    entry is 1 where a resurrection wrote it, and the Bernoulli draw
    elsewhere. *)
Lemma drop_mask_local_entries w :
  ∃ m keep lmask0 wl rs w',
    round_b64 (1 - p_local_drop self) = Some keep
    ∧ random_binomial1 keep n_cols (Z.of_nat B - Z.of_nat GB) w = Ok lmask0 wl
    ∧ random_randint 0 (Z.of_nat n_cols)
        (Z.of_nat (length (dead_samples LB lmask0))) wl = Ok rs w'
    ∧ drop_mask self B global_cols n_cols w = Ok m w'
    ∧ is_shape n_cols LB lmask0
    ∧ length rs = length (dead_samples LB lmask0)
    ∧ Forall (λ r, 0 ≤ r < Z.of_nat n_cols)%Z rs
    ∧ ∀ c k, c < n_cols → GB ≤ k < B →
        entry m c k =
          if bool_decide ((Z.of_nat c, k - GB) ∈ zip rs (dead_samples LB lmask0))
          then 1%Qc else entry lmask0 c (k - GB).
Proof.
  destruct (gdrop_part_Ok self global_cols n_cols w Hglobal)
    as (rows & Hrows & Hset).
  assert (Hgshape : is_shape n_cols GB
            (foldl (set2 1%Qc) (np_zeros n_cols GB)
               (zip rows (np_where (λ g, 0 <=? g)%Z
                  ((λ g, g - (Z.of_nat (n_columns self) - Z.of_nat n_cols))%Z
                     <$> global_cols))))).
  { generalize (zip rows (np_where (λ g, 0 <=? g)%Z
       ((λ g, g - (Z.of_nat (n_columns self) - Z.of_nat n_cols))%Z
          <$> global_cols))).
    intros ps. generalize (np_zeros_shape n_cols GB).
    generalize (np_zeros n_cols GB). induction ps as [|p ps IH]; [done|].
    intros a Ha. simpl. apply IH. by apply set2_shape. }
  destruct (keep_prob_Some _ (proj1 Hp) (proj2 Hp))
    as (keep & Hkeep & Hkeep0 & Hkeep1).
  destruct (random_binomial1_Ok keep n_cols (Z.of_nat B - Z.of_nat GB) w
              Hkeep0 Hkeep1)
    as (lmask0 & wl & Hbin & _ & Hlshape & Hlbin); [lia|].
  replace (Z.to_nat (Z.of_nat B - Z.of_nat GB)) with LB in * by lia.
  destruct (random_randint_Ok (Z.of_nat n_cols)
              (Z.of_nat (length (dead_samples LB lmask0))) wl)
    as (rs & w' & Hrand & _ & Hrslen & Hrsok); [lia..|].
  rewrite Nat2Z.id in Hrslen.
  assert (Hlok : Forall (λ p : Z * nat,
                   (0 ≤ p.1 < Z.of_nat n_cols)%Z ∧ p.2 < LB)
                        (zip rs (dead_samples LB lmask0))).
  { apply list.Forall_forall. intros [r k] Hin. simpl.
    apply elem_of_lookup_zip_with in Hin as (i & r' & k' & [= <- <-] & Hr & Hk).
    split; [by eapply (proj1 (list.Forall_lookup _ _)) in Hrsok|].
    assert (Hkin : k ∈ dead_samples LB lmask0)
      by (apply list_elem_of_lookup; eauto).
    apply elem_of_np_where in Hkin as (x & Hx & _).
    apply lookup_lt_Some in Hx.
    pose proof (length_foldl_vadd lmask0 (replicate LB 0%Qc)) as Hle.
    rewrite length_replicate in Hle. unfold sum_axis0 in Hx. lia. }
  destruct (setitems2_Ok n_cols LB 1%Qc (zip rs (dead_samples LB lmask0))
              lmask0 w' Hlshape Hlok) as [Hlset Hlshape'].
  eexists _, keep, lmask0, wl, rs, w'. split_and!; [done|done|done| |done..|].
  - unfold drop_mask.
    rewrite (bind_Ok _ _ _ _ _ Hrows), (bind_Ok _ _ _ _ _ Hset).
    rewrite Hkeep, (bind_Ok _ _ _ _ _ Hbin).
    replace (Z.to_nat (Z.of_nat B - Z.of_nat GB)) with LB by lia.
    fold (dead_samples LB lmask0).
    rewrite (bind_Ok _ _ _ _ _ Hrand). unfold setitems2 at 1.
    rewrite (bind_Ok _ _ _ _ _ Hlset). reflexivity.
  - intros c k Hc Hk.
    rewrite (hstack_entry n_cols GB LB) by done.
    rewrite decide_False by lia.
    by rewrite (entry_foldl_set2 n_cols LB).
Qed.
End drop_mask_local.

Lemma random_binomial1_entries q n m w a w' :
  random_binomial1 q n m w = Ok a w' →
  Forall (Forall (λ x, ∃ u, x = bernoulli q u)) a.
Proof.
  unfold random_binomial1. destruct (negb _); [done|].
  destruct (Z.ltb_spec m 0); [done|].
  rewrite bind_unfold. simpl. intros [= <- _].
  apply rows_of_shape.
  - by rewrite !length_fmap, length_seq.
  - apply Forall_fmap, list.Forall_forall. intros u _. by exists u.
Qed.

Lemma uniform_range u : (0 <= uniform u)%Q ∧ (uniform u < 1)%Q.
Proof.
  unfold uniform, Qle, Qlt. cbn [Qnum Qden].
  pose proof (N.mod_lt u (2 ^ 53) ltac:(done)) as Hlt.
  change (2 ^ 53)%N with 9007199254740992%N in *.
  change (2 ^ 53)%positive with 9007199254740992%positive.
  generalize dependent (u `mod` 9007199254740992)%N. intros r Hr. lia.
Qed.

Lemma bernoulli_certain q u : (1 <= q)%Q → bernoulli q u = 1%Qc.
Proof.
  intros Hq. unfold bernoulli. destruct (Qlt_le_dec _ _) as [|Hle]; [done|].
  destruct (uniform_range u) as [_ Hlt]. exfalso.
  apply (Qlt_irrefl 1). eapply Qle_lt_trans; [|exact Hlt].
  by eapply Qle_trans.
Qed.

Lemma bernoulli_impossible q u : (q <= 0)%Q → bernoulli q u = 0%Qc.
Proof.
  intros Hq. unfold bernoulli. destruct (Qlt_le_dec _ _) as [Hlt|]; [|done].
  destruct (uniform_range u) as [Hge _]. exfalso.
  apply (Qlt_irrefl 0). eapply Qle_lt_trans; [exact Hge|].
  by eapply Qlt_le_trans.
Qed.

Lemma entry_of_Forall (P : Qc → Prop) (a : list (list Qc)) n b c k :
  is_shape n b a → Forall (Forall P) a → c < n → k < b → P (entry a c k).
Proof.
  intros Ha HP Hc Hk.
  destruct (is_shape_lookup _ _ _ _ Ha Hc) as (row & Hrow & Hlen).
  destruct (lookup_lt_is_Some_2 row k ltac:(lia)) as [x Hx].
  rewrite (entry_Some a c row k x Hrow Hx).
  pose proof (proj1 (list.Forall_lookup _ _) HP c row Hrow) as Hr.
  by apply (proj1 (list.Forall_lookup _ _) Hr k x).
Qed.

(** The keep probability at the two ends of the range. *)
Lemma keep_prob_certain (p keep : Q) :
  (p == 0)%Q → round_b64 (1 - p) = Some keep → (1 <= keep)%Q.
Proof.
  intros Hp Hkeep.
  destruct (round_b64_between (1 - p) 1 1) as (r & Hr & Hr1 & _);
    [lia|lia|rewrite Hp; unfold Qle; simpl; lia..|].
  rewrite Hkeep in Hr. by injection Hr as ->.
Qed.

Lemma keep_prob_impossible (p keep : Q) :
  (p == 1)%Q → round_b64 (1 - p) = Some keep → (keep <= 0)%Q.
Proof.
  intros Hp Hkeep.
  destruct (round_b64_between (1 - p) 0 0) as (r & Hr & _ & Hr0);
    [lia|lia|rewrite Hp; unfold Qle; simpl; lia..|].
  rewrite Hkeep in Hr. by injection Hr as ->.
Qed.

(** X9.  With [p_local_drop = 0] nothing is dropped locally: every
    entry of the mask in the column of a local sample is 1, whatever the
    random source yields. *)
Theorem no_local_drop_keeps_every_path self B global_cols n_cols w :
  (p_local_drop self == 0)%Q →
  length global_cols ≤ B →
  Forall (λ g, g < Z.of_nat (n_columns self))%Z global_cols →
  0 < n_cols →
  ∃ m w', drop_mask self B global_cols n_cols w = Ok m w'
    ∧ ∀ c k, c < n_cols → length global_cols ≤ k < B → entry m c k = 1%Qc.
Proof.
  intros Hp0 HGB Hglobal Hcols.
  assert (Hp : (0 <= p_local_drop self)%Q ∧ (p_local_drop self <= 1)%Q).
  { rewrite Hp0. split; unfold Qle; simpl; lia. }
  destruct (drop_mask_local_entries self B global_cols n_cols HGB Hglobal
              Hcols Hp w)
    as (m & keep & lmask0 & wl & rs & w' & Hkeep & Hbin & _ & Hrun & Hshape
        & _ & _ & Hent).
  exists m, w'. split; [done|]. intros c k Hc Hk.
  rewrite Hent by done. case_bool_decide; [done|].
  apply random_binomial1_entries in Hbin.
  destruct (entry_of_Forall _ lmask0 n_cols _ c (k - length global_cols)
              Hshape Hbin Hc ltac:(lia)) as [u ->].
  by apply bernoulli_certain, (keep_prob_certain (p_local_drop self)).
Qed.

Lemma no_local_drop_keeps_every_path_witness :
  ∃ m w',
    drop_mask (mkFractalBlock 2 [] 2 0 None [] true) 3 [0%Z] 2 w0 = Ok m w'
    ∧ ∀ c k, c < 2 → length [0%Z] ≤ k < 3 → entry m c k = 1%Qc.
Proof.
  apply (no_local_drop_keeps_every_path
           (mkFractalBlock 2 [] 2 0 None [] true) 3 [0%Z] 2 w0).
  - reflexivity.
  - simpl; lia.
  - repeat constructor.
  - lia.
Defined.

Lemma np_where_all {A} (p : A → bool) (v : list A) :
  Forall (λ x, p x = true) v → np_where p v = seq 0 (length v).
Proof.
  intros Hall. unfold np_where. generalize 0.
  induction Hall as [|x v Hx _ IH]; intros a; [done|].
  cbn. rewrite Hx. f_equal. apply IH.
Qed.

(** X10.  With [p_local_drop = 1] every local draw is all-dead and is
    resurrected: the mask column of each local sample is one-hot, so
    every local sample keeps exactly one path. *)
Theorem full_local_drop_keeps_one_path self B global_cols n_cols w :
  (p_local_drop self == 1)%Q →
  length global_cols ≤ B →
  Forall (λ g, g < Z.of_nat (n_columns self))%Z global_cols →
  0 < n_cols →
  ∃ m w', drop_mask self B global_cols n_cols w = Ok m w'
    ∧ ∀ k, length global_cols ≤ k < B →
        ∃ c0, c0 < n_cols
          ∧ column m k = <[c0 := 1%Qc]> (replicate n_cols 0%Qc)
          ∧ Qsum (column m k) = 1%Qc.
Proof.
  intros Hp1 HGB Hglobal Hcols.
  assert (Hp : (0 <= p_local_drop self)%Q ∧ (p_local_drop self <= 1)%Q).
  { rewrite Hp1. split; unfold Qle; simpl; lia. }
  destruct (drop_mask_local_entries self B global_cols n_cols HGB Hglobal
              Hcols Hp w)
    as (m & keep & lmask0 & wl & rs & w' & Hkeep & Hbin & _ & Hrun & Hshape
        & Hrslen & Hrsok & Hent).
  destruct (drop_mask_Ok self B global_cols n_cols HGB Hglobal Hcols Hp w)
    as (m2 & w2 & Hrun2 & _ & Hmshape & _).
  rewrite Hrun in Hrun2. injection Hrun2 as <- <-.
  set (LB := B - length global_cols) in *.
  (* the Bernoulli matrix is all zero *)
  apply random_binomial1_entries in Hbin.
  assert (Hzero : ∀ c j, c < n_cols → j < LB → entry lmask0 c j = 0%Qc).
  { intros c j Hc Hj.
    destruct (entry_of_Forall _ lmask0 n_cols _ c j Hshape Hbin Hc Hj)
      as [u ->].
    by apply bernoulli_impossible, (keep_prob_impossible (p_local_drop self)). }
  (* hence every local sample is dead *)
  assert (Halive : sum_axis0 LB lmask0 = replicate LB 0%Qc).
  { apply list_eq. intros j. destruct (decide (j < LB)) as [Hj|Hj].
    - rewrite (sum_axis0_lookup n_cols LB), lookup_replicate_2 by done.
      f_equal. apply Qsum_all_zero, list.Forall_forall. intros x Hx.
      apply list_elem_of_lookup in Hx as [c Hc].
      assert (c < n_cols).
      { apply lookup_lt_Some in Hc. rewrite length_column in Hc.
        by destruct Hshape as [<- _]. }
      rewrite column_lookup in Hc by (by destruct Hshape as [-> _]).
      injection Hc as <-. by apply Hzero.
    - rewrite (proj1 (lookup_replicate_None _ _ _)) by lia.
      apply lookup_ge_None.
      pose proof (length_foldl_vadd lmask0 (replicate LB 0%Qc)) as Hle.
      rewrite length_replicate in Hle. unfold sum_axis0. lia. }
  assert (Hdead : dead_samples LB lmask0 = seq 0 LB).
  { unfold dead_samples. rewrite Halive, np_where_all.
    - by rewrite length_replicate.
    - apply Forall_replicate. by apply bool_decide_eq_true_2. }
  rewrite Hdead in Hent, Hrslen. rewrite length_seq in Hrslen.
  exists m, w'. split; [done|]. intros k Hk.
  destruct (lookup_lt_is_Some_2 rs (k - length global_cols) ltac:(lia))
    as [r Hr].
  pose proof (proj1 (list.Forall_lookup _ _) Hrsok _ r Hr) as Hrange.
  simpl in Hrange.
  assert (Hcol : column m k = <[Z.to_nat r := 1%Qc]> (replicate n_cols 0%Qc)).
  { rewrite <-one_hot_seq. apply (column_ext n_cols B); [done|].
    intros c Hc. rewrite Hent by done. rewrite Hzero by (done || lia).
    apply (f_equal (λ b : bool, if b then 1%Qc else 0%Qc)).
    apply bool_decide_ext. rewrite elem_of_lookup_zip_with. split.
    - intros (i & r' & j & [= <- <-] & Hr' & Hj).
      apply lookup_seq in Hj as [Hi _]. simpl in Hi. rewrite <-Hi in Hr'.
      rewrite Hr in Hr'. injection Hr' as ->. lia.
    - intros ->. exists (k - length global_cols), r, (k - length global_cols).
      split_and!; [f_equal; lia|done|]. apply lookup_seq. split; [done|lia]. }
  exists (Z.to_nat r). split_and!; [lia|done|].
  rewrite Hcol. apply Qsum_one_hot. lia.
Qed.

Lemma full_local_drop_keeps_one_path_witness :
  ∃ m w',
    drop_mask (mkFractalBlock 2 [] 2 1 None [] true) 3 [0%Z] 2 w0 = Ok m w'
    ∧ ∀ k, length [0%Z] ≤ k < 3 →
        ∃ c0, c0 < 2
          ∧ column m k = <[c0 := 1%Qc]> (replicate 2 0%Qc)
          ∧ Qsum (column m k) = 1%Qc.
Proof.
  apply (full_local_drop_keeps_one_path
           (mkFractalBlock 2 [] 2 1 None [] true) 3 [0%Z] 2 w0).
  - reflexivity.
  - simpl; lia.
  - repeat constructor.
  - lia.
Defined.

(** ** Rows of a training join *)

Lemma masked_mean_row masks outs t0 b s0 :
  outs !! 0 = Some t0 → t0 !! b = Some s0 →
  masked_mean_of_paths masks outs !! b
    = Some (imap (λ k _,
              Qsum (zip_with Qcmult ((λ o, entry o b k) <$> outs)
                             (column masks b))
                / alive_count_clamped masks b)%Qc s0).
Proof.
  intros H0 Hs0. destruct outs as [|t ts]; [done|]. injection H0 as ->.
  unfold masked_mean_of_paths. by rewrite list_lookup_imap, Hs0.
Qed.

Lemma masked_mean_row_zero masks outs t0 b s0 :
  outs !! 0 = Some t0 → t0 !! b = Some s0 →
  Forall (λ x, x = 0%Qc) (column masks b) →
  masked_mean_of_paths masks outs !! b = Some (replicate (length s0) 0%Qc).
Proof.
  intros H0 Hs0 Hzero. rewrite (masked_mean_row masks outs t0 b s0 H0 Hs0).
  f_equal. apply list_eq. intros k. rewrite list_lookup_imap.
  destruct (s0 !! k) as [x|] eqn:Hx; simpl.
  - rewrite lookup_replicate_2 by (by eapply lookup_lt_Some).
    rewrite Qsum_weighted_zero by done. f_equal. unfold Qcdiv. ring.
  - symmetry. apply lookup_replicate_None. by apply lookup_ge_None.
Qed.

Lemma masked_mean_row_one_hot masks outs t0 b c o :
  outs !! 0 = Some t0 → Forall (λ t, shape t = shape t0) outs →
  column masks b = <[c := 1%Qc]> (replicate (length outs) 0%Qc) →
  outs !! c = Some o → b < length t0 →
  masked_mean_of_paths masks outs !! b = o !! b.
Proof.
  intros H0 Hall Hhot Ho Hb.
  destruct (lookup_lt_is_Some_2 t0 b Hb) as [s0 Hs0].
  assert (Hc : c < length outs) by (by eapply lookup_lt_Some).
  rewrite (masked_mean_row masks outs t0 b s0 H0 Hs0).
  assert (Hden : alive_count_clamped masks b = 1%Qc).
  { unfold alive_count_clamped. rewrite Hhot, Qsum_one_hot by done.
    by rewrite bool_decide_eq_false_2 by apply Qc_1_neq_0. }
  pose proof (shape_lookup o t0 b
                (proj1 (list.Forall_lookup _ _) Hall c o Ho)) as Hob.
  rewrite Hs0 in Hob. destruct (o !! b) as [s|] eqn:Hs; [|done].
  f_equal. apply list_eq. intros k. rewrite list_lookup_imap, Hden, Hhot.
  destruct (s0 !! k) as [x|] eqn:Hx; simpl.
  - destruct (lookup_lt_is_Some_2 s k) as [y Hy].
    { rewrite Hob. by eapply lookup_lt_Some. }
    rewrite Hy. f_equal.
    rewrite (Qsum_weighted_one_hot _ c (length outs) (entry o b k)).
    + rewrite (entry_Some o b s k y Hs Hy). apply (right_id 1%Qc Qcdiv).
    + by rewrite list_lookup_fmap, Ho.
    + done.
  - symmetry. apply lookup_ge_None. apply lookup_ge_None in Hx. lia.
Qed.

(** X11.  In a training join of finite path outputs, the row of a
    global sample is decided by its global choice alone: if the chosen
    column is not among the joined ones the row is zero, otherwise it is
    exactly the row of the chosen column's output.  The statement is
    about [join_fl], where a non-finite value would show. *)
Theorem join_training_global_sample self outs t0 global_cols w b g s0 :
  training self = true →
  outs !! 0 = Some t0 →
  Forall (λ t, shape t = shape t0) outs →
  length global_cols ≤ length t0 →
  Forall (λ g, g < Z.of_nat (n_columns self))%Z global_cols →
  (0 <= p_local_drop self)%Q ∧ (p_local_drop self <= 1)%Q →
  global_cols !! b = Some g →
  t0 !! b = Some s0 →
  ∃ t w', join_fl self (embed <$> outs) global_cols w = Ok (embed t) w'
    ∧ if bool_decide (g < Z.of_nat (n_columns self) - Z.of_nat (length outs))%Z
      then embed t !! b = Some (replicate (length s0) (Fin 0))
      else ∃ o,
        outs !! Z.to_nat (g - (Z.of_nat (n_columns self)
                               - Z.of_nat (length outs))) = Some o
        ∧ embed t !! b = embed o !! b.
Proof.
  intros Htr H0 Hall HGB Hglobal Hp Hg Hs0.
  assert (Hn : 0 < length outs) by (by eapply lookup_lt_Some).
  destruct (join_training_refines self outs t0 global_cols Htr H0 Hall HGB
              Hglobal Hp w) as (masks & w' & Hrun & _ & _ & _ & Hjoin).
  destruct (drop_mask_global_column self (length t0) global_cols (length outs)
              w b g HGB Hglobal Hn Hp Hg) as (m & w2 & Hrun2 & Hcol).
  rewrite Hrun in Hrun2. injection Hrun2 as <- <-.
  exists (masked_mean_of_paths masks outs), w'.
  split; [by rewrite join_fl_finite, Hjoin|].
  pose proof (proj1 (list.Forall_lookup _ _) Hglobal b g Hg) as Hlt.
  simpl in Hlt. unfold embed.
  case_bool_decide as Hoff.
  - rewrite list_lookup_fmap.
    rewrite (masked_mean_row_zero masks outs t0 b s0 H0 Hs0).
    + simpl. by rewrite fmap_replicate.
    + rewrite Hcol. by apply Forall_replicate.
  - destruct (lookup_lt_is_Some_2 outs
                (Z.to_nat (g - (Z.of_nat (n_columns self)
                                - Z.of_nat (length outs)))) ltac:(lia))
      as [o Ho].
    exists o. split; [done|]. rewrite !list_lookup_fmap. f_equal.
    apply (masked_mean_row_one_hot masks outs t0 b _ o H0 Hall Hcol Ho).
    by eapply lookup_lt_Some.
Qed.

Lemma join_training_global_sample_witness :
  ∃ t w',
    join_fl (mkFractalBlock 2 [] 2 (1 # 2) None [] true)
            (embed <$> [ [[Q2Qc 5]; [Q2Qc 7]] ]) [0%Z] w0 = Ok (embed t) w'
    ∧ if bool_decide (0 < Z.of_nat 2 - Z.of_nat 1)%Z
      then embed t !! 0 = Some (replicate (length [Q2Qc 5]) (Fin 0))
      else ∃ o,
        [ [[Q2Qc 5]; [Q2Qc 7]] ] !! Z.to_nat (0 - (Z.of_nat 2 - Z.of_nat 1))
          = Some o
        ∧ embed t !! 0 = embed o !! 0.
Proof.
  apply (join_training_global_sample
           (mkFractalBlock 2 [] 2 (1 # 2) None [] true)
           [ [[Q2Qc 5]; [Q2Qc 7]] ] [[Q2Qc 5]; [Q2Qc 7]] [0%Z] w0 0 0%Z
           [Q2Qc 5]).
  - reflexivity.
  - reflexivity.
  - repeat constructor.
  - simpl; lia.
  - repeat constructor.
  - split; unfold Qle; simpl; lia.
  - reflexivity.
  - reflexivity.
Defined.

(** With an infinite value in the path, the dropped global sample of
    the same join comes out as nan. *)
Example join_training_global_sample_not_finite :
  ∃ t w',
    join_fl (mkFractalBlock 2 [] 2 (1 # 2) None [] true)
            [ [[PInf]; [Fin (Q2Qc 7)]] ] [0%Z] w0 = Ok t w'
    ∧ t !! 0 = Some [NaN].
Proof. eexists _, _. split; [vm_compute; reflexivity|reflexivity]. Qed.

(** X12.  A training join of a single path never drops a local sample:
    the one column of its mask is always resurrected, so the rows of
    the local samples are those of the path, and with no global samples
    the join returns the path itself. *)
Theorem join_training_single_path self o global_cols w :
  training self = true →
  length global_cols ≤ length o →
  Forall (λ g, g < Z.of_nat (n_columns self))%Z global_cols →
  (0 <= p_local_drop self)%Q ∧ (p_local_drop self <= 1)%Q →
  ∃ t w', join self [o] global_cols w = Ok t w'
    ∧ shape t = shape o
    ∧ (∀ b, length global_cols ≤ b < length o → t !! b = o !! b)
    ∧ (global_cols = [] → t = o).
Proof.
  intros Htr HGB Hglobal Hp.
  assert (H0 : [o] !! 0 = Some o) by done.
  assert (Hall : Forall (λ t, shape t = shape o) [o]) by (by constructor).
  destruct (join_training_refines self [o] o global_cols Htr H0 Hall HGB
              Hglobal Hp w) as (masks & w' & Hrun & _ & Hshape & _ & Hjoin).
  destruct (drop_mask_Ok self (length o) global_cols 1 HGB Hglobal
              ltac:(lia) Hp w) as (m & w2 & Hrun2 & _ & _ & _ & _ & Hlocal).
  simpl in Hrun. rewrite Hrun in Hrun2. injection Hrun2 as <- <-.
  assert (Hrows : ∀ b, length global_cols ≤ b < length o →
            masked_mean_of_paths masks [o] !! b = o !! b).
  { intros b Hb.
    apply (masked_mean_row_one_hot masks [o] o b 0 o H0 Hall); [|done|lia].
    destruct (Hlocal b Hb) as (c & Hc & Hent).
    assert (c = 0) as -> by lia.
    rewrite (column_ext 1 (length o) masks b (λ _, 1%Qc) Hshape); [done|].
    intros c Hc'. by assert (c = 0) as -> by lia. }
  exists (masked_mean_of_paths masks [o]), w'.
  split_and!; [done|by apply shape_masked_mean|done|].
  intros ->. apply list_eq. intros b.
  destruct (decide (b < length o)) as [Hb|Hb].
  - apply Hrows. simpl. lia.
  - rewrite (proj2 (lookup_ge_None o b)) by lia. apply lookup_ge_None.
    rewrite (shape_length _ o (shape_masked_mean masks [o] o H0)). lia.
Qed.

Lemma join_training_single_path_witness :
  ∃ t w',
    join (mkFractalBlock 2 [] 2 1 None [] true)
         [ [[Q2Qc 5]; [Q2Qc 7]] ] [] w0 = Ok t w'
    ∧ shape t = shape [[Q2Qc 5]; [Q2Qc 7]]
    ∧ (∀ b, length (@nil Z) ≤ b < length [[Q2Qc 5]; [Q2Qc 7]] →
         t !! b = [[Q2Qc 5]; [Q2Qc 7]] !! b)
    ∧ (@nil Z = [] → t = [[Q2Qc 5]; [Q2Qc 7]]).
Proof.
  apply (join_training_single_path
           (mkFractalBlock 2 [] 2 1 None [] true) [[Q2Qc 5]; [Q2Qc 7]] [] w0).
  - reflexivity.
  - simpl; lia.
  - constructor.
  - split; unfold Qle; simpl; lia.
Defined.

(** ** A training join that drops nothing *)

Lemma Qc_of_nat_S n : Qc_of_nat (S n) = (1 + Qc_of_nat n)%Qc.
Proof.
  unfold Qc_of_nat, Qc_of_Z. apply Qc_is_canon.
  unfold Qcplus, Q2Qc. cbn [this]. rewrite !Qred_correct.
  rewrite Nat2Z.inj_succ. unfold Z.succ. rewrite inject_Z_plus.
  change (inject_Z 1) with 1%Q. ring.
Qed.

Lemma Qsum_replicate_one n : Qsum (replicate n 1%Qc) = Qc_of_nat n.
Proof.
  induction n as [|n IH].
  - by apply Qc_is_canon.
  - simpl. by rewrite Qsum_cons, IH, Qc_of_nat_S.
Qed.

Lemma Qsum_weighted_ones xs :
  Qsum (zip_with Qcmult xs (replicate (length xs) 1%Qc)) = Qsum xs.
Proof.
  induction xs as [|x xs IH]; [done|]. simpl.
  rewrite !Qsum_cons, IH. ring.
Qed.

Lemma ones_seq n : (λ _ : nat, 1%Qc) <$> seq 0 n = replicate n 1%Qc.
Proof.
  apply list_eq. intros c. rewrite list_lookup_fmap.
  destruct (decide (c < n)) as [Hc|Hc].
  - by rewrite lookup_seq_lt, lookup_replicate_2.
  - rewrite lookup_seq_ge by lia. simpl. symmetry.
    apply lookup_replicate_None. lia.
Qed.

(** X13.  With [p_local_drop = 0] and no global samples, a training join
    drops nothing: it returns the plain mean of the paths, the value
    the inference branch computes. *)
Theorem join_training_without_drop_is_mean self outs t0 w :
  training self = true →
  (p_local_drop self == 0)%Q →
  outs !! 0 = Some t0 →
  Forall (λ t, shape t = shape t0) outs →
  ∃ w', join self outs [] w = Ok (mean_of_paths outs) w'.
Proof.
  intros Htr Hp0 H0 Hall.
  assert (Hp : (0 <= p_local_drop self)%Q ∧ (p_local_drop self <= 1)%Q).
  { rewrite Hp0. split; unfold Qle; simpl; lia. }
  assert (Hn : 0 < length outs) by (by eapply lookup_lt_Some).
  assert (HGB : length (@nil Z) ≤ length t0) by (simpl; lia).
  assert (Hglobal : Forall (λ g, g < Z.of_nat (n_columns self))%Z [])
    by constructor.
  destruct (join_training_refines self outs t0 [] Htr H0 Hall HGB Hglobal
              Hp w) as (masks & w' & Hrun & _ & Hshape & _ & Hjoin).
  destruct (drop_mask_local_entries self (length t0) [] (length outs) HGB
              Hglobal Hn Hp w)
    as (m & keep & lmask0 & wl & rs & w2 & Hkeep & Hbin & _ & Hrun2 & Hlshape
        & _ & _ & Hent).
  rewrite Hrun in Hrun2. injection Hrun2 as <- <-.
  apply random_binomial1_entries in Hbin.
  (* every column of the mask is all ones *)
  assert (Hcol : ∀ b, b < length t0 →
            column masks b = replicate (length outs) 1%Qc).
  { intros b Hb. rewrite <-ones_seq.
    apply (column_ext (length outs) (length t0)); [done|].
    intros c Hc. rewrite Hent by (simpl; lia).
    case_bool_decide; [done|].
    destruct (entry_of_Forall _ lmask0 (length outs) _ c (b - length (@nil Z))
                Hlshape Hbin Hc ltac:(simpl; lia)) as [u ->].
    by apply bernoulli_certain, (keep_prob_certain (p_local_drop self)). }
  exists w'. rewrite Hjoin. f_equal.
  destruct outs as [|t ts]; [done|]. injection H0 as ->.
  unfold masked_mean_of_paths, mean_of_paths.
  apply imap_ext. intros b s Hs. apply imap_ext. intros k x Hx. cbv beta.
  assert (Hb : b < length t0) by (by eapply lookup_lt_Some).
  unfold alive_count_clamped. rewrite (Hcol b Hb), Qsum_replicate_one.
  rewrite bool_decide_eq_false_2 by (apply Qc_of_nat_pos_neq_0; simpl; lia).
  pose proof (Qsum_weighted_ones ((λ o, entry o b k) <$> t0 :: ts)) as Hw.
  rewrite length_fmap in Hw. by rewrite Hw.
Qed.

Lemma join_training_without_drop_is_mean_witness :
  ∃ w',
    join (mkFractalBlock 2 [] 2 0 None [] true)
         [ [[Q2Qc 5]]; [[Q2Qc 7]] ] [] w0
      = Ok (mean_of_paths [ [[Q2Qc 5]]; [[Q2Qc 7]] ]) w'.
Proof.
  apply (join_training_without_drop_is_mean
           (mkFractalBlock 2 [] 2 0 None [] true)
           [ [[Q2Qc 5]]; [[Q2Qc 7]] ] [[Q2Qc 5]] w0).
  - reflexivity.
  - reflexivity.
  - reflexivity.
  - repeat constructor.
Defined.

(** X14.  In either mode, and before anything is drawn, [join] raises
    [RuntimeError] when it is given no outputs or outputs of different
    shapes: stacking comes first. *)
Theorem join_rejects_unstackable_outputs self outs global_cols w :
  outs = []
  ∨ (∃ t0 t, outs !! 0 = Some t0 ∧ t ∈ outs ∧ shape t ≠ shape t0) →
  join self outs global_cols w = Raise RuntimeError.
Proof.
  intros [->|(t0 & t & H0 & Ht & Hne)]; [done|].
  destruct outs as [|t1 ts]; [done|]. injection H0 as ->.
  apply elem_of_cons in Ht as [->|Ht]; [done|].
  unfold join. rewrite bind_unfold. unfold torch_stack.
  destruct (forallb _ ts) eqn:Hall; [|done].
  exfalso. apply Hne.
  pose proof (proj1 (forallb_forall _ ts) Hall t
                (proj1 (list_elem_of_In _ _) Ht)) as Hdec.
  simpl in Hdec. by apply bool_decide_eq_true in Hdec.
Qed.

Lemma join_rejects_unstackable_outputs_witness :
  join (block2 true) [ [[1%Qc]]; [[1%Qc; 1%Qc]] ] [] w0 = Raise RuntimeError.
Proof.
  apply (join_rejects_unstackable_outputs (block2 true)
           [ [[1%Qc]]; [[1%Qc; 1%Qc]] ] [] w0).
  right. exists [[1%Qc]], [[1%Qc; 1%Qc]].
  split_and!; [reflexivity| |discriminate].
  apply elem_of_cons. right. apply elem_of_cons. by left.
Defined.

(** ** The network around its blocks *)

Lemma net_layers_deepest net GB ls :
  Forall (λ l, match l with LBlock fb => 2 ≤ n_columns fb | LOther _ => True end)
         ls →
  ∀ out gc w out' gc' w',
  foldlM (net_layer net GB true) (out, gc) ls w = Ok (out', gc') w' →
  out' = foldl entry_stage out ls.
Proof.
  induction 1 as [|l ls Hl _ IH]; intros out gc w out' gc' w' Hrun.
  - by injection Hrun as <- _ _.
  - cbn [foldlM] in Hrun.
    apply bind_Ok_inv in Hrun as ([o1 gc1] & w1 & Hstep & Hrun).
    rewrite (IH _ _ _ _ _ _ Hrun). cbn [foldl]. f_equal.
    destruct l as [fb|f]; unfold net_layer in Hstep.
    + apply bind_Ok_inv in Hstep as (g & wg & _ & Hstep).
      apply bind_Ok_inv in Hstep as (u & wl & _ & Hstep).
      apply bind_Ok_inv in Hstep as (o & wf & Hfwd & Hret).
      injection Hret as <- _ _. simpl.
      by apply (forward_deepest_returns_input fb out g wl o wf).
    + by injection Hstep as <- _ _.
Qed.

(** X15.  In a [deepest] pass of the network whose blocks all have two
    or more columns, every block hands its entry tensor on: the result
    is what the doublers and the layers between the blocks compute, and
    no leaf of any column contributes to it. *)
Theorem deepest_network_pass_skips_columns net x w out w' :
  Forall (λ l, match l with LBlock fb => 2 ≤ n_columns fb | LOther _ => True end)
         (layers net) →
  net_forward net x true w = Ok out w' →
  out = foldl entry_stage x (layers net).
Proof.
  intros Hcols Hrun. unfold net_forward in Hrun.
  apply bind_Ok_inv in Hrun as (GB & w1 & _ & Hrun).
  apply bind_Ok_inv in Hrun as ([o gc'] & wl & Hloop & Hret).
  injection Hret as <- _.
  by apply (net_layers_deepest net GB (layers net) Hcols x None w1 o gc' wl).
Qed.

Lemma deepest_network_pass_skips_columns_witness :
  ∃ out w',
    net_forward (net2 false true) [[0%Qc]; [1%Qc]] true w0 = Ok out w'
    ∧ out = foldl entry_stage [[0%Qc]; [1%Qc]] (layers (net2 false true)).
Proof.
  eexists _, _. split; [vm_compute; reflexivity|].
  eapply (deepest_network_pass_skips_columns
            (net2 false true) [[0%Qc]; [1%Qc]] w0).
  - repeat constructor.
  - vm_compute; reflexivity.
Defined.

Lemma random_randint_range n k w g w' :
  random_randint 0 n k w = Ok g w' →
  trace w' = trace w ∧ valid_choice (Z.to_nat n) k g.
Proof.
  intros Hrun.
  assert (0 < n ∧ 0 ≤ k)%Z as [Hn Hk].
  { unfold random_randint in Hrun.
    destruct (Z.leb_spec n 0); [done|]. destruct (Z.ltb_spec k 0); [done|].
    lia. }
  destruct (random_randint_Ok n k w Hn Hk)
    as (rs & w2 & Hrun2 & Htr & Hlen & Hall).
  rewrite Hrun in Hrun2. injection Hrun2 as <- <-.
  split; [done|]. split; [lia|]. by rewrite Z2Nat.id by lia.
Qed.

Lemma global_batch_bounds net x w GB w1 :
  (0 <= gdrop_ratio net)%Q → (gdrop_ratio net <= 1)%Q →
  (Z.of_nat (length x) < 2 ^ 53)%Z →
  global_batch net x w = Ok GB w1 →
  (0 ≤ GB ≤ Z.of_nat (length x))%Z.
Proof.
  intros H0 H1 Hsmall HGB.
  destruct (global_batch_inv net x w GB w1 H0 HGB)
    as (_ & B & prod & HB & Hprod & HB0 & Hp0 & ->).
  set (n := Z.of_nat (length x)) in *.
  destruct (round_b64_between (inject_Z n) n n) as (B' & HB' & HBlo & HBhi);
    [lia|done|apply Qle_refl..|].
  rewrite HB in HB'. injection HB' as <-.
  destruct (round_b64_between (B * gdrop_ratio net) 0 n)
    as (p' & Hp' & _ & Hphi); [lia|done|by apply Qmult_le_0_compat| |].
  { apply Qle_trans with (B * 1)%Q.
    - rewrite !(Qmult_comm B). by apply Qmult_le_compat_r.
    - by rewrite Qmult_1_r. }
  rewrite Hprod in Hp'. injection Hp' as <-. split.
  - change 0%Z with (Qfloor 0). by apply Qfloor_resp_le.
  - rewrite <-(Qfloor_Z n). by apply Qfloor_resp_le.
Qed.

(** One stage keeps the stored choice valid and calls its block, if it
    is one, with a valid choice. *)
Lemma net_layer_valid_choice net GB deepest out gc l w out' gc' w' :
  (∀ g, gc = Some g → valid_choice (net_n_columns net) GB g) →
  net_layer net GB deepest (out, gc) l w = Ok (out', gc') w' →
  (∀ g, gc' = Some g → valid_choice (net_n_columns net) GB g)
  ∧ ∃ evs, trace w' = trace w ++ evs
      ∧ ∀ g, EvBlock g ∈ evs → valid_choice (net_n_columns net) GB g.
Proof.
  intros Hgc Hrun. destruct l as [fb|f]; unfold net_layer in Hrun.
  2: { injection Hrun as <- <- <-. split; [done|]. exists [].
       split; [by rewrite app_nil_r|]. intros g Hg.
       by apply elem_of_nil in Hg. }
  apply bind_Ok_inv in Hrun as (g & wg & Hg & Hrun).
  apply bind_Ok_inv in Hrun as (u & wl & Hlog & Hrun).
  injection Hlog as _ <-.
  apply bind_Ok_inv in Hrun as (o & wf & Hfwd & Hrun).
  injection Hrun as <- <- <-.
  destruct (emits_forward _ _ _ _ _ _ _ Hfwd) as (inner & Htr & Hinner).
  simpl in Htr.
  assert (Hfresh :
    (g' ← random_randint 0 (Z.of_nat (net_n_columns net)) GB;
     _ ← log (EvSample g'); mret g') w = Ok g wg →
    valid_choice (net_n_columns net) GB g
    ∧ trace wg = trace w ++ [EvSample g]).
  { intros Hs. apply bind_Ok_inv in Hs as (g' & wr & Hr & Hs).
    apply random_randint_range in Hr as [Hrt Hv].
    rewrite Nat2Z.id in Hv.
    apply bind_Ok_inv in Hs as (u' & wl' & Hlog & Hs).
    injection Hlog as _ <-. injection Hs as <- <-. simpl.
    by rewrite Hrt. }
  assert (Hvalid : valid_choice (net_n_columns net) GB g
            ∧ ∃ pre, trace wg = trace w ++ pre
                ∧ ∀ g', EvBlock g' ∈ pre → False).
  { destruct gc as [g0|]; [destruct (consist_gdrop net)|]; simpl in Hg.
    - injection Hg as <- <-. split; [by apply Hgc|]. exists [].
      split; [by rewrite app_nil_r|]. intros g' Hin.
      by apply elem_of_nil in Hin.
    - apply Hfresh in Hg as [Hv Hg]. split; [done|]. exists [EvSample g].
      split; [done|]. intros g' Hin.
      by apply list_elem_of_singleton in Hin.
    - apply Hfresh in Hg as [Hv Hg]. split; [done|]. exists [EvSample g].
      split; [done|]. intros g' Hin.
      by apply list_elem_of_singleton in Hin. }
  destruct Hvalid as (Hv & pre & Hpre & Hnone).
  split; [by intros g' [= <-]|].
  exists (pre ++ [EvBlock g] ++ inner).
  split; [by rewrite Htr, Hpre, <-!app_assoc|].
  intros g' Hin. apply elem_of_app in Hin as [Hin|Hin]; [by destruct (Hnone g')|].
  apply elem_of_cons in Hin as [[= ->]|Hin]; [done|].
  pose proof (proj1 (list.Forall_forall _ _) Hinner _ Hin) as Hev.
  discriminate Hev.
Qed.

Lemma net_layers_valid_choice net GB deepest ls :
  ∀ out gc w out' gc' w',
  (∀ g, gc = Some g → valid_choice (net_n_columns net) GB g) →
  foldlM (net_layer net GB deepest) (out, gc) ls w = Ok (out', gc') w' →
  ∃ evs, trace w' = trace w ++ evs
    ∧ ∀ g, EvBlock g ∈ evs → valid_choice (net_n_columns net) GB g.
Proof.
  induction ls as [|l ls IH]; intros out gc w out' gc' w' Hgc Hrun.
  - injection Hrun as _ _ <-. exists []. split; [by rewrite app_nil_r|].
    intros g Hg. by apply elem_of_nil in Hg.
  - cbn [foldlM] in Hrun.
    apply bind_Ok_inv in Hrun as ([o1 gc1] & w1 & Hstep & Hrun).
    destruct (net_layer_valid_choice _ _ _ _ _ _ _ _ _ _ Hgc Hstep)
      as (Hgc1 & evs1 & Htr1 & Hev1).
    destruct (IH _ _ _ _ _ _ Hgc1 Hrun) as (evs2 & Htr2 & Hev2).
    exists (evs1 ++ evs2). split; [by rewrite Htr2, Htr1, <-app_assoc|].
    intros g Hg. apply elem_of_app in Hg as [Hg|Hg]; auto.
Qed.

Lemma net_layers_keep_valid net GB deepest ls :
  ∀ out gc w out' gc' w',
  (∀ g, gc = Some g → valid_choice (net_n_columns net) GB g) →
  foldlM (net_layer net GB deepest) (out, gc) ls w = Ok (out', gc') w' →
  ∀ g, gc' = Some g → valid_choice (net_n_columns net) GB g.
Proof.
  induction ls as [|l ls IH]; intros out gc w out' gc' w' Hgc Hrun.
  - by injection Hrun as _ <- _.
  - cbn [foldlM] in Hrun.
    apply bind_Ok_inv in Hrun as ([o1 gc1] & w1 & Hstep & Hrun).
    destruct (net_layer_valid_choice _ _ _ _ _ _ _ _ _ _ Hgc Hstep)
      as (Hgc1 & _).
    by apply (IH _ _ _ _ _ _ Hgc1 Hrun).
Qed.

(** What a block stage that returns has done: it has called the block
    with the stored vector or with one just drawn, and keeps it. *)
Lemma net_layer_block_inv net GB deepest out gc fb w out' gc' w' :
  net_layer net GB deepest (out, gc) (LBlock fb) w = Ok (out', gc') w' →
  ∃ g wg,
    gc' = Some g
    ∧ ((gc = Some g ∧ rng wg = rng w)
       ∨ ∃ ws, random_randint 0 (Z.of_nat (net_n_columns net)) GB w = Ok g ws
               ∧ rng wg = rng ws)
    ∧ forward fb out g deepest wg = Ok out' w'.
Proof.
  unfold net_layer. intros Hrun.
  apply bind_Ok_inv in Hrun as (g & wg & Hg & Hrun).
  apply bind_Ok_inv in Hrun as (u & wl & Hlog & Hrun).
  injection Hlog as _ <-.
  apply bind_Ok_inv in Hrun as (o & wf & Hfwd & Hrun).
  injection Hrun as <- <- <-.
  eexists g, _. split; [done|]. split; [|exact Hfwd]. simpl.
  assert (Hfresh :
    (g' ← random_randint 0 (Z.of_nat (net_n_columns net)) GB;
     _ ← log (EvSample g'); mret g') w = Ok g wg →
    ∃ ws, random_randint 0 (Z.of_nat (net_n_columns net)) GB w = Ok g ws
          ∧ rng wg = rng ws).
  { intros Hs. apply bind_Ok_inv in Hs as (g' & wr & Hr & Hs).
    apply bind_Ok_inv in Hs as (u' & wl' & Hlog & Hs).
    injection Hlog as _ <-. injection Hs as <- <-. by exists wr. }
  destruct gc as [g0|]; [destruct (consist_gdrop net)|]; simpl in Hg.
  - injection Hg as <- <-. by left.
  - right. by apply Hfresh.
  - right. by apply Hfresh.
Qed.

(** X16.  With [gdrop_ratio] in [[0, 1]] (and a batch below [2^53]),
    [0 <= GB <= B], and a pass of the network that returns goes through
    every block by a call of its [forward] on the running output of the
    preceding layers, with a vector of exactly [GB] global choices,
    each a column index in [[0, n_columns)], the stored one or one just
    drawn from the random source as the preceding layers left it; the
    result of the call feeds the following layers.  So the blocks never
    see a choice that [drop_mask] would reject. *)
Theorem network_hands_valid_choices_to_blocks
    net x deepest w out w' pre fb post :
  (0 <= gdrop_ratio net)%Q →
  (gdrop_ratio net <= 1)%Q →
  (Z.of_nat (length x) < 2 ^ 53)%Z →
  layers net = pre ++ LBlock fb :: post →
  net_forward net x deepest w = Ok out w' →
  ∃ GB,
    global_batch net x w = Ok GB w
    ∧ (0 ≤ GB ≤ Z.of_nat (length x))%Z
    ∧ ∃ out_in gc_in w_in g wg out1 w1 gc',
        foldlM (net_layer net GB deepest) (x, None) pre w
          = Ok (out_in, gc_in) w_in
        ∧ valid_choice (net_n_columns net) GB g
        ∧ ((gc_in = Some g ∧ rng wg = rng w_in)
           ∨ ∃ ws, random_randint 0 (Z.of_nat (net_n_columns net)) GB w_in
                   = Ok g ws
                   ∧ rng wg = rng ws)
        ∧ forward fb out_in g deepest wg = Ok out1 w1
        ∧ foldlM (net_layer net GB deepest) (out1, Some g) post w1
          = Ok (out, gc') w'.
Proof.
  intros H0 H1 Hsmall Hlayers Hrun. unfold net_forward in Hrun.
  apply bind_Ok_inv in Hrun as (GB & w1 & HGB & Hrun).
  pose proof (global_batch_bounds net x w GB w1 H0 H1 Hsmall HGB) as Hbounds.
  destruct (global_batch_inv net x w GB w1 H0 HGB) as (-> & _).
  exists GB. split; [done|]. split; [done|].
  apply bind_Ok_inv in Hrun as ([o gc'] & wl & Hloop & Hret).
  injection Hret as <- <-.
  rewrite Hlayers, foldlM_app in Hloop.
  apply bind_Ok_inv in Hloop as ([out_in gc_in] & w_in & Hpre & Hloop).
  cbn [foldlM] in Hloop.
  apply bind_Ok_inv in Hloop as ([o1 gc1] & wb & Hstep & Hpost).
  assert (Hvalid_in : ∀ g, gc_in = Some g →
            valid_choice (net_n_columns net) GB g).
  { apply (net_layers_keep_valid net GB deepest pre x None w out_in gc_in w_in);
      [|done]. intros g Hg. discriminate Hg. }
  destruct (net_layer_valid_choice _ _ _ _ _ _ _ _ _ _ Hvalid_in Hstep)
    as (Hvalid1 & _).
  destruct (net_layer_block_inv _ _ _ _ _ _ _ _ _ _ Hstep)
    as (g & wg & -> & Hsrc & Hfwd).
  exists out_in, gc_in, w_in, g, wg, o1, wb, gc'.
  split_and!; [done|by apply Hvalid1|done|done|done].
Qed.

Lemma network_hands_valid_choices_to_blocks_witness :
  ∃ out w',
    net_forward (net2 false true) [[0%Qc]; [1%Qc]] false w0 = Ok out w'
    ∧ ∃ GB,
        global_batch (net2 false true) [[0%Qc]; [1%Qc]] w0 = Ok GB w0
        ∧ (0 ≤ GB ≤ Z.of_nat (length [[0%Qc]; [1%Qc]]))%Z
        ∧ ∃ out_in gc_in w_in g wg out1 w1 gc',
            foldlM (net_layer (net2 false true) GB false)
                   ([[0%Qc]; [1%Qc]], None) [] w0
              = Ok (out_in, gc_in) w_in
            ∧ valid_choice (net_n_columns (net2 false true)) GB g
            ∧ ((gc_in = Some g ∧ rng wg = rng w_in)
               ∨ ∃ ws,
                   random_randint 0
                     (Z.of_nat (net_n_columns (net2 false true))) GB w_in
                   = Ok g ws
                   ∧ rng wg = rng ws)
            ∧ forward (block2 true) out_in g false wg = Ok out1 w1
            ∧ foldlM (net_layer (net2 false true) GB false) (out1, Some g)
                     [LOther id; LBlock (block2 true); LOther id] w1
              = Ok (out, gc') w'.
Proof.
  eexists _, _. split; [vm_compute; reflexivity|].
  eapply (network_hands_valid_choices_to_blocks
            (net2 false true) [[0%Qc]; [1%Qc]] false w0 _ _
            [] (block2 true) [LOther id; LBlock (block2 true); LOther id]).
  - unfold Qle; simpl; lia.
  - unfold Qle; simpl; lia.
  - simpl; lia.
  - reflexivity.
  - vm_compute; reflexivity.
Defined.

(** ** Construction of the network *)

Lemma blocks_of_app l1 l2 : blocks_of (l1 ++ l2) = blocks_of l1 ++ blocks_of l2.
Proof. apply omap_app. Qed.

Lemma n_blocks_layers (ext : LayerKind → Tensor → Tensor) ls :
  n_blocks ((λ k, match k with KBlock fb => LBlock fb | _ => LOther (ext k) end)
              <$> ls)
  = length (blocks_of ls).
Proof.
  induction ls as [|k ls IH]; [done|].
  destruct k; cbn [fmap list_fmap];
    rewrite ?n_blocks_block, ?n_blocks_other, IH; done.
Qed.

Section net_init_facts.
Context (C_in : nat) (H W : Z) (n_classes : nat).
Context (n_cols : nat) (channels : list nat) (p_drop : Q)
        (dropout_probs : list (option Q)) (gap : Z)
        (pad_type : PadType) (doubling : bool).
Context (theta : nat → nat → nat → Tensor → Tensor)
        (theta_d : nat → Tensor → Tensor).

Abbreviation stage :=
  (init_stage n_cols channels p_drop gap pad_type doubling theta theta_d).
Abbreviation stages :=
  (stages_from n_cols channels p_drop gap pad_type doubling theta theta_d).
Abbreviation pool := (pool_after channels gap).
Abbreviation net_init :=
  (FractalNet_init C_in H W n_classes n_cols channels p_drop dropout_probs gap
                   pad_type doubling theta theta_d).
Abbreviation block_init b C0 C p :=
  (FractalBlock_init n_cols C0 C p_drop p pad_type doubling
                     (theta b) (theta_d b)).

Lemma init_stage_Some ls C0 size tot b C p fb :
  block_init b C0 C p = Some fb →
  stage (ls, C0, size, tot) (b, (C, p))
  = inr (ls ++ KBlock fb :: pool b, C, (size / 2)%Z, tot + max_depth fb).
Proof.
  intros Hfb. unfold init_stage, pool_after. rewrite Hfb.
  destruct (_ || _); [|destruct (gap =? 1)%Z]; by rewrite <-?app_assoc.
Qed.

Lemma init_stage_None st b C p :
  n_cols = 0 → stage st (b, (C, p)) = inl BlockError.
Proof.
  intros Hn0. destruct st as [[[ls C0] size] tot].
  unfold init_stage, FractalBlock_init. by rewrite Hn0.
Qed.

(** The loop over the stages, from any state. *)
Lemma init_stage_loop zs : ∀ b ls C0 size tot,
  0 < n_cols →
  ∃ C', foldlE stage (ls, C0, size, tot) (zip (seq b (length zs)) zs)
    = inr (ls ++ stages b C0 zs, C', (size / 2 ^ Z.of_nat (length zs))%Z,
           tot + length zs * 2 ^ (n_cols - 1)).
Proof.
  induction zs as [|[C p] zs IH]; intros b ls C0 size tot Hn.
  - exists C0. cbn. by rewrite app_nil_r, Z.div_1_r, Nat.add_0_r.
  - destruct (FractalBlock_init_Some n_cols C0 C p_drop p pad_type doubling
                (theta b) (theta_d b) Hn) as [fb Hfb].
    destruct (FractalBlock_init_inv _ _ _ _ _ _ _ _ _ _ Hfb)
      as (_ & _ & Hdepth & _).
    destruct (IH (S b) (ls ++ KBlock fb :: pool b) C (size / 2)%Z
                (tot + max_depth fb) Hn) as [C' HIH].
    exists C'. cbn [length seq zip_with foldlE].
    rewrite (init_stage_Some _ _ _ _ _ _ _ _ Hfb), HIH.
    cbn [stages_from]. rewrite Hfb, Hdepth, <-app_assoc.
    rewrite Z.div_div by lia.
    rewrite Nat2Z.inj_succ, Z.pow_succ_r by lia.
    replace (tot + 2 ^ (n_cols - 1) + length zs * 2 ^ (n_cols - 1))
      with (tot + S (length zs) * 2 ^ (n_cols - 1)) by lia.
    done.
Qed.

(** What a successful [__init__] has built. *)
Lemma FractalNet_init_inv ni :
  net_init = inr ni →
  length channels = length dropout_probs ∧ H = W ∧ 0 < n_cols
  ∧ ∃ C_last,
      channels !! (length channels - 1) = Some C_last
      ∧ ni = mkNetInit
               (stages 0 C_in (zip channels dropout_probs)
                ++ head n_classes gap C_last
                     (H / 2 ^ Z.of_nat (length channels))%Z)
               (H / 2 ^ Z.of_nat (length channels))%Z
               (length channels * 2 ^ (n_cols - 1)).
Proof.
  unfold FractalNet_init.
  destruct (Nat.eqb_spec (length channels) (length dropout_probs))
    as [Hlen|]; [|done].
  destruct (Z.eqb_spec H W) as [HW|]; [|done]. cbn [negb].
  assert (Hz : length (zip channels dropout_probs) = length channels).
  { rewrite length_zip_with. lia. }
  destruct (decide (n_cols = 0)) as [Hn0|Hn].
  - destruct (zip channels dropout_probs) as [|[C p] zs].
    + simpl in Hz. rewrite (proj2 (lookup_ge_None _ _)); [done|lia].
    + cbn [length seq zip_with foldlE]. by rewrite init_stage_None.
  - destruct (init_stage_loop (zip channels dropout_probs) 0 [] C_in H 0
                ltac:(lia)) as [C' Hloop].
    rewrite Hloop, Hz.
    destruct (channels !! (length channels - 1)) as [C_last|]; [|done].
    intros [= <-]. split_and!; [done|done|lia|].
    exists C_last. split; [done|]. unfold head.
    by destruct (gap =? 2)%Z.
Qed.

Lemma blocks_of_pool b : blocks_of (pool b) = [].
Proof.
  unfold pool_after. by destruct (_ || _); [|destruct (gap =? 1)%Z].
Qed.

Lemma blocks_of_head C size : blocks_of (head n_classes gap C size) = [].
Proof. unfold head. by destruct (gap =? 2)%Z. Qed.

(** The blocks of the stages: one per entry, each followed by its
    pooling layer, and built from the channel count that leaves the
    stage before it. *)
Lemma stages_blocks zs : ∀ b C0,
  0 < n_cols →
  length (blocks_of (stages b C0 zs)) = length zs
  ∧ stages b C0 zs
    = mjoin (imap (λ i fb, KBlock fb :: pool (b + i))
                  (blocks_of (stages b C0 zs)))
  ∧ ∀ i fb, blocks_of (stages b C0 zs) !! i = Some fb →
      ∃ C p, zs !! i = Some (C, p)
        ∧ block_init (b + i)
            (match i with
             | 0 => C0
             | S i' => default 0 (fst <$> zs !! i')
             end) C p = Some fb.
Proof.
  induction zs as [|[C p] zs IH]; intros b C0 Hn; [done|].
  destruct (FractalBlock_init_Some n_cols C0 C p_drop p pad_type doubling
              (theta b) (theta_d b) Hn) as [fb Hfb].
  destruct (IH (S b) C Hn) as (Hlen & Hlay & Hchain).
  assert (Hblocks : blocks_of (stages b C0 ((C, p) :: zs))
                    = fb :: blocks_of (stages (S b) C zs)).
  { cbn [stages_from]. rewrite Hfb.
    change (KBlock fb :: pool b) with ([KBlock fb] ++ pool b).
    by rewrite !blocks_of_app, blocks_of_pool. }
  rewrite Hblocks. split_and!.
  - simpl. by rewrite Hlen.
  - cbn [stages_from imap mjoin list_join]. rewrite Hfb, Nat.add_0_r.
    cbn [app]. do 2 f_equal. rewrite Hlay at 1. f_equal.
    apply imap_ext. intros i fb' _. simpl. do 2 f_equal. lia.
  - intros [|i] fb' Hi.
    + injection Hi as <-. exists C, p. split; [done|].
      by rewrite Nat.add_0_r.
    + destruct (Hchain i fb' Hi) as (C' & p' & Hzs & Hfb').
      exists C', p'. split; [done|].
      replace (b + S i) with (S b + i) by lia.
      by destruct i.
Qed.

(** X17.  [__init__] raises [AssertionError] exactly when [channels] and
    [dropout_probs] differ in length or [H] differs from [W]; past the
    asserts, it fails on [channels[-1]] exactly when [channels] is
    empty, fails in the first block's constructor exactly when
    [n_columns] is 0 and [channels] is not empty, and succeeds
    otherwise (for a valid padding style and init scheme, the
    constructors of torch's own layers being taken not to raise). *)
Theorem network_init_outcome :
  match FractalNet_init C_in H W n_classes n_cols channels p_drop
                        dropout_probs gap pad_type doubling theta theta_d with
  | inr _ =>
      length channels = length dropout_probs ∧ H = W
      ∧ channels ≠ [] ∧ 0 < n_cols
  | inl AssertionError => length channels ≠ length dropout_probs ∨ H ≠ W
  | inl BlockError =>
      length channels = length dropout_probs ∧ H = W
      ∧ channels ≠ [] ∧ n_cols = 0
  | inl LastChannelError =>
      length channels = length dropout_probs ∧ H = W ∧ channels = []
  end.
Proof.
  unfold FractalNet_init.
  destruct (Nat.eqb_spec (length channels) (length dropout_probs))
    as [Hlen|]; [|by left].
  destruct (Z.eqb_spec H W) as [HW|]; [|by right]. cbn [negb].
  assert (Hz : length (zip channels dropout_probs) = length channels).
  { rewrite length_zip_with. lia. }
  assert (Hlast : ∀ C, channels !! (length channels - 1) = Some C →
            channels ≠ []).
  { intros C HC ->. done. }
  assert (Hnone : channels !! (length channels - 1) = None → channels = []).
  { intros HC. apply lookup_ge_None in HC. apply nil_length_inv. 
    destruct (length channels); [done|lia]. }
  destruct (decide (n_cols = 0)) as [Hn0|Hn].
  - destruct (zip channels dropout_probs) as [|[C p] zs].
    + assert (Hnil : channels = []) by (apply nil_length_inv; simpl in Hz; lia).
      cbn [length seq zip_with foldlE].
      rewrite Hnil. simpl. by rewrite <-Hlen, Hnil.
    + cbn [length seq zip_with foldlE]. rewrite init_stage_None by done.
      split_and!; [done..| |done]. intros Hnil. rewrite Hnil in Hz. done.
  - destruct (init_stage_loop (zip channels dropout_probs) 0 [] C_in H 0
                ltac:(lia)) as [C' Hloop].
    rewrite Hloop.
    destruct (channels !! (length channels - 1)) as [C_last|] eqn:HC.
    + split_and!; [done|done|by eapply Hlast|lia].
    + split_and!; [done|done|by apply Hnone].
Qed.

(** X18.  After a successful [__init__] the network has one block per
    entry of [channels]; [total_layers] is [len(channels)] times
    [2^(n_columns-1)]; the last feature-map size is [H] halved
    [len(channels)] times; and every block has the network's
    [n_columns] columns and is in training mode. *)
Theorem network_init_bookkeeping
    (ratio : Q) (consist : bool) (ext : LayerKind → Tensor → Tensor) ni :
  FractalNet_init C_in H W n_classes n_cols channels p_drop dropout_probs gap
                  pad_type doubling theta theta_d = inr ni →
  n_blocks (layers (net_of n_cols ratio consist ext ni)) = length channels
  ∧ ni_total_layers ni = length channels * 2 ^ (n_cols - 1)
  ∧ ni_size ni = (H / 2 ^ Z.of_nat (length channels))%Z
  ∧ Forall (λ fb, n_columns fb
                    = net_n_columns (net_of n_cols ratio consist ext ni)
                  ∧ max_depth fb = 2 ^ (n_cols - 1)
                  ∧ training fb = true)
           (blocks_of (ni_layers ni)).
Proof.
  intros Hinit.
  destruct (FractalNet_init_inv ni Hinit)
    as (Hlen & _ & Hn & C_last & _ & ->).
  destruct (stages_blocks (zip channels dropout_probs) 0 C_in Hn)
    as (Hblocks & _ & Hchain).
  assert (Hz : length (zip channels dropout_probs) = length channels).
  { rewrite length_zip_with. lia. }
  cbn [ni_layers ni_size ni_total_layers net_of layers net_n_columns].
  rewrite n_blocks_layers, blocks_of_app, blocks_of_head, app_nil_r.
  split_and!; [lia|done|done|].
  apply list.Forall_forall. intros fb Hfb.
  apply list_elem_of_lookup in Hfb as [i Hi].
  destruct (Hchain i fb Hi) as (C & p & _ & Hfbi).
  destruct (FractalBlock_init_inv _ _ _ _ _ _ _ _ _ _ Hfbi)
    as (_ & Hcols & Hdepth & Htr & _).
  done.
Qed.

(** X19.  The layer list of a constructed network is its blocks, each
    followed by its pooling layer ([MaxPool2d(2)]; after the last block
    [AdaptiveAvgPool2d(1)] when [gap] is 1 and nothing when [gap] is
    neither 0 nor 1), then the head: a 1x1 convolution to 10 channels,
    average pooling and flatten when [gap] is 2, else flatten and a
    linear layer of [channels[-1] * size * size] inputs. *)
Theorem network_init_layout ni :
  FractalNet_init C_in H W n_classes n_cols channels p_drop dropout_probs gap
                  pad_type doubling theta theta_d = inr ni →
  ∃ C_last,
    channels !! (length channels - 1) = Some C_last
    ∧ ni_layers ni
      = mjoin (imap (λ b fb, KBlock fb :: pool_after channels gap b)
                    (blocks_of (ni_layers ni)))
        ++ head n_classes gap C_last (ni_size ni).
Proof.
  intros Hinit.
  destruct (FractalNet_init_inv ni Hinit)
    as (_ & _ & Hn & C_last & HC & ->).
  exists C_last. split; [done|].
  destruct (stages_blocks (zip channels dropout_probs) 0 C_in Hn)
    as (_ & Hlay & _).
  cbn [ni_layers ni_size].
  rewrite blocks_of_app, blocks_of_head, app_nil_r. f_equal.
  rewrite Hlay at 1. f_equal.
Qed.

(** X20.  Block [b] of a constructed network is
    [FractalBlock(n_columns, C_prev, channels[b], p_local_drop,
    dropout_probs[b], ...)] where [C_prev] is the data's channel count
    for the first block and [channels[b-1]] afterwards: the channel
    counts chain from block to block. *)
Theorem network_init_chains_channels ni b fb :
  FractalNet_init C_in H W n_classes n_cols channels p_drop dropout_probs gap
                  pad_type doubling theta theta_d = inr ni →
  blocks_of (ni_layers ni) !! b = Some fb →
  ∃ C p,
    channels !! b = Some C ∧ dropout_probs !! b = Some p
    ∧ FractalBlock_init n_cols
        (match b with 0 => C_in | S b' => default 0 (channels !! b') end)
        C p_drop p pad_type doubling (theta b) (theta_d b) = Some fb.
Proof.
  intros Hinit Hb.
  destruct (FractalNet_init_inv ni Hinit)
    as (Hlen & _ & Hn & C_last & _ & ->).
  cbn [ni_layers] in Hb.
  rewrite blocks_of_app, blocks_of_head, app_nil_r in Hb.
  destruct (stages_blocks (zip channels dropout_probs) 0 C_in Hn)
    as (_ & _ & Hchain).
  destruct (Hchain b fb Hb) as (C & p & Hzs & Hfb).
  apply lookup_zip_with_Some in Hzs as (C' & p' & [= <- <-] & HC & Hp).
  exists C, p. split_and!; [done..|].
  destruct b as [|b']; [done|]. simpl in Hfb.
  assert (Hprev : fst <$> zip channels dropout_probs !! b' = channels !! b').
  { destruct (lookup_lt_is_Some_2 channels b') as [Cb HCb].
    { apply lookup_lt_Some in HC. lia. }
    destruct (lookup_lt_is_Some_2 dropout_probs b') as [pb Hpb].
    { apply lookup_lt_Some in Hp. lia. }
    by rewrite lookup_zip_with, HCb, Hpb. }
  by rewrite Hprev in Hfb.
Qed.
End net_init_facts.

Lemma network_init_bookkeeping_witness :
  ∃ ni,
    FractalNet_init 3 32 32 10 2 [4; 8] (1 # 2) [None; None] 0 zero false
                    (λ _ _ _, add_one) (λ _, add_one) = inr ni
    ∧ n_blocks (layers (net_of 2 (1 # 2) false (λ _, id) ni)) = length [4; 8]
    ∧ ni_total_layers ni = length [4; 8] * 2 ^ (2 - 1)
    ∧ ni_size ni = (32 / 2 ^ Z.of_nat (length [4; 8]))%Z
    ∧ Forall (λ fb, n_columns fb
                      = net_n_columns (net_of 2 (1 # 2) false (λ _, id) ni)
                    ∧ max_depth fb = 2 ^ (2 - 1)
                    ∧ training fb = true)
             (blocks_of (ni_layers ni)).
Proof.
  eexists. split; [vm_compute; reflexivity|].
  eapply (network_init_bookkeeping 3 32 32 10 2 [4; 8] (1 # 2) [None; None] 0
            zero false (λ _ _ _, add_one) (λ _, add_one)).
  vm_compute; reflexivity.
Defined.

Lemma network_init_layout_witness :
  ∃ ni,
    FractalNet_init 3 32 32 10 2 [4; 8] (1 # 2) [None; None] 2 zero false
                    (λ _ _ _, add_one) (λ _, add_one) = inr ni
    ∧ ∃ C_last,
        [4; 8] !! (length [4; 8] - 1) = Some C_last
        ∧ ni_layers ni
          = mjoin (imap (λ b fb, KBlock fb :: pool_after [4; 8] 2 b)
                        (blocks_of (ni_layers ni)))
            ++ head 10 2 C_last (ni_size ni).
Proof.
  eexists. split; [vm_compute; reflexivity|].
  eapply (network_init_layout 3 32 32 10 2 [4; 8] (1 # 2) [None; None] 2
            zero false (λ _ _ _, add_one) (λ _, add_one)).
  vm_compute; reflexivity.
Defined.

Lemma network_init_chains_channels_witness :
  ∃ ni fb,
    FractalNet_init 3 32 32 10 2 [4; 8] (1 # 2) [None; None] 0 zero false
                    (λ _ _ _, add_one) (λ _, add_one) = inr ni
    ∧ blocks_of (ni_layers ni) !! 1 = Some fb
    ∧ ∃ C p,
        [4; 8] !! 1 = Some C ∧ [None; None] !! 1 = Some p
        ∧ FractalBlock_init 2 (default 0 ([4; 8] !! 0)) C (1 # 2) p zero false
            (λ _ _, add_one) add_one = Some fb.
Proof.
  eexists _, _. split; [vm_compute; reflexivity|].
  split; [vm_compute; reflexivity|].
  eapply (network_init_chains_channels 3 32 32 10 2 [4; 8] (1 # 2)
            [None; None] 0 zero false (λ _ _ _, add_one) (λ _, add_one) _ 1).
  - vm_compute; reflexivity.
  - vm_compute; reflexivity.
Defined.
